(** * SmugMug bulk downloader: naming policy, resume placement and traversal

    A shallow embedding of [download.py] (class [SmugMugDownloader]) and the
    properties of its specification.

    Conventions of the embedding.
    - A Python [str] (and a [bytes] value) is a list of characters, [pystr].
      None of the modelled operations depends on the character repertoire
      beyond the ASCII characters named in the source.
    - A [pathlib.Path] is the list of its [parts] (POSIX flavour); a leading
      part ["/"] or ["//"] is the root of an absolute path.
    - The local disk is a finite map from paths to nodes (directory or
      regular file with its content), keyed by the lexical path: symbolic
      links and the meaning of [".."] are outside the model.
    - The remote service is data: every record carries the answer the server
      gives to the request the program makes about it.
    - A Python exception is an explicit [Throws] outcome.
    - The lines of the run log ([self.log], [print]) are not modelled, and
      the functions of the downloader compute the disk without the log
      file. For a downloader with the logger of [main] the log file is put
      back by [on_disk], and what a run leaves on the disk is stated
      through it.
    - The five worker threads of an album run one after the other, in
      submission order. *)

From Stdlib Require Import Ascii String Decimal DecimalNat DecimalString.
From stdpp Require Import gmap strings list fin_maps.

(** ** Python strings *)

Abbreviation pystr := (list ascii).

Definition str (s : string) : pystr := list_ascii_of_string s.

(** The double quote character. *)
Definition dquote : ascii := "034"%char.

(** [str(n)], also the rendering of an integer inside an f-string. *)
Definition repr_nat (n : nat) : pystr :=
  str (NilEmpty.string_of_uint (Nat.to_uint n)).

(** [s.replace(old, new)] for one-character [old] and [new]. *)
Definition replace_char (old new : ascii) (s : pystr) : pystr :=
  (λ c, if decide (c = old) then new else c) <$> s.

(** [s.lstrip(chars)], [s.rstrip(chars)], [s.strip(chars)]. *)
Fixpoint lstrip (chars : pystr) (s : pystr) : pystr :=
  match s with
  | [] => []
  | c :: s' => if decide (c ∈ chars) then lstrip chars s' else s
  end.

Definition rstrip (chars : pystr) (s : pystr) : pystr :=
  reverse (lstrip chars (reverse s)).

Definition strip (chars : pystr) (s : pystr) : pystr :=
  rstrip chars (lstrip chars s).

(** [s.rfind(c)]: the last index of [c], [None] for Python's [-1]. *)
Fixpoint rfind (c : ascii) (s : pystr) : option nat :=
  match s with
  | [] => None
  | x :: s' =>
      match rfind c s' with
      | Some i => Some (S i)
      | None => if decide (x = c) then Some 0 else None
      end
  end.

(** [s.split(sep)] for a one-character separator. *)
Fixpoint split_on (sep : ascii) (s : pystr) : list pystr :=
  match s with
  | [] => [[]]
  | c :: s' =>
      if decide (c = sep) then [] :: split_on sep s'
      else match split_on sep s' with
           | w :: ws => (c :: w) :: ws
           | [] => [[c]]
           end
  end.


(** ** [sanitize_filename] *)

Definition invalid_chars : pystr := str "<>:" ++ [dquote] ++ str "/\|?*".

Definition sanitize_filename (name : pystr) : pystr :=
  let name := foldl (λ name char, replace_char char "_"%char name) name invalid_chars in
  let name := strip (str ". ") name in
  let name := if decide (200 < length name) then take 200 name else name in
  if decide (name = []) then str "unnamed" else name.

(** ** [pathlib] (pure POSIX paths) *)

Abbreviation Path := (list pystr).

Definition starts_with (pre s : pystr) : bool :=
  bool_decide (take (length pre) s = pre).

(** [posixpath.splitroot]: one leading slash or three and more give the root
    ["/"], exactly two give ["//"]. *)
Definition splitroot (s : pystr) : pystr * pystr :=
  if starts_with (str "///") s then (str "/", drop 1 s)
  else if starts_with (str "//") s then (str "//", drop 2 s)
  else if starts_with (str "/") s then (str "/", drop 1 s)
  else ([], s).

Definition is_root (part : pystr) : bool :=
  bool_decide (part = str "/" ∨ part = str "//").

(** [Path(s)]: empty components and ["."] are dropped. *)
Definition parse_path (s : pystr) : Path :=
  let '(root, rel) := splitroot s in
  (if decide (root = []) then [] else [root]) ++
  filter (λ x, x ≠ [] ∧ x ≠ str ".") (split_on "/"%char rel).

Definition is_absolute (p : Path) : bool :=
  match p with
  | r :: _ => is_root r
  | [] => false
  end.

(** [p / s] for a string [s]: an absolute right operand replaces [p]. *)
Definition joinpath (p : Path) (s : pystr) : Path :=
  let q := parse_path s in
  if is_absolute q then q else p ++ q.

(** [p.name]: the last part, empty for the root and for the empty path. *)
Definition name (p : Path) : pystr :=
  match last p with
  | Some part => if is_root part then [] else part
  | None => []
  end.

(** [p.parent]. *)
Definition parent (p : Path) : Path :=
  match p with
  | [r] => if is_root r then [r] else []
  | _ => removelast p
  end.

(** [p.suffix] and [p.stem], on the name (Python 3.4 to 3.13: the suffix
    starts at the last dot, which is neither the first nor the last
    character of the name). *)
Definition suffix_of (name : pystr) : pystr :=
  match rfind "."%char name with
  | Some i => if decide (0 < i < length name - 1) then drop i name else []
  | None => []
  end.

Definition stem_of (name : pystr) : pystr :=
  match rfind "."%char name with
  | Some i => if decide (0 < i < length name - 1) then take i name else name
  | None => name
  end.

Definition suffix (p : Path) : pystr := suffix_of (name p).
Definition stem (p : Path) : pystr := stem_of (name p).

(** [p.with_suffix(sfx)]; [None] is the [ValueError] of an empty name. *)
Definition with_suffix (p : Path) (sfx : pystr) : option Path :=
  if decide (name p = []) then None
  else Some (removelast p ++ [stem p ++ sfx]).

(** [p / q] for two paths. *)
Definition join_paths (p q : Path) : Path :=
  if is_absolute q then q else p ++ q.

(** [p.relative_to(base)]; [None] is the [ValueError] raised when [base] is
    not a prefix of [p] (an absolute path is not relative to a relative
    one). *)
Fixpoint strip_prefix (p base : Path) : option Path :=
  match base with
  | [] => Some p
  | b :: base' =>
      match p with
      | x :: p' => if decide (x = b) then strip_prefix p' base' else None
      | [] => None
      end
  end.

Definition relative_to (p base : Path) : option Path :=
  match strip_prefix p base with
  | Some rest => if is_absolute rest then None else Some rest
  | None => None
  end.

(** The numbered variant of a file name: f"{base_name}_{counter}{extension}". *)
Definition numbered (base_name : pystr) (counter : nat) (extension : pystr) : pystr :=
  base_name ++ str "_" ++ repr_nat counter ++ extension.

(** The loop [counter = 2; while taken(counter): counter += 1]. The fuel
    bounds the number of iterations; [count_up_least] shows that the bound
    chosen at each use is never reached. *)
Fixpoint count_up (taken : nat → bool) (fuel counter : nat) : nat :=
  match fuel with
  | 0 => counter
  | S fuel' => if taken counter then count_up taken fuel' (S counter) else counter
  end.

(** ** The remote catalogue *)

Inductive py_exception :=
  | Exc (type_name message : pystr).

(** The ways a streamed download can break. *)
Inductive net_error :=
  | Timeout                         (* requests.exceptions.Timeout *)
  | OtherError (e : py_exception).  (* anything else *)

(** The outcome of [requests.get(image_url, stream=True, timeout=30)]: the
    call raises, or answers with a status code and a body of which
    [received] arrives before the stream ends or is cut by [cut]. *)
Inductive get_result :=
  | GetRaises (e : net_error)
  | GetResponse (status_code : nat) (received : pystr) (cut : option net_error).

(** One entry of [AlbumImage]. The JSON fields are optional; the last two
    fields are the server side of the download of this image:
    [resolved_url] is the value [get_image_download_url] returns for the
    record and [served] the answer to the request for that URL. *)
Record image := {
  ImageKey : option pystr;
  FileName : option pystr;
  image_Uri : option pystr;
  Title : option pystr;
  Caption : option pystr;
  image_Keywords : option pystr;
  resolved_url : option pystr;
  served : get_result
}.

(** The answer to a listing request made with [self.oauth.get]: the request
    raises, or returns a status code and a JSON body; the body is [None]
    when decoding it ([response.json()], the ['Response'] key) raises. *)
Inductive http_result (A : Type) :=
  | RequestRaises (e : py_exception)
  | Response (status_code : nat) (body : option A).
Arguments RequestRaises {A} e.
Arguments Response {A} status_code body.

(** The paginated image listing of an album: each page holds its images and,
    under [NextPage], the answer to the request for the next page. *)
Inductive listing :=
  | Listing (answer : http_result page)
with page :=
  | Page (AlbumImage : list image) (NextPage : option listing).

Record album := {
  album_Name : option pystr;
  album_Uri : option pystr;
  Description : option pystr;
  album_Keywords : option pystr;
  images_listing : listing
}.

#[local] Set Warnings "-register-all".

(** A folder node with the answers to the requests for its albums
    ([Uris.FolderAlbums]) and for its subfolders ([Uris.Folders]); [None]
    when the URI is absent or empty. *)
Inductive folder :=
  | Folder (folder_Name : option pystr)
           (FolderAlbums : option (http_result (list album)))
           (Folders : option (http_result (list folder))).

(** ** The local disk *)

Inductive node :=
  | Dir
  | File (content : pystr).

Abbreviation FS := (gmap Path node).

(** [p.exists()]. *)
Definition exists_ (fs : FS) (p : Path) : bool :=
  bool_decide (is_Some (fs !! p)).

(** [p.mkdir(parents=True, exist_ok=True)] on the reversed parts of [p]:
    an existing directory is accepted, an existing file raises, a missing
    path is created after its parent. The empty path is the working
    directory. [None] is the [OSError]. *)
Fixpoint mkdir_rev (rp : Path) (fs : FS) : option FS :=
  match rp with
  | [] => Some fs
  | _ :: rparent =>
      match fs !! reverse rp with
      | Some Dir => Some fs
      | Some (File _) => None
      | None =>
          match mkdir_rev rparent fs with
          | Some fs' => Some (<[reverse rp := Dir]> fs')
          | None => None
          end
      end
  end.

Definition mkdir_parents (p : Path) (fs : FS) : option FS :=
  mkdir_rev (reverse p) fs.

(** [p.unlink()]; [None] when [p] is not a regular file. *)
Definition unlink (p : Path) (fs : FS) : option FS :=
  match fs !! p with
  | Some (File _) => Some (delete p fs)
  | _ => None
  end.

(** ** The downloader object and the disk it works on *)

Record state := {
  disk : FS;
  total_downloaded : nat;
  total_skipped : nat;
  total_images : nat;
  total_albums : nat;
  total_folders : nat;
  total_metadata_saved : nat;
  total_album_metadata_saved : nat;
  total_duplicates : nat;
  total_renamed : nat;
  failed_downloads : list (pystr * pystr * pystr);
  duplicate_log : list (pystr * pystr * pystr * pystr);
  renamed_files : list (pystr * pystr * pystr);
  skipped_log : list (pystr * pystr * pystr * Path * Path)
}.

Definition initial_state (fs : FS) : state :=
  {| disk := fs; total_downloaded := 0; total_skipped := 0; total_images := 0;
     total_albums := 0; total_folders := 0; total_metadata_saved := 0;
     total_album_metadata_saved := 0; total_duplicates := 0; total_renamed := 0;
     failed_downloads := []; duplicate_log := []; renamed_files := [];
     skipped_log := [] |}.

(** All the updates the methods make, as one function on the fields. *)
Definition update
    (fd : FS → FS) (f1 f2 f3 f4 f5 f6 f7 f8 f9 : nat → nat)
    (ffail : list (pystr * pystr * pystr) → list (pystr * pystr * pystr))
    (fdup : list (pystr * pystr * pystr * pystr) → list (pystr * pystr * pystr * pystr))
    (fren : list (pystr * pystr * pystr) → list (pystr * pystr * pystr))
    (fskip : list (pystr * pystr * pystr * Path * Path) → list (pystr * pystr * pystr * Path * Path))
    (st : state) : state :=
  {| disk := fd (disk st);
     total_downloaded := f1 (total_downloaded st);
     total_skipped := f2 (total_skipped st);
     total_images := f3 (total_images st);
     total_albums := f4 (total_albums st);
     total_folders := f5 (total_folders st);
     total_metadata_saved := f6 (total_metadata_saved st);
     total_album_metadata_saved := f7 (total_album_metadata_saved st);
     total_duplicates := f8 (total_duplicates st);
     total_renamed := f9 (total_renamed st);
     failed_downloads := ffail (failed_downloads st);
     duplicate_log := fdup (duplicate_log st);
     renamed_files := fren (renamed_files st);
     skipped_log := fskip (skipped_log st) |}.

Definition set_disk (fs : FS) : state → state :=
  update (λ _, fs) id id id id id id id id id id id id id.
Definition incr_downloaded : state → state :=
  update id S id id id id id id id id id id id id.
Definition incr_skipped : state → state :=
  update id id S id id id id id id id id id id id.
Definition add_images (n : nat) : state → state :=
  update id id id (λ k, k + n) id id id id id id id id id id.
Definition incr_albums : state → state :=
  update id id id id S id id id id id id id id id.
Definition incr_folders : state → state :=
  update id id id id id S id id id id id id id id.
Definition incr_metadata_saved : state → state :=
  update id id id id id id S id id id id id id id.
Definition incr_album_metadata_saved : state → state :=
  update id id id id id id id S id id id id id id.
Definition incr_duplicates : state → state :=
  update id id id id id id id id S id id id id id.
Definition incr_renamed : state → state :=
  update id id id id id id id id id S id id id id.
Definition push_failed (e : pystr * pystr * pystr) : state → state :=
  update id id id id id id id id id id (λ l, l ++ [e]) id id id.
Definition push_duplicate (e : pystr * pystr * pystr * pystr) : state → state :=
  update id id id id id id id id id id id (λ l, l ++ [e]) id id.
Definition push_renamed (e : pystr * pystr * pystr) : state → state :=
  update id id id id id id id id id id id id (λ l, l ++ [e]) id.
Definition push_skipped (e : pystr * pystr * pystr * Path * Path) : state → state :=
  update id id id id id id id id id id id id id (λ l, l ++ [e]).

(** A call returns a value or raises, and leaves a state either way. *)
Inductive outcome (A : Type) :=
  | Returns (v : A) (st : state)
  | Throws (e : py_exception) (st : state).
Arguments Returns {A} v st.
Arguments Throws {A} e st.

Definition state_of {A} (o : outcome A) : state :=
  match o with
  | Returns _ st => st
  | Throws _ st => st
  end.

(** [d.get(key, default)] for an optional string field. *)
Definition get (field : option pystr) (dflt : pystr) : pystr :=
  default dflt field.

(** ** The per-album plan: duplicates and filename collisions

    The body of the loop [for idx, image in enumerate(images)] of
    [process_album], with its two dictionaries and its result list. *)

Record planning := {
  seen_image_keys : gmap pystr pystr;    (* {ImageKey: original_filename} *)
  used_filenames : gmap pystr pystr;     (* {filename: ImageKey} *)
  processed_images : list (image * pystr)
}.

Definition empty_planning : planning :=
  {| seen_image_keys := ∅; used_filenames := ∅; processed_images := [] |}.

Definition original_filename (idx : nat) (img : image) : pystr :=
  let image_key := get (ImageKey img) [] in
  get (FileName img)
      (str "image_" ++ (if decide (image_key = []) then repr_nat idx else image_key)).

Definition unique_id (idx : nat) (img : image) : pystr :=
  let image_key := get (ImageKey img) [] in
  if decide (image_key = []) then
    let image_uri := get (image_Uri img) [] in
    if decide (image_uri = []) then str "idx_" ++ repr_nat idx
    else str "uri_" ++ image_uri
  else image_key.

(** The renaming of a colliding file name: the first counter from 2 whose
    numbered name is not a key of [used]. *)
Definition rename_collision (used : gmap pystr pystr) (original : pystr) : pystr :=
  let base_name := stem (parse_path original) in
  let extension := suffix (parse_path original) in
  let counter :=
    count_up (λ counter, bool_decide (is_Some (used !! numbered base_name counter extension)))
             (S (size used)) 2 in
  numbered base_name counter extension.

Definition plan_image (album_name : pystr) (idx : nat) (img : image)
    (acc : planning * state) : planning * state :=
  let '(pl, st) := acc in
  let uid := unique_id idx img in
  let original := original_filename idx img in
  match seen_image_keys pl !! uid with
  | Some original_file =>
      (* true duplicate: counted, logged, skipped *)
      let reason := str "True duplicate (ID=" ++ uid ++ str ", already seen as "
                    ++ original_file ++ str ")" in
      (pl, push_duplicate (uid, original, album_name, reason) (incr_duplicates st))
  | None =>
      let '(final_filename, st) :=
        match used_filenames pl !! original with
        | Some other_id =>
            let final_filename := rename_collision (used_filenames pl) original in
            (final_filename,
             push_renamed (original, final_filename, album_name) (incr_renamed st))
        | None => (original, st)
        end in
      ({| seen_image_keys := <[uid := original]> (seen_image_keys pl);
          used_filenames := <[final_filename := uid]> (used_filenames pl);
          processed_images := processed_images pl ++ [(img, final_filename)] |},
       st)
  end.

Fixpoint plan_images (album_name : pystr) (idx : nat) (images : list image)
    (acc : planning * state) : planning * state :=
  match images with
  | [] => acc
  | img :: images' =>
      plan_images album_name (S idx) images' (plan_image album_name idx img acc)
  end.

(** The plan of an album and the state after planning. *)
Definition plan_album (album_name : pystr) (images : list image) (st : state)
    : list (image * pystr) * state :=
  let '(pl, st') := plan_images album_name 0 images (empty_planning, st) in
  (processed_images pl, st').

(** ** Listing the images of an album *)

(** The loop [while url:] of [fetch_images]: every way a page can fail
    (the request raises, the status is not 200, the body does not decode)
    leaves the loop with the images gathered so far. *)
Fixpoint fetch_images_from (l : listing) (images : list image) : list image :=
  match l with
  | Listing (RequestRaises _) => images
  | Listing (Response status_code body) =>
      if decide (status_code ≠ 200) then images
      else match body with
           | None => images
           | Some (Page album_image next_page) =>
               let images := images ++ album_image in
               match next_page with
               | Some l' => fetch_images_from l' images
               | None => images
               end
           end
  end.

Definition fetch_images (a : album) : list image :=
  fetch_images_from (images_listing a) [].

(** ** Sidecars, downloads, albums and folders *)

Definition newline : ascii := "010"%char.

(** The labelled lines of a sidecar: one line per non-empty field. *)
Definition sidecar_text (fields : list (pystr * pystr)) : pystr :=
  concat ((λ '(label, value),
             if decide (value = []) then []
             else label ++ str ": " ++ value ++ [newline]) <$> fields).

Definition failure_reason (e : net_error) : pystr :=
  match e with
  | Timeout => str "Download timeout (>30s)"
  | OtherError (Exc type_name message) => type_name ++ str ": " ++ message
  end.

Definition http_reason (status_code : nat) : pystr :=
  str "HTTP " ++ repr_nat status_code ++ str " error".

Definition no_url_reason : pystr :=
  str "No download URL found (no ImageSizeOriginal, ArchivedUri, LargestImage, or ImageDownload)".

Section Downloader.

(** [self.base_path]. *)
Variable base_path : Path.

(** The verdict of the operating system on opening a path for writing:
    [None] when the file can be created and written, else the exception that
    [open] raises (missing parent directory, permissions, full disk). *)
Variable os_refuses : Path → option py_exception.

Definition open_for_writing (p : Path) (fs : FS) : option py_exception :=
  match fs !! p with
  | Some Dir => Some (Exc (str "IsADirectoryError") [])
  | _ => os_refuses p
  end.

Definition save_album_metadata (album_info : album) (album_path : Path)
    (st : state) : state :=
  let album_name := get (album_Name album_info) (str "album") in
  let metadata_filename := replace_char " "%char "_"%char album_name in
  let metadata_filename := sanitize_filename metadata_filename ++ str ".txt" in
  let metadata_path := joinpath album_path metadata_filename in
  if exists_ (disk st) metadata_path then st
  else
    let name := get (album_Name album_info) [] in
    let description := get (Description album_info) [] in
    let keywords := get (album_Keywords album_info) [] in
    if decide (name = [] ∧ description = [] ∧ keywords = []) then st
    else
      match open_for_writing metadata_path (disk st) with
      | Some _ => st
      | None =>
          let text := sidecar_text [(str "Gallery Title", name);
                                    (str "Gallery Description", description);
                                    (str "Keywords", keywords)] in
          incr_album_metadata_saved
            (set_disk (<[metadata_path := File text]> (disk st)) st)
      end.

Definition save_image_metadata (image_info : image) (image_path : Path)
    (st : state) : outcome unit :=
  match with_suffix image_path (str ".txt") with
  | None => Throws (Exc (str "ValueError") []) st
  | Some metadata_path =>
      if exists_ (disk st) metadata_path then Returns tt st
      else
        let title := get (Title image_info) [] in
        let caption := get (Caption image_info) [] in
        let keywords := get (image_Keywords image_info) [] in
        if decide (title = [] ∧ caption = [] ∧ keywords = []) then Returns tt st
        else
          match open_for_writing metadata_path (disk st) with
          | Some _ => Returns tt st
          | None =>
              let text := sidecar_text [(str "Title", title);
                                        (str "Caption", caption);
                                        (str "Keywords", keywords)] in
              Returns tt (incr_metadata_saved
                            (set_disk (<[metadata_path := File text]> (disk st)) st))
          end
  end.

(** The block [if download_path.exists():] of [download_image]: the new
    download path under [Skipped_Images], with the skip counted and
    logged. *)
Definition quarantine (image_info : image) (download_path : Path)
    (album_name : pystr) (st : state) : outcome Path :=
  let filename := name download_path in
  let original_download_path := download_path in
  let image_key := get (ImageKey image_info) (str "no-key") in
  let skipped_dir := joinpath base_path (str "Skipped_Images") in
  match relative_to (parent download_path) base_path with
  | None => Throws (Exc (str "ValueError") []) st
  | Some album_subfolder =>
      let skipped_album_dir := join_paths skipped_dir album_subfolder in
      match mkdir_parents skipped_album_dir (disk st) with
      | None => Throws (Exc (str "FileExistsError") []) st
      | Some fs =>
          let st := set_disk fs st in
          let download_path := joinpath skipped_album_dir filename in
          let download_path :=
            if exists_ fs download_path then
              let base_name := stem (parse_path filename) in
              let extension := suffix (parse_path filename) in
              let counter :=
                count_up (λ counter,
                            exists_ fs (joinpath skipped_album_dir
                                          (numbered base_name counter extension)))
                         (S (size fs)) 2 in
              joinpath skipped_album_dir (numbered base_name counter extension)
            else download_path in
          Returns download_path
            (push_skipped (filename, album_name, image_key,
                           original_download_path, download_path)
                          (incr_skipped st))
      end
  end.

(** The three [except] clauses of [download_image]: the failure is logged
    and the partial file, if there is one, removed. *)
Definition fail_download (filename album_name reason : pystr)
    (download_path : Path) (st : state) : outcome bool :=
  let st := push_failed (filename, album_name, reason) st in
  if exists_ (disk st) download_path then
    match unlink download_path (disk st) with
    | Some fs => Returns false (set_disk fs st)
    | None => Throws (Exc (str "IsADirectoryError") []) st
    end
  else Returns false st.

(** The [try] block of [download_image]. [raise_for_status] raises for the
    status codes 400 to 599, before the file is opened. *)
Definition fetch_file (image_info : image) (download_path : Path)
    (filename album_name : pystr) (st : state) : outcome bool :=
  match served image_info with
  | GetRaises e =>
      fail_download filename album_name (failure_reason e) download_path st
  | GetResponse status_code received cut =>
      if decide (400 ≤ status_code < 600) then
        fail_download filename album_name (http_reason status_code) download_path st
      else
        match open_for_writing download_path (disk st) with
        | Some e =>
            fail_download filename album_name (failure_reason (OtherError e))
                          download_path st
        | None =>
            let st := set_disk (<[download_path := File received]> (disk st)) st in
            match cut with
            | Some e =>
                fail_download filename album_name (failure_reason e) download_path st
            | None =>
                match save_image_metadata image_info download_path st with
                | Throws e st' =>
                    fail_download filename album_name
                                  (failure_reason (OtherError e)) download_path st'
                | Returns _ st' => Returns true (incr_downloaded st')
                end
            end
        end
  end.

Definition download_image (image_info : image) (download_path : Path)
    (album_name : pystr) (st : state) : outcome bool :=
  let filename := name download_path in
  match (if exists_ (disk st) download_path
         then quarantine image_info download_path album_name st
         else Returns download_path st) with
  | Throws e st => Throws e st
  | Returns download_path st =>
      let image_url := get (resolved_url image_info) [] in
      if decide (image_url = []) then
        Returns false (push_failed (filename, album_name, no_url_reason) st)
      else fetch_file image_info download_path filename album_name st
  end.

(** The downloads of an album, one after the other; an exception that
    escapes [download_image] is caught around [future.result()]. *)
Fixpoint download_plan (album_path : Path) (album_name : pystr)
    (plan : list (image * pystr)) (st : state) : state :=
  match plan with
  | [] => st
  | (image, final_filename) :: plan' =>
      let download_path := joinpath album_path final_filename in
      download_plan album_path album_name plan'
        (state_of (download_image image download_path album_name st))
  end.

Definition process_album (album : album) (folder_path : Path) (st : state)
    : outcome unit :=
  let album_name := get (album_Name album) (str "Unnamed Album") in
  let album_uri := get (album_Uri album) [] in
  if decide (album_uri = []) then Returns tt st
  else
    let album_path := joinpath folder_path (sanitize_filename album_name) in
    match mkdir_parents album_path (disk st) with
    | None => Throws (Exc (str "FileExistsError") []) st
    | Some fs =>
        let st := set_disk fs st in
        let st := save_album_metadata album album_path st in
        let images := fetch_images album in
        let st := incr_albums (add_images (length images) st) in
        if decide (images = []) then Returns tt st
        else
          let '(processed_images, st) := plan_album album_name images st in
          if decide (processed_images = []) then Returns tt st
          else Returns tt (download_plan album_path album_name processed_images st)
    end.

(** The loop [for album in albums:]. *)
Fixpoint process_albums (albums : list album) (folder_path : Path) (st : state)
    : outcome unit :=
  match albums with
  | [] => Returns tt st
  | album :: albums' =>
      match process_album album folder_path st with
      | Returns _ st' => process_albums albums' folder_path st'
      | Throws e st' => Throws e st'
      end
  end.

(** [process_folder]: both listings are fetched and used inside a [try]
    whose [except Exception] clause only logs. The lines that the method
    logs go to the run log, see [on_disk]. *)
Fixpoint process_folder (f : folder) (parent_path : Path) (st : state)
    {struct f} : outcome unit :=
  match f with
  | Folder folder_name albums_data subfolders_data =>
      let folder_name := get folder_name (str "Unnamed Folder") in
      let folder_path := joinpath parent_path (sanitize_filename folder_name) in
      match mkdir_parents folder_path (disk st) with
      | None => Throws (Exc (str "FileExistsError") []) st
      | Some fs =>
          let st := incr_folders (set_disk fs st) in
          let st :=
            match albums_data with
            | Some (Response status_code (Some albums)) =>
                if decide (status_code = 200)
                then state_of (process_albums albums folder_path st)
                else st
            | _ => st
            end in
          let st :=
            match subfolders_data with
            | Some (Response status_code (Some subfolders)) =>
                if decide (status_code = 200)
                then state_of
                       ((fix each (l : list folder) (st : state) : outcome unit :=
                           match l with
                           | [] => Returns tt st
                           | subfolder :: l' =>
                               match process_folder subfolder folder_path st with
                               | Returns _ st' => each l' st'
                               | Throws e st' => Throws e st'
                               end
                           end) subfolders st)
                else st
            | _ => st
            end in
          Returns tt st
      end
  end.

(** The loop [for folder in folders:] of [download_all]. *)
Fixpoint process_folders (folders : list folder) (st : state) : outcome unit :=
  match folders with
  | [] => Returns tt st
  | folder :: folders' =>
      match process_folder folder base_path st with
      | Returns _ st' => process_folders folders' st'
      | Throws e st' => Throws e st'
      end
  end.

(** *** The audit files *)

Definition line (s : pystr) : pystr := s ++ [newline].

Definition rule (c : ascii) : pystr := repeat c 80.

Fixpoint join_with (sep : pystr) (l : list pystr) : pystr :=
  match l with
  | [] => []
  | [x] => x
  | x :: l' => x ++ sep ++ join_with sep l'
  end.

(** [str(p)] for a path. *)
Definition path_str (p : Path) : pystr :=
  match p with
  | [] => str "."
  | r :: rest => if is_root r then r ++ join_with (str "/") rest
                 else join_with (str "/") p
  end.

(** [with open(base_path / filename, 'w') as f: ...] inside a [try] whose
    [except] clause only logs. *)
Definition write_log (filename text : pystr) (st : state) : state :=
  let log_path := joinpath base_path filename in
  match open_for_writing log_path (disk st) with
  | Some _ => st
  | None => set_disk (<[log_path := File text]> (disk st)) st
  end.

Definition failed_log_text (st : state) : pystr :=
  line (str "SmugMug Download Failures") ++ line (rule "=") ++
  line (str "Total failed: " ++ repr_nat (length (failed_downloads st))) ++
  line (rule "=") ++ [newline] ++
  concat ((λ '(filename, album, reason),
             line (str "File: " ++ filename) ++ line (str "Album: " ++ album) ++
             line (str "Reason: " ++ reason) ++ line (rule "-") ++ [newline])
          <$> failed_downloads st).

Definition duplicates_log_text (st : state) : pystr :=
  line (str "SmugMug True Duplicates (Same ImageKey)") ++ line (rule "=") ++
  line (str "Total duplicates: " ++ repr_nat (total_duplicates st)) ++
  line (rule "=") ++
  line (str "These images appeared multiple times in SmugMug API responses") ++
  line (str "with the same ImageKey. Only one copy was downloaded.") ++
  line (rule "=") ++ [newline] ++
  concat ((λ '(image_key, filename, album, reason),
             line (str "File: " ++ filename) ++ line (str "Album: " ++ album) ++
             line (str "ImageKey: " ++ image_key) ++
             line (str "Reason: " ++ reason) ++ line (rule "-") ++ [newline])
          <$> duplicate_log st).

Definition renamed_log_text (st : state) : pystr :=
  line (str "SmugMug Filename Collisions (Renamed)") ++ line (rule "=") ++
  line (str "Total renamed: " ++ repr_nat (total_renamed st)) ++
  line (rule "=") ++
  line (str "These are DIFFERENT images with the same filename.") ++
  line (str "The second occurrence was renamed to avoid overwriting the first.") ++
  line (rule "=") ++ [newline] ++
  concat ((λ '(original, renamed, album),
             line (str "Album: " ++ album) ++ line (str "Original: " ++ original) ++
             line (str "Renamed to: " ++ renamed) ++ line (rule "-") ++ [newline])
          <$> renamed_files st).

Definition skipped_log_text (st : state) : pystr :=
  line (str "SmugMug Skipped Images (Already Existed)") ++ line (rule "=") ++
  line (str "Total skipped: " ++ repr_nat (total_skipped st)) ++
  line (rule "=") ++
  line (str "These images already existed at their intended location.") ++
  line (str "They were saved to the Skipped_Images directory instead.") ++
  line (str "This is expected on resume. On fresh downloads, this may indicate:") ++
  line (str "- Threading race condition (same image processed twice)") ++
  line (str "- API returning same image multiple times without same ImageKey") ++
  line (rule "=") ++ [newline] ++
  concat ((λ '(filename, album, image_key, original_path, skipped_path),
             line (str "File: " ++ filename) ++ line (str "Album: " ++ album) ++
             line (str "ImageKey: " ++ image_key) ++
             line (str "Original Path: " ++ path_str original_path) ++
             line (str "Saved to: " ++ path_str skipped_path) ++
             line (rule "-") ++ [newline])
          <$> skipped_log st).

(** One audit file per non-empty log. The line logged after each file
    goes to the run log, see [on_disk]. *)
Definition write_audit_logs (st : state) : state :=
  let st := if decide (failed_downloads st = []) then st
            else write_log (str "failed_downloads.txt") (failed_log_text st) st in
  let st := if decide (duplicate_log st = []) then st
            else write_log (str "duplicates.txt") (duplicates_log_text st) st in
  let st := if decide (renamed_files st = []) then st
            else write_log (str "renamed_files.txt") (renamed_log_text st) st in
  if decide (skipped_log st = []) then st
  else write_log (str "skipped_images.txt") (skipped_log_text st) st.

(** *** The run *)

(** How [download_all] ends: it returns, or leaves through [sys.exit]. *)
Inductive run_end :=
  | Finished (st : state)
  | SysExit (code : nat) (st : state).

(** [download_all]: [root] is the answer to the request for the top-level
    folders. A status other than 200 is logged and the method returns; any
    exception inside the [try] reaches [sys.exit(1)]. The banner, the
    summary and every other line the method logs go to the run log, see
    [on_disk]. *)
Definition download_all (root : http_result (list folder)) (st : state) : run_end :=
  match root with
  | RequestRaises _ => SysExit 1 st
  | Response status_code body =>
      if decide (status_code ≠ 200) then Finished st
      else
        match body with
        | None => SysExit 1 st
        | Some folders =>
            match process_folders folders st with
            | Throws _ st' => SysExit 1 st'
            | Returns _ st' => Finished (write_audit_logs st')
            end
        end
  end.

(** The exit status of the process started by [main]: 0 when
    [download_all] returns. *)
Definition exit_status (r : run_end) : nat :=
  match r with
  | Finished _ => 0
  | SysExit code _ => code
  end.

Definition main (root : http_result (list folder)) (fs : FS) : run_end :=
  download_all root (initial_state fs).

End Downloader.

(** ** Notions used to state the properties *)

Definition slash : ascii := "/"%char.

(** A string that does not start, or end, with one of [chars]. *)
Definition starts_ok (chars s : pystr) : Prop := ∀ c, head s = Some c → c ∉ chars.
Definition ends_ok (chars s : pystr) : Prop := ∀ c, last s = Some c → c ∉ chars.

(** The first and the third step of [sanitize_filename]. *)
Definition replace_invalid (name : pystr) : pystr :=
  foldl (λ name char, replace_char char "_"%char name) name invalid_chars.

Definition truncate (name : pystr) : pystr :=
  if decide (200 < length name) then take 200 name else name.

(** The identity keys of the images of an album, by position. *)
Definition identity_keys (images : list image) : list pystr := imap unique_id images.

(** A position holds the first occurrence of its identity key when the key
    does not occur before it. *)
Definition is_first_occurrence (ids : list pystr) (i : nat) : bool :=
  match ids !! i with
  | Some k => bool_decide (k ∉ take i ids)
  | None => false
  end.

Definition first_positions (ids : list pystr) : list nat :=
  filter (λ i, is_first_occurrence ids i) (seq 0 (length ids)).

Definition repeat_positions (ids : list pystr) : list nat :=
  filter (λ i, ¬ is_first_occurrence ids i) (seq 0 (length ids)).


(** The key, file name and album of the duplicate event of position [i]. *)
Definition duplicate_event (album_name : pystr) (images : list image) (i : nat)
    : option (pystr * pystr * pystr) :=
  img ← images !! i; Some (unique_id i img, original_filename i img, album_name).

Definition event_fields (e : pystr * pystr * pystr * pystr) : pystr * pystr * pystr :=
  let '(k, f, a, _) := e in (k, f, a).

(** What the two dictionaries hold after the images [pre]. *)
Record plan_inv (pre : list image) (pl : planning) : Prop := {
  inv_seen : dom (seen_image_keys pl) = list_to_set (identity_keys pre);
  inv_used : dom (used_filenames pl) = list_to_set ((processed_images pl).*2);
  inv_nodup : NoDup ((processed_images pl).*2)
}.

(** The three ways one image extends the plan. *)
Inductive plan_step (album_name : pystr) (idx : nat) (img : image)
    (pl : planning) (st : state) : planning * state → Prop :=
  | step_duplicate original_file :
      seen_image_keys pl !! unique_id idx img = Some original_file →
      plan_step album_name idx img pl st
        (pl, push_duplicate
               (unique_id idx img, original_filename idx img, album_name,
                str "True duplicate (ID=" ++ unique_id idx img ++
                str ", already seen as " ++ original_file ++ str ")")
               (incr_duplicates st))
  | step_keep :
      seen_image_keys pl !! unique_id idx img = None →
      used_filenames pl !! original_filename idx img = None →
      plan_step album_name idx img pl st
        ({| seen_image_keys :=
              <[unique_id idx img := original_filename idx img]> (seen_image_keys pl);
            used_filenames :=
              <[original_filename idx img := unique_id idx img]> (used_filenames pl);
            processed_images :=
              processed_images pl ++ [(img, original_filename idx img)] |}, st)
  | step_rename other_id :
      seen_image_keys pl !! unique_id idx img = None →
      used_filenames pl !! original_filename idx img = Some other_id →
      plan_step album_name idx img pl st
        ({| seen_image_keys :=
              <[unique_id idx img := original_filename idx img]> (seen_image_keys pl);
            used_filenames :=
              <[rename_collision (used_filenames pl) (original_filename idx img)
                := unique_id idx img]> (used_filenames pl);
            processed_images :=
              processed_images pl ++
              [(img, rename_collision (used_filenames pl) (original_filename idx img))] |},
         push_renamed
           (original_filename idx img,
            rename_collision (used_filenames pl) (original_filename idx img), album_name)
           (incr_renamed st)).

(** The state after planning the images [pre], against first occurrences
    and repeats of the identity keys. *)
Record plan_log (album_name : pystr) (pre : list image) (st : state)
    (pl : planning) (st' : state) : Prop := {
  log_images :
    (processed_images pl).*1
    = omap (λ i, pre !! i) (first_positions (identity_keys pre));
  log_events : ∃ evs,
    duplicate_log st' = duplicate_log st ++ evs ∧
    event_fields <$> evs
    = omap (duplicate_event album_name pre) (repeat_positions (identity_keys pre));
  log_count :
    total_duplicates st' = total_duplicates st + length (repeat_positions (identity_keys pre))
}.

(** The quarantine directory of a download path whose parent is [rel] below
    the base path. *)
Definition skipped_images : pystr := str "Skipped_Images".

Definition quarantine_dir (base_path rel : Path) : Path :=
  base_path ++ [skipped_images] ++ rel.

(** A transfer fails when the request raises, when the status is one that
    [raise_for_status] rejects, or when the stream is cut. *)
Definition transfer_fails (r : get_result) : bool :=
  match r with
  | GetRaises _ => true
  | GetResponse status_code _ cut =>
      bool_decide (400 ≤ status_code < 600) || bool_decide (is_Some cut)
  end.

(** A listing request fails when it raises, when the status is not 200 or
    when the body does not decode. *)
Definition listing_failed {A} (r : http_result A) : bool :=
  match r with
  | RequestRaises _ => true
  | Response status_code body => bool_decide (status_code ≠ 200) || bool_decide (body = None)
  end.

(** One labelled line of a sidecar, or nothing for an empty field. *)
Definition labelled (label value : pystr) : pystr :=
  if decide (value = []) then [] else label ++ str ": " ++ value ++ [newline].

(** ** The claims that do not hold, as the specification words them *)

(** The first occurrence of a file name in an album keeps its name. *)
Definition first_occurrence_keeps_name (album_name : pystr) (images : list image)
    (st : state) : Prop :=
  ∀ i img,
    images !! i = Some img →
    is_first_occurrence (identity_keys images) i = true →
    (∀ j img', j < i → images !! j = Some img' →
       original_filename j img' ≠ original_filename i img) →
    (img, original_filename i img) ∈ (plan_album album_name images st).1.

(** Every later occurrence of a file name under another identity key gets a
    numbered name. *)
Definition later_occurrence_is_renamed (album_name : pystr) (images : list image)
    (st : state) : Prop :=
  ∀ i j img img',
    j < i → images !! j = Some img' → images !! i = Some img →
    original_filename j img' = original_filename i img →
    unique_id j img' ≠ unique_id i img →
    is_first_occurrence (identity_keys images) i = true →
    ∃ n, 2 ≤ n ∧
      (img, numbered (stem (parse_path (original_filename i img))) n
                     (suffix (parse_path (original_filename i img))))
      ∈ (plan_album album_name images st).1.

(** ** Sample data *)

Definition sample_image (key filename : string) : image :=
  {| ImageKey := Some (str key); FileName := Some (str filename); image_Uri := None;
     Title := Some (str "Sunset"); Caption := None; image_Keywords := None;
     resolved_url := Some (str "https://photos.example/original");
     served := GetResponse 200 (str "jpeg bytes") None |}.

(** An image whose download is answered with HTTP 500. *)
Definition refused_image (key filename : string) : image :=
  {| ImageKey := Some (str key); FileName := Some (str filename); image_Uri := None;
     Title := None; Caption := None; image_Keywords := None;
     resolved_url := Some (str "https://photos.example/original");
     served := GetResponse 500 [] None |}.

Definition sample_base : Path := [str "dl"].
Definition sample_album_path : Path := [str "dl"; str "F"; str "A"].
Definition sample_path : Path := [str "dl"; str "F"; str "A"; str "a.jpg"].

(** A disk that already holds the image. *)
Definition sample_disk : FS := {[ sample_path := File (str "old") ]}.

Definition never_refuses : Path → option py_exception := λ _, None.

(** A file system on which nothing can be written. *)
Definition always_refuses : Path → option py_exception :=
  λ _, Some (Exc (str "PermissionError") []).

(** An album whose second page of images is answered with HTTP 500. *)
Definition sample_album : album :=
  {| album_Name := Some (str "My Album"); album_Uri := Some (str "/api/v2/album/x");
     Description := Some (str "Holidays"); album_Keywords := None;
     images_listing :=
       Listing (Response 200 (Some (Page [sample_image "K1" "a.jpg"]
                                         (Some (Listing (Response 500 None)))))) |}.

(** An album whose image listing is answered with HTTP 500. *)
Definition unlisted_album : album :=
  {| album_Name := Some (str "My Album"); album_Uri := Some (str "/api/v2/album/x");
     Description := None; album_Keywords := None;
     images_listing := Listing (Response 500 None) |}.

(** ** Notions for the properties of the whole run *)

(** Every entry of the first disk is an entry of the second. *)
Definition keeps (fs fs' : FS) : Prop :=
  ∀ p n, fs !! p = Some n → fs' !! p = Some n.

(** The counters never go down and the logs are only appended to. *)
Record grows (st st' : state) : Prop := {
  grows_downloaded : total_downloaded st ≤ total_downloaded st';
  grows_skipped : total_skipped st ≤ total_skipped st';
  grows_images : total_images st ≤ total_images st';
  grows_albums : total_albums st ≤ total_albums st';
  grows_folders : total_folders st ≤ total_folders st';
  grows_metadata : total_metadata_saved st ≤ total_metadata_saved st';
  grows_album_metadata : total_album_metadata_saved st ≤ total_album_metadata_saved st';
  grows_duplicates : total_duplicates st ≤ total_duplicates st';
  grows_renamed : total_renamed st ≤ total_renamed st';
  grows_failed_log : failed_downloads st `prefix_of` failed_downloads st';
  grows_duplicate_log : duplicate_log st `prefix_of` duplicate_log st';
  grows_renamed_log : renamed_files st `prefix_of` renamed_files st';
  grows_skipped_log : skipped_log st `prefix_of` skipped_log st'
}.

(** The figures of the summary agree with one another: the counters of
    duplicates, renames and skips are the lengths of their logs; the images
    downloaded, failed and skipped as duplicates are at most the images
    found; so are the skips and the renames; no sidecar is counted without
    its image or its album. *)
Record figures_consistent (st : state) : Prop := {
  fig_duplicates : total_duplicates st = length (duplicate_log st);
  fig_renamed : total_renamed st = length (renamed_files st);
  fig_skipped : total_skipped st = length (skipped_log st);
  fig_accounted :
    total_downloaded st + length (failed_downloads st) + total_duplicates st
    ≤ total_images st;
  fig_skipped_bound : total_skipped st + total_duplicates st ≤ total_images st;
  fig_renamed_bound : total_renamed st + total_duplicates st ≤ total_images st;
  fig_metadata : total_metadata_saved st ≤ total_downloaded st;
  fig_album_metadata : total_album_metadata_saved st ≤ total_albums st
}.

(** What calls of [download_image] do to the state when at most [w] of them
    end in a download or a failure and at most [s] of them in a skip. *)
Record downloads_effect (w s : nat) (st st' : state) : Prop := {
  de_disk : keeps (disk st) (disk st');
  de_downloaded : total_downloaded st ≤ total_downloaded st';
  de_failed : failed_downloads st `prefix_of` failed_downloads st';
  de_work :
    total_downloaded st' + length (failed_downloads st')
    ≤ total_downloaded st + length (failed_downloads st) + w;
  de_skipped_log : skipped_log st `prefix_of` skipped_log st';
  de_skipped :
    total_skipped st' + length (skipped_log st)
    = total_skipped st + length (skipped_log st');
  de_skipped_bound : length (skipped_log st') ≤ length (skipped_log st) + s;
  de_metadata : total_metadata_saved st ≤ total_metadata_saved st';
  de_metadata_bound :
    total_metadata_saved st' + total_downloaded st
    ≤ total_metadata_saved st + total_downloaded st';
  de_images : total_images st' = total_images st;
  de_albums : total_albums st' = total_albums st;
  de_folders : total_folders st' = total_folders st;
  de_album_metadata : total_album_metadata_saved st' = total_album_metadata_saved st;
  de_duplicates : total_duplicates st' = total_duplicates st;
  de_renamed : total_renamed st' = total_renamed st;
  de_duplicate_log : duplicate_log st' = duplicate_log st;
  de_renamed_log : renamed_files st' = renamed_files st
}.

(** What planning [n] images into [m] entries does to the state. *)
Record plan_effect (n m : nat) (st st' : state) : Prop := {
  pe_duplicate_log : duplicate_log st `prefix_of` duplicate_log st';
  pe_duplicates : total_duplicates st' + m = total_duplicates st + n;
  pe_duplicate_count : length (duplicate_log st') + m = length (duplicate_log st) + n;
  pe_renamed_log : renamed_files st `prefix_of` renamed_files st';
  pe_renamed :
    total_renamed st' + length (renamed_files st)
    = total_renamed st + length (renamed_files st');
  pe_renamed_bound : length (renamed_files st') ≤ length (renamed_files st) + m;
  pe_disk : disk st' = disk st;
  pe_downloaded : total_downloaded st' = total_downloaded st;
  pe_skipped : total_skipped st' = total_skipped st;
  pe_images : total_images st' = total_images st;
  pe_albums : total_albums st' = total_albums st;
  pe_folders : total_folders st' = total_folders st;
  pe_metadata : total_metadata_saved st' = total_metadata_saved st;
  pe_album_metadata : total_album_metadata_saved st' = total_album_metadata_saved st;
  pe_failed : failed_downloads st' = failed_downloads st;
  pe_skipped_log : skipped_log st' = skipped_log st
}.

(** One step of the run: the disk is kept, the statistics grow and the
    figures stay consistent. *)
Definition run_step (st st' : state) : Prop :=
  keeps (disk st) (disk st') ∧ grows st st' ∧
  (figures_consistent st → figures_consistent st').

(** The state in which the transfer of [download_image] starts: the state
    of the call, or that state with the quarantine directory made and the
    skip counted and logged. *)
Inductive transfer_start (st : state) : state → Prop :=
  | start_fresh : transfer_start st st
  | start_skipped fs1 e :
      keeps (disk st) fs1 →
      transfer_start st (push_skipped e (incr_skipped (set_disk fs1 st))).

(** The outcomes of [download_image]: it raises and leaves the state as it
    is; it logs one failure; or it saves the file, with or without a
    sidecar, and counts it. *)
Inductive download_outcome (download_path : Path) (album_name : pystr)
    (st : state) : outcome bool → Prop :=
  | outcome_raised e : download_outcome download_path album_name st (Throws e st)
  | outcome_failed st1 reason :
      transfer_start st st1 →
      download_outcome download_path album_name st
        (Returns false (push_failed (name download_path, album_name, reason) st1))
  | outcome_saved st1 q received :
      transfer_start st st1 → disk st1 !! q = None →
      download_outcome download_path album_name st
        (Returns true (incr_downloaded (set_disk (<[q := File received]> (disk st1)) st1)))
  | outcome_saved_with_sidecar st1 q received m text :
      transfer_start st st1 → disk st1 !! q = None → disk st1 !! m = None → m ≠ q →
      download_outcome download_path album_name st
        (Returns true
           (incr_downloaded
              (incr_metadata_saved
                 (set_disk (<[m := File text]> (<[q := File received]> (disk st1))) st1)))).

(** The state a run ends in. *)
Definition final_state (r : run_end) : state :=
  match r with
  | Finished st => st
  | SysExit _ st => st
  end.

(** The audit files of [download_all], in the order they are written: the
    name of the file, the condition under which it is written (its log is
    not empty) and its text. *)
Definition audit_entries (st : state) : list (pystr * bool * pystr) :=
  [(str "failed_downloads.txt", bool_decide (failed_downloads st ≠ []), failed_log_text st);
   (str "duplicates.txt", bool_decide (duplicate_log st ≠ []), duplicates_log_text st);
   (str "renamed_files.txt", bool_decide (renamed_files st ≠ []), renamed_log_text st);
   (str "skipped_images.txt", bool_decide (skipped_log st ≠ []), skipped_log_text st)].

Definition audit_files : list pystr :=
  [str "failed_downloads.txt"; str "duplicates.txt"; str "renamed_files.txt";
   str "skipped_images.txt"].

Definition audit_paths (base_path : Path) : list Path :=
  joinpath base_path <$> audit_files.

(** Writing the audit files entry by entry. *)
Definition write_entries (base_path : Path) (os_refuses : Path → option py_exception)
    (entries : list (pystr * bool * pystr)) (st : state) : state :=
  foldl (λ (st : state) (e : pystr * bool * pystr),
           if e.1.2 then write_log base_path os_refuses e.1.1 e.2 st else st)
        st entries.

(** Two states that differ in the disk only. *)
Definition same_figures (st st' : state) : Prop :=
  set_disk (disk st) st' = st.

(** ** The run log on the disk

    [main] runs [download_all] inside [with Logger(log_file_path)], where
    [log_file_path] is [base_path / 'download_log.txt']: the file is opened
    for writing before the run, and every [self.log] call of a downloader
    with a logger appends its line to that file ([Logger.log]). The
    functions of the downloader above compute the disk without these
    lines. [on_disk] puts the log file back: [logger] is [None] for a
    downloader without a logger (the test script builds one), and
    [Some text] for a downloader with the logger of [main], whose file holds
    [text] at that point of the run. The properties of what a run leaves on
    the disk are stated for every [logger]. *)
Definition log_file_path (base_path : Path) : Path :=
  joinpath base_path (str "download_log.txt").

Definition on_disk (base_path : Path) (logger : option pystr) (fs : FS) : FS :=
  match logger with
  | None => fs
  | Some text => <[log_file_path base_path := File text]> fs
  end.

(** ** Resolving the download URL

    [get_image_download_url] reads four sources of the image record, in
    this order: the sizes behind [Uris.ImageSizeDetails], the field
    [ArchivedUri], the answer behind [Uris.LargestImage], and
    [Uris.ImageDownload]. The two requests are made inside a [try] whose
    [except Exception] clause is [pass]. *)

(** An entry of [Uris]: an object with an optional [Uri], a string, or
    another JSON value, of which only the truth value is used. *)
Inductive uri_entry :=
  | UriObject (Uri : option pystr)
  | UriString (s : pystr)
  | UriOther (truthy : bool).

(** An entry of [ImageSizeDetails]: an object with an optional [Url], or a
    value that has no [get] method. *)
Inductive size_info :=
  | SizeObject (Url : option pystr)
  | SizeOther.

(** The sources of one image: the JSON fields, and the answers of the
    server to the two requests ([None] as the body when [resp.json()] or
    the chain of [get] calls raises; the body of the second request is the
    [Url] of [LargestImage], if any). *)
Record image_sources := {
  ImageSizeDetails : option uri_entry;
  size_details : http_result (gmap pystr size_info);
  ArchivedUri : option pystr;
  LargestImage : option uri_entry;
  largest_image : http_result (option pystr);
  ImageDownload : option uri_entry
}.

(** [uris.get(key, {})], reduced to its [Uri] when it is a dict, then
    tested by [if ...:]. *)
Definition uri_given (e : option uri_entry) : bool :=
  match e with
  | None => false
  | Some (UriObject uri) => bool_decide (get uri [] ≠ [])
  | Some (UriString s) => bool_decide (s ≠ [])
  | Some (UriOther truthy) => truthy
  end.

Definition size_keys : list pystr :=
  [str "ImageSizeOriginal"; str "ImageSizeX5Large"; str "ImageSizeX4Large";
   str "ImageSizeX3Large"; str "ImageSizeX2Large"; str "ImageSizeXLarge";
   str "ImageSizeLarge"].

(** How the loop [for size_key in [...]] ends: it returns a URL, runs to
    its end, or raises on an entry that is not an object. *)
Inductive search :=
  | Found (url : pystr)
  | NotFound
  | Raised.

Fixpoint first_url (sizes : gmap pystr size_info) (keys : list pystr) : search :=
  match keys with
  | [] => NotFound
  | size_key :: keys' =>
      match sizes !! size_key with
      | None => first_url sizes keys'
      | Some SizeOther => Raised
      | Some (SizeObject url) =>
          if decide (get url [] = []) then first_url sizes keys'
          else Found (get url [])
      end
  end.

(** Step 1; [None] when the function goes on to the next source. *)
Definition from_size_details (src : image_sources) : option pystr :=
  if uri_given (ImageSizeDetails src) then
    match size_details src with
    | RequestRaises _ => None
    | Response status_code body =>
        if decide (status_code = 200) then
          match body with
          | None => None
          | Some sizes =>
              match first_url sizes size_keys with
              | Found url => Some url
              | NotFound => None
              | Raised => None
              end
          end
        else None
    end
  else None.

(** Step 3. *)
Definition from_largest_image (src : image_sources) : option pystr :=
  if uri_given (LargestImage src) then
    match largest_image src with
    | RequestRaises _ => None
    | Response status_code body =>
        if decide (status_code = 200) then
          match body with
          | None => None
          | Some url => if decide (get url [] = []) then None else Some (get url [])
          end
        else None
    end
  else None.

(** The value returned: a string, or [None] for Python's [None]. *)
Definition get_image_download_url (src : image_sources) : option pystr :=
  match from_size_details src with
  | Some url => Some url
  | None =>
      let archived_uri := get (ArchivedUri src) [] in
      if decide (archived_uri ≠ []) then Some archived_uri
      else
        match from_largest_image src with
        | Some url => Some url
        | None =>
            match ImageDownload src with
            | None => Some []
            | Some (UriObject uri) => Some (get uri [])
            | Some (UriString s) => Some s
            | Some (UriOther _) => None
            end
        end
  end.

(** The sources without one of the two requests. *)
Definition without_size_details (src : image_sources) : image_sources :=
  {| ImageSizeDetails := None; size_details := size_details src;
     ArchivedUri := ArchivedUri src; LargestImage := LargestImage src;
     largest_image := largest_image src; ImageDownload := ImageDownload src |}.

Definition without_largest_image (src : image_sources) : image_sources :=
  {| ImageSizeDetails := ImageSizeDetails src; size_details := size_details src;
     ArchivedUri := ArchivedUri src; LargestImage := None;
     largest_image := largest_image src; ImageDownload := ImageDownload src |}.

(** The sizes of an answer replaced by others. *)
Definition with_sizes (sizes : gmap pystr size_info) (src : image_sources)
    : image_sources :=
  {| ImageSizeDetails := ImageSizeDetails src;
     size_details := Response 200 (Some sizes);
     ArchivedUri := ArchivedUri src; LargestImage := LargestImage src;
     largest_image := largest_image src; ImageDownload := ImageDownload src |}.

(** A size entry that gives no URL to the loop. *)
Definition no_url (sizes : gmap pystr size_info) (size_key : pystr) : Prop :=
  sizes !! size_key = None ∨ sizes !! size_key = Some (SizeObject None) ∨
  sizes !! size_key = Some (SizeObject (Some [])).

(** The image record of the download, with the URL resolved from its
    sources. *)
Definition resolved (src : image_sources) (image_info : image) : image :=
  {| ImageKey := ImageKey image_info; FileName := FileName image_info;
     image_Uri := image_Uri image_info; Title := Title image_info;
     Caption := Caption image_info; image_Keywords := image_Keywords image_info;
     resolved_url := get_image_download_url src; served := served image_info |}.

(** ** Notions for the properties of listings, transfers and names *)

(** A listing that answers the pages [pages] one after the other, each
    with status 200, and then goes on with [rest]. *)
Fixpoint chain (pages : list (list image)) (rest : listing) : listing :=
  match pages with
  | [] => rest
  | album_image :: pages' =>
      Listing (Response 200 (Some (Page album_image (Some (chain pages' rest)))))
  end.

(** A name that [sanitize_filename] has nothing to do on. *)
Definition clean (name : pystr) : Prop :=
  name ≠ [] ∧ (∀ c, c ∈ invalid_chars → c ∉ name) ∧
  starts_ok (str ". ") name ∧ ends_ok (str ". ") name ∧ length name ≤ 200.

(** An image with neither [ImageKey] nor [Uri]. *)
Definition keyless (img : image) : Prop :=
  get (ImageKey img) [] = [] ∧ get (image_Uri img) [] = [].

(** ** The run log ([class Logger])

    The logger writes every message to its file and, when [also_print] is
    set, to the terminal. The model holds the text of the file and the
    messages printed; the two time stamps are inputs. *)

(** [self.log_file]: [None], an open file, or a file that was closed (which
    is still a true value). *)
Inductive log_file_state :=
  | NotOpened
  | Opened
  | Closed.

Record Logger := {
  also_print : bool;
  log_file : log_file_state;
  log_text : pystr;
  terminal : list pystr
}.

(** [Logger(log_file_path, also_print)] for a path that holds [on_disk]. *)
Definition new_Logger (also_print : bool) (on_disk : pystr) : Logger :=
  {| also_print := also_print; log_file := NotOpened; log_text := on_disk;
     terminal := [] |}.

Inductive result (A : Type) :=
  | Ok (v : A)
  | Raise (e : py_exception).
Arguments Ok {A} v.
Arguments Raise {A} e.

Definition and_then {A B} (r : result A) (f : A → result B) : result B :=
  match r with
  | Ok v => f v
  | Raise e => Raise e
  end.

Definition closed_file_error : py_exception :=
  Exc (str "ValueError") (str "I/O operation on closed file.").

Definition to_terminal (message : pystr) (lg : Logger) : Logger :=
  {| also_print := also_print lg; log_file := log_file lg; log_text := log_text lg;
     terminal := terminal lg ++ [message] |}.

Definition to_file (text : pystr) (lg : Logger) : Logger :=
  {| also_print := also_print lg; log_file := log_file lg;
     log_text := log_text lg ++ text; terminal := terminal lg |}.

(** [Logger.log] *)
Definition log (message : pystr) (lg : Logger) : result Logger :=
  and_then
    (match log_file lg with
     | NotOpened => Ok lg
     | Opened => Ok (to_file (message ++ [newline]) lg)
     | Closed => Raise closed_file_error
     end)
    (λ lg, Ok (if also_print lg then to_terminal message lg else lg)).

Definition started_at (now : pystr) : pystr :=
  str "SmugMug Download Log - Started at " ++ now.

Definition ended_at (now : pystr) : pystr := str "Log ended at " ++ now.

(** [Logger.__enter__]: [refused] is the exception [open] raises, if any;
    opening in mode ['w'] empties the file. *)
Definition Logger_enter (refused : option py_exception) (now : pystr) (lg : Logger)
    : result Logger :=
  match refused with
  | Some e => Raise e
  | None =>
      let lg := {| also_print := also_print lg; log_file := Opened; log_text := [];
                   terminal := terminal lg |} in
      and_then (log (started_at now) lg) (log (rule "="))
  end.

(** [Logger.__exit__] *)
Definition Logger_exit (now : pystr) (lg : Logger) : result Logger :=
  match log_file lg with
  | NotOpened => Ok lg
  | _ =>
      and_then (log (rule "=") lg) (λ lg,
      and_then (log (ended_at now) lg) (λ lg,
      Ok {| also_print := also_print lg; log_file := Closed; log_text := log_text lg;
            terminal := terminal lg |}))
  end.

(** The messages of a block, logged one after the other. *)
Fixpoint log_all (messages : list pystr) (lg : Logger) : result Logger :=
  match messages with
  | [] => Ok lg
  | message :: messages' => and_then (log message lg) (log_all messages')
  end.

(** [with Logger(...) as logger:] around a block that logs [messages]:
    [__exit__] runs when the block ends, whether it returns or raises, and
    lets an exception of the block through. *)
Definition with_Logger (refused : option py_exception) (started ended : pystr)
    (messages : list pystr) (lg : Logger) : result Logger :=
  and_then (Logger_enter refused started lg) (λ lg,
  and_then (log_all messages lg) (Logger_exit ended)).

(** The lines of a complete log. *)
Definition complete_log (started ended : pystr) (messages : list pystr) : list pystr :=
  [started_at started; rule "="] ++ messages ++ [rule "="; ended_at ended].

(** ** The single-album test script ([test_download.py])

    The script asks for a download location, looks for the first album of
    the account, asks for a confirmation and hands that one album to
    [process_album] of a downloader whose base path is the location. *)

(** How the script ends. *)
Inductive test_end :=
  | Completed (st : state)                    (* [main] returns *)
  | Exits (code : nat) (st : state)           (* [sys.exit(code)] *)
  | Crashes (e : py_exception) (st : state).  (* an exception nobody catches *)

Definition test_state (r : test_end) : state :=
  match r with
  | Completed st => st
  | Exits _ st => st
  | Crashes _ st => st
  end.

(** The exit status of the process. *)
Definition test_exit_status (r : test_end) : nat :=
  match r with
  | Completed _ => 0
  | Exits code _ => code
  | Crashes _ _ => 1
  end.

Section TestDownload.

Variable os_refuses : Path → option py_exception.

(** The second answer of the user, after [strip().lower()]. *)
Variable confirm : pystr.

(** The loop [for folder in folders:] and what follows it. A request that
    raises, or a body that does not decode, reaches the [except] clause of
    [main]; so does an exception of [process_album]. *)
Fixpoint first_album (download_path : Path) (folders : list folder) (st : state)
    : test_end :=
  match folders with
  | [] => Exits 1 st
  | Folder folder_name albums_data _ :: folders' =>
      let folder_name := get folder_name (str "Unnamed") in
      match albums_data with
      | None => first_album download_path folders' st
      | Some (RequestRaises _) => Exits 1 st
      | Some (Response status_code body) =>
          if decide (status_code = 200) then
            match body with
            | None => Exits 1 st
            | Some [] => first_album download_path folders' st
            | Some (album :: _) =>
                if decide (confirm ∈ [str "yes"; str "y"]) then
                  let folder_path := joinpath download_path folder_name in
                  match process_album download_path os_refuses album folder_path st with
                  | Throws _ st' => Exits 1 st'
                  | Returns _ st' => Completed st'
                  end
                else Exits 0 st
            end
          else first_album download_path folders' st
      end
  end.

(** [main] of the script: [download_path] is the first answer of the user
    after [strip()], [root] the answer to the request for the top-level
    folders. *)
Definition test_main (download_path : pystr) (root : http_result (list folder))
    (fs : FS) : test_end :=
  let default_path := str "./test-download" in
  let download_path := if decide (download_path = []) then default_path
                       else download_path in
  let download_path := parse_path download_path in
  match mkdir_parents download_path fs with
  | None => Crashes (Exc (str "FileExistsError") []) (initial_state fs)
  | Some fs =>
      let st := initial_state fs in
      match root with
      | RequestRaises _ => Exits 1 st
      | Response status_code body =>
          if decide (status_code ≠ 200) then Exits 1 st
          else
            match body with
            | None => Exits 1 st
            | Some folders => first_album download_path folders st
            end
      end
  end.

End TestDownload.

(** A folder without an album for the test script: no album listing, a
    status other than 200, or an empty list of albums. *)
Definition no_album (f : folder) : Prop :=
  match f with
  | Folder _ None _ => True
  | Folder _ (Some (Response status_code body)) _ =>
      status_code ≠ 200 ∨ body = Some []
  | Folder _ (Some (RequestRaises _)) _ => False
  end.

(** ** The album counter ([main.py], class [SmugMugCounter])

    The counter walks the same folder tree and adds up the image counts of
    the albums. What it prints is not modelled, the numbers are. *)

Module SmugMugCounter.

(** An entry of an album listing: its [ImageCount] ([None] when the field
    is absent or null), its [Uri], and the answer to the request for the
    album itself, whose body is the [ImageCount] found there ([Some None]
    for a null, 0 being the default of an absent field). *)
Record album := {
  ImageCount : option nat;
  Uri : option pystr;
  album_answer : http_result (option nat)
}.

Inductive node :=
  | Node (FolderAlbums : option (http_result (list album)))
         (Folders : option (http_result (list node))).

Record counter := {
  total_images : nat;
  total_albums : nat
}.

(** [get_image_count]: every failure is printed and gives 0. *)
Definition get_image_count (a : album) : option nat :=
  match album_answer a with
  | RequestRaises _ => Some 0
  | Response status_code body =>
      if decide (status_code = 200) then
        match body with
        | None => Some 0
        | Some image_count => image_count
        end
      else Some 0
  end.

(** [print_album]: adding a null count to [total_images] raises. *)
Definition print_album (a : album) (c : counter) : option (nat * counter) :=
  let count :=
    match ImageCount a with
    | Some count => Some count
    | None => if decide (get (Uri a) [] ≠ []) then get_image_count a else Some 0
    end in
  match count with
  | None => None
  | Some count =>
      Some (count, {| total_images := total_images c + count;
                      total_albums := S (total_albums c) |})
  end.

(** The loop [for album in albums:], inside the [try] of [process_node]:
    an album that raises ends the loop. *)
Fixpoint print_albums (albums : list album) (node_total : nat) (c : counter)
    : nat * counter :=
  match albums with
  | [] => (node_total, c)
  | a :: albums' =>
      match print_album a c with
      | None => (node_total, c)
      | Some (count, c') => print_albums albums' (node_total + count) c'
      end
  end.

Fixpoint process_node (n : node) (c : counter) {struct n} : nat * counter :=
  match n with
  | Node albums_data subfolders_data =>
      let node_total := 0 in
      let '(node_total, c) :=
        match albums_data with
        | Some (Response status_code (Some albums)) =>
            if decide (status_code = 200) then print_albums albums node_total c
            else (node_total, c)
        | _ => (node_total, c)
        end in
      match subfolders_data with
      | Some (Response status_code (Some folders)) =>
          if decide (status_code = 200) then
            (fix each (l : list node) (node_total : nat) (c : counter) : nat * counter :=
               match l with
               | [] => (node_total, c)
               | folder :: l' =>
                   let '(folder_count, c') := process_node folder c in
                   each l' (node_total + folder_count) c'
               end) folders node_total c
          else (node_total, c)
      | _ => (node_total, c)
      end
  end.

(** The loop [for folder in folders:] of [count_all]. *)
Fixpoint process_nodes (folders : list node) (c : counter) : counter :=
  match folders with
  | [] => c
  | folder :: folders' => process_nodes folders' (process_node folder c).2
  end.

(** [count_all]: the totals printed, or [None] when nothing is printed
    (the root request fails), and the exit status. *)
Definition count_all (root : http_result (list node)) : option counter * nat :=
  match root with
  | RequestRaises _ => (None, 1)
  | Response status_code body =>
      if decide (status_code ≠ 200) then (None, 0)
      else
        match body with
        | None => (None, 0)
        | Some folders =>
            (Some (process_nodes folders {| total_images := 0; total_albums := 0 |}), 0)
        end
  end.

(** The subtotal that [process_node] returns for a folder. *)
Definition subtotal (n : node) : nat :=
  (process_node n {| total_images := 0; total_albums := 0 |}).1.

End SmugMugCounter.

(** ** More sample data *)

(** A folder with one album, and a folder without an album listing. *)
Definition sample_folder : folder :=
  Folder (Some (str "F")) (Some (Response 200 (Some [sample_album]))) None.

Definition bare_folder : folder := Folder (Some (str "Empty")) None None.

(** An image that has a file name only. *)
Definition keyless_image (filename : string) : image :=
  {| ImageKey := None; FileName := Some (str filename); image_Uri := None;
     Title := None; Caption := None; image_Keywords := None;
     resolved_url := Some (str "https://photos.example/original");
     served := GetResponse 200 (str "jpeg bytes") None |}.

(** Size details that offer two of the listed sizes. *)
Definition sample_sizes : gmap pystr size_info :=
  {[ str "ImageSizeX3Large" := SizeObject (Some (str "https://photos.example/x3"));
     str "ImageSizeLarge" := SizeObject (Some (str "https://photos.example/l")) ]}.

Definition sample_sources : image_sources :=
  {| ImageSizeDetails := Some (UriString (str "/api/v2/image/x!sizedetails"));
     size_details := Response 200 (Some sample_sizes);
     ArchivedUri := Some (str "https://photos.example/archived");
     LargestImage := None; largest_image := Response 404 None;
     ImageDownload := None |}.

(** An image record without any source of a URL. *)
Definition no_sources : image_sources :=
  {| ImageSizeDetails := None; size_details := Response 404 None;
     ArchivedUri := None; LargestImage := None; largest_image := Response 404 None;
     ImageDownload := None |}.


(** * Properties *)

(** ** Strings *)

Lemma replace_chars_map (chars : pystr) (u : ascii) (s : pystr) :
  u ∉ chars →
  foldl (λ name char, replace_char char u name) s chars
  = (λ c, if decide (c ∈ chars) then u else c) <$> s.
Proof.
  revert s. induction chars as [|ch chars IH]; intros s Hu; simpl.
  - symmetry. etrans; [|apply list_fmap_id].
    apply list_fmap_ext. by intros _ c _.
  - rewrite IH by (intros ?; apply Hu; by right). unfold replace_char. rewrite <- list_fmap_compose.
    apply list_fmap_ext. intros _ c _. simpl.
    destruct (decide (c = ch)) as [->|Hne].
    + rewrite decide_False by (intros ?; apply Hu; by right).
      rewrite decide_True by (by left). done.
    + destruct (decide (c ∈ chars)) as [Hin|Hnin].
      * rewrite decide_True by (by right). done.
      * rewrite decide_False; [done|]. by intros [?|?]%elem_of_cons.
Qed.



Lemma lstrip_suffix chars s : lstrip chars s `suffix_of` s.
Proof.
  induction s as [|c s IH]; simpl; [done|].
  destruct (decide (c ∈ chars)); [by apply suffix_cons_r|done].
Qed.

Lemma lstrip_starts_ok chars s : starts_ok chars (lstrip chars s).
Proof.
  induction s as [|x s IH]; simpl; [by intros ?|].
  destruct (decide (x ∈ chars)); [done|]. by intros c [= <-].
Qed.

Lemma lstrip_id chars s : starts_ok chars s → lstrip chars s = s.
Proof.
  destruct s as [|x s]; simpl; [done|].
  intros H. rewrite decide_False; [done|]. by apply H.
Qed.

Lemma lstrip_all chars s : Forall (λ c, c ∈ chars) s → lstrip chars s = [].
Proof.
  induction 1 as [|x s Hx _ IH]; simpl; [done|]. by rewrite decide_True.
Qed.

Lemma rstrip_prefix chars s : rstrip chars s `prefix_of` s.
Proof.
  unfold rstrip. apply prefix_suffix_reverse. rewrite reverse_involutive.
  apply lstrip_suffix.
Qed.

Lemma rstrip_ends_ok chars s : ends_ok chars (rstrip chars s).
Proof.
  unfold rstrip, ends_ok. intros c. rewrite last_reverse. apply lstrip_starts_ok.
Qed.

Lemma rstrip_id chars s : ends_ok chars s → rstrip chars s = s.
Proof.
  intros H. unfold rstrip. rewrite lstrip_id; [apply reverse_involutive|].
  intros c. rewrite head_reverse. apply H.
Qed.

Lemma starts_ok_prefix chars p s : p `prefix_of` s → starts_ok chars s → starts_ok chars p.
Proof.
  intros [k ->] H c Hc. apply H. destruct p; simplify_eq/=. done.
Qed.

Lemma strip_starts_ok chars s : starts_ok chars (strip chars s).
Proof.
  unfold strip. eapply starts_ok_prefix; [apply rstrip_prefix|apply lstrip_starts_ok].
Qed.

Lemma strip_ends_ok chars s : ends_ok chars (strip chars s).
Proof. apply rstrip_ends_ok. Qed.

Lemma strip_id chars s : starts_ok chars s → ends_ok chars s → strip chars s = s.
Proof. intros H1 H2. unfold strip. rewrite lstrip_id by done. by apply rstrip_id. Qed.

Lemma strip_elem_of chars s c : c ∈ strip chars s → c ∈ s.
Proof.
  unfold strip. intros Hc.
  destruct (rstrip_prefix chars (lstrip chars s)) as [k Hk].
  destruct (lstrip_suffix chars s) as [k' Hk'].
  rewrite Hk', Hk. apply elem_of_app. right. apply elem_of_app. by left.
Qed.

Lemma strip_length chars s : length (strip chars s) ≤ length s.
Proof.
  unfold strip. etrans; [apply prefix_length, rstrip_prefix|].
  apply suffix_length, lstrip_suffix.
Qed.

Lemma strip_all chars s : Forall (λ c, c ∈ chars) s → strip chars s = [].
Proof. intros H. unfold strip. by rewrite lstrip_all. Qed.

(** ** [sanitize_filename] *)



Lemma sanitize_filename_unfold x :
  sanitize_filename x =
  let y := truncate (strip (str ". ") (replace_invalid x)) in
  if decide (y = []) then str "unnamed" else y.
Proof. reflexivity. Qed.

Lemma replace_invalid_map x :
  replace_invalid x = (λ c, if decide (c ∈ invalid_chars) then "_"%char else c) <$> x.
Proof. apply replace_chars_map. vm_compute. 
  intros H. repeat (apply elem_of_cons in H as [H|H]; [discriminate|]). by apply elem_of_nil in H. Qed.

Lemma replace_invalid_clean x c : c ∈ invalid_chars → c ∉ replace_invalid x.
Proof.
  intros Hc. rewrite replace_invalid_map. intros (y & Hy & _)%list_elem_of_fmap.
  destruct (decide (y ∈ invalid_chars)); subst; [|done].
  vm_compute in Hc.
  repeat (apply elem_of_cons in Hc as [Hc|Hc]; [discriminate|]). by apply elem_of_nil in Hc.
Qed.

Lemma replace_invalid_id x : (∀ c, c ∈ invalid_chars → c ∉ x) → replace_invalid x = x.
Proof.
  intros H. rewrite replace_invalid_map. etrans; [|apply list_fmap_id].
  apply list_fmap_ext. intros i c Hic. simpl.
  rewrite decide_False; [done|]. intros Hc. apply (H c Hc). by eapply list_elem_of_lookup_2.
Qed.

Lemma replace_invalid_length x : length (replace_invalid x) = length x.
Proof. rewrite replace_invalid_map. apply length_fmap. Qed.

Lemma truncate_length y : length (truncate y) ≤ 200.
Proof. unfold truncate. case_decide; [apply firstn_le_length|lia]. Qed.

Lemma truncate_id y : length y ≤ 200 → truncate y = y.
Proof. unfold truncate. intros H. rewrite decide_False; [done|lia]. Qed.

Lemma truncate_prefix y : truncate y `prefix_of` y.
Proof. unfold truncate. case_decide; [apply prefix_take|done]. Qed.

Lemma truncate_elem_of y c : c ∈ truncate y → c ∈ y.
Proof. destruct (truncate_prefix y) as [k Hk]. intros H. rewrite Hk. apply elem_of_app. by left. Qed.

(** A name that is already clean is left as it is. *)
Lemma sanitize_filename_fixed y :
  y ≠ [] → (∀ c, c ∈ invalid_chars → c ∉ y) →
  starts_ok (str ". ") y → ends_ok (str ". ") y → length y ≤ 200 →
  sanitize_filename y = y.
Proof.
  intros Hne Hclean Hs He Hlen. rewrite sanitize_filename_unfold. simpl.
  rewrite replace_invalid_id, strip_id, truncate_id by done.
  by rewrite decide_False.
Qed.

Lemma sanitize_filename_cases x :
  (truncate (strip (str ". ") (replace_invalid x)) = [] ∧ sanitize_filename x = str "unnamed")
  ∨ (truncate (strip (str ". ") (replace_invalid x)) ≠ [] ∧
     sanitize_filename x = truncate (strip (str ". ") (replace_invalid x))).
Proof.
  rewrite sanitize_filename_unfold. simpl. case_decide; [by left|by right].
Qed.

Lemma sanitize_filename_reserved x c : c ∈ invalid_chars → c ∉ sanitize_filename x.
Proof.
  intros Hc. destruct (sanitize_filename_cases x) as [[_ ->]|[_ ->]].
  - vm_compute in Hc. vm_compute. intros H.
    repeat (apply elem_of_cons in Hc as [Hc|Hc];
            [subst c; repeat (apply elem_of_cons in H as [H|H]; [discriminate|]);
             by apply elem_of_nil in H|]).
    by apply elem_of_nil in Hc.
  - intros H%truncate_elem_of%strip_elem_of. by eapply replace_invalid_clean.
Qed.

Lemma sanitize_filename_length x : length (sanitize_filename x) ≤ 200.
Proof.
  destruct (sanitize_filename_cases x) as [[_ ->]|[_ ->]].
  - vm_compute. lia.
  - apply truncate_length.
Qed.

Lemma sanitize_filename_blank x :
  Forall (λ c, c = "."%char ∨ c = " "%char) x → sanitize_filename x = str "unnamed".
Proof.
  intros H. destruct (sanitize_filename_cases x) as [[_ ->]|[Hne _]]; [done|].
  exfalso. apply Hne. rewrite replace_invalid_id.
  - rewrite strip_all; [done|]. eapply Forall_impl; [exact H|].
    intros c [->| ->]; vm_compute; [left|right; left].
  - intros c Hc Hx. rewrite Forall_forall in H. destruct (H c Hx) as [->| ->];
      vm_compute in Hc;
      repeat (apply elem_of_cons in Hc as [Hc|Hc]; [discriminate|]); by apply elem_of_nil in Hc.
Qed.

Lemma sanitize_filename_starts_ok x : starts_ok (str ". ") (sanitize_filename x).
Proof.
  destruct (sanitize_filename_cases x) as [[_ ->]|[_ ->]].
  - intros c [= <-]. vm_compute. intros H.
    repeat (apply elem_of_cons in H as [H|H]; [discriminate|]). by apply elem_of_nil in H.
  - eapply starts_ok_prefix; [apply truncate_prefix|apply strip_starts_ok].
Qed.

Lemma sanitize_filename_nonempty x : sanitize_filename x ≠ [].
Proof.
  destruct (sanitize_filename_cases x) as [[_ ->]|[? ->]]; done.
Qed.

(** A second pass changes nothing when the first result does not end in a
    dot or a space. *)
Lemma sanitize_filename_idem_ends x :
  ends_ok (str ". ") (sanitize_filename x) →
  sanitize_filename (sanitize_filename x) = sanitize_filename x.
Proof.
  intros He. apply sanitize_filename_fixed; auto using sanitize_filename_nonempty,
    sanitize_filename_starts_ok, sanitize_filename_length.
  intros c. apply sanitize_filename_reserved.
Qed.

Lemma sanitize_filename_short_ends x :
  length x ≤ 200 → ends_ok (str ". ") (sanitize_filename x).
Proof.
  intros Hlen. destruct (sanitize_filename_cases x) as [[_ ->]|[_ ->]].
  - intros c [= <-]. vm_compute. intros H.
    repeat (apply elem_of_cons in H as [H|H]; [discriminate|]). by apply elem_of_nil in H.
  - rewrite truncate_id; [apply strip_ends_ok|].
    etrans; [apply strip_length|]. by rewrite replace_invalid_length.
Qed.

Lemma str_inj s1 s2 : str s1 = str s2 → s1 = s2.
Proof.
  unfold str. intros H. rewrite <- (string_of_list_ascii_of_string s1), H.
  apply string_of_list_ascii_of_string.
Qed.

Lemma repr_nat_inj n m : repr_nat n = repr_nat m → n = m.
Proof.
  unfold repr_nat. intros H%str_inj.
  assert (Some (Nat.to_uint n) = Some (Nat.to_uint m)) as [= Hu].
  { rewrite <- !NilEmpty.usu. by rewrite H. }
  rewrite <- (Unsigned.of_to n), Hu. apply Unsigned.of_to.
Qed.

Lemma numbered_inj base_name extension n m :
  numbered base_name n extension = numbered base_name m extension → n = m.
Proof.
  unfold numbered. intros H. apply app_inv_head in H. apply app_inv_head in H.
  apply app_inv_tail in H. by apply repr_nat_inj.
Qed.

(** ** The counting loop *)

Lemma count_up_least taken fuel start :
  (∃ k, start ≤ k < start + fuel ∧ taken k = false) →
  taken (count_up taken fuel start) = false ∧
  start ≤ count_up taken fuel start ∧
  ∀ j, start ≤ j < count_up taken fuel start → taken j = true.
Proof.
  revert start. induction fuel as [|fuel IH]; intros start (k & Hk & Hfree).
  - lia.
  - simpl. destruct (taken start) eqn:Hs.
    + destruct (IH (S start)) as (H1 & H2 & H3).
      { exists k. split; [|done]. destruct (decide (k = start)) as [->|]; [congruence|lia]. }
      split; [done|]. split; [lia|]. intros j Hj.
      destruct (decide (j = start)) as [->|]; [done|]. apply H3. lia.
    + split; [done|]. split; [lia|]. intros j Hj. lia.
Qed.

(** Among [S (size m)] keys that differ from one another, one is not bound
    in the map [m]. *)
Lemma fresh_key_within `{Countable K} {V} (m : gmap K V) (f : nat → K) (start : nat) :
  (∀ i j, f i = f j → i = j) →
  ∃ k, start ≤ k < start + S (size m) ∧ m !! f k = None.
Proof.
  intros Hinj.
  destruct (decide (Exists (λ k, m !! f k = None) (seq start (S (size m))))) as [Hex|Hno].
  - apply Exists_exists in Hex as (k & Hk & Hfree). exists k. split; [|done].
    apply elem_of_seq in Hk. lia.
  - exfalso. apply not_Exists_Forall in Hno; [|intros ?; apply _].
    assert (list_to_set (f <$> seq start (S (size m))) ⊆ dom m) as Hsub.
    { intros x (k & -> & Hk)%elem_of_list_to_set%list_elem_of_fmap.
      rewrite Forall_forall in Hno. specialize (Hno k Hk). simpl in Hno.
      apply elem_of_dom. by destruct (m !! f k); [eexists|]. }
    apply subseteq_size in Hsub. rewrite size_dom in Hsub.
    rewrite size_list_to_set in Hsub.
    + rewrite length_fmap, length_seq in Hsub. lia.
    + apply NoDup_fmap_2_strong; [|apply NoDup_seq]. intros ????. apply Hinj.
Qed.

(** ** The plan of an album *)

Lemma rename_collision_spec (used : gmap pystr pystr) original :
  ∃ n, 2 ≤ n ∧
    rename_collision used original
    = numbered (stem (parse_path original)) n (suffix (parse_path original)) ∧
    used !! rename_collision used original = None ∧
    ∀ m, 2 ≤ m < n →
      is_Some (used !! numbered (stem (parse_path original)) m (suffix (parse_path original))).
Proof.
  unfold rename_collision.
  set (base_name := stem (parse_path original)).
  set (extension := suffix (parse_path original)).
  set (taken := λ counter, bool_decide (is_Some (used !! numbered base_name counter extension))).
  destruct (count_up_least taken (S (size used)) 2) as (Hfree & Hge & Hmin).
  { destruct (fresh_key_within used (λ k, numbered base_name k extension) 2) as (k & Hk & Hnone).
    { intros i j. apply numbered_inj. }
    exists k. split; [done|]. unfold taken. apply bool_decide_eq_false.
    rewrite Hnone. by intros [? ?]. }
  exists (count_up taken (S (size used)) 2). split; [done|]. split; [done|]. split.
  - unfold taken in Hfree at 1. apply bool_decide_eq_false in Hfree.
    by apply eq_None_not_Some.
  - intros m Hm. specialize (Hmin m Hm). unfold taken in Hmin.
    by apply bool_decide_eq_true in Hmin.
Qed.

Lemma plan_images_app album_name idx pre rest acc :
  plan_images album_name idx (pre ++ rest) acc
  = plan_images album_name (idx + length pre) rest (plan_images album_name idx pre acc).
Proof.
  revert idx acc. induction pre as [|img pre IH]; intros idx acc; simpl.
  - by rewrite Nat.add_0_r.
  - rewrite IH. f_equal. lia.
Qed.

Lemma plan_images_snoc album_name pre img acc :
  plan_images album_name 0 (pre ++ [img]) acc
  = plan_image album_name (length pre) img (plan_images album_name 0 pre acc).
Proof. by rewrite plan_images_app. Qed.


Lemma identity_keys_snoc pre img :
  identity_keys (pre ++ [img]) = identity_keys pre ++ [unique_id (length pre) img].
Proof.
  unfold identity_keys. rewrite imap_app. simpl. by rewrite Nat.add_0_r.
Qed.


Lemma plan_inv_empty : plan_inv [] empty_planning.
Proof. split; simpl; [apply dom_empty_L|apply dom_empty_L|constructor]. Qed.

Lemma plan_image_inv album_name pre img pl st :
  plan_inv pre pl →
  plan_inv (pre ++ [img]) (plan_image album_name (length pre) img (pl, st)).1.
Proof.
  intros [Hseen Hused Hnd]. unfold plan_image.
  destruct (seen_image_keys pl !! unique_id (length pre) img) as [orig|] eqn:Hs; simpl.
  - split; [|done|done]. rewrite identity_keys_snoc, list_to_set_app_L, <- Hseen.
    assert (unique_id (length pre) img ∈ dom (seen_image_keys pl)) as Hin
      by (apply elem_of_dom; eauto).
    apply set_eq. intros k.
    rewrite elem_of_union, elem_of_list_to_set, list_elem_of_singleton.
    split; [by left|]. by intros [?| ->].
  - assert (∀ final, used_filenames pl !! final = None →
      plan_inv (pre ++ [img])
        {| seen_image_keys := <[unique_id (length pre) img := original_filename (length pre) img]> (seen_image_keys pl);
           used_filenames := <[final := unique_id (length pre) img]> (used_filenames pl);
           processed_images := processed_images pl ++ [(img, final)] |}) as Hstep.
    { intros final Hfree. split; simpl.
      - rewrite dom_insert_L, identity_keys_snoc, list_to_set_app_L, Hseen.
        apply set_eq. intros k.
        rewrite !elem_of_union, elem_of_singleton, !elem_of_list_to_set,
          list_elem_of_singleton. tauto.
      - rewrite dom_insert_L, fmap_app, list_to_set_app_L, Hused.
        apply set_eq. intros k.
        rewrite !elem_of_union, elem_of_singleton, !elem_of_list_to_set. simpl.
        rewrite list_elem_of_singleton. tauto.
      - rewrite fmap_app. apply NoDup_app. split; [done|]. split; [|apply NoDup_singleton].
        intros x Hx [->|[]%elem_of_nil]%elem_of_cons.
        apply not_elem_of_dom in Hfree. apply Hfree. rewrite Hused. by apply elem_of_list_to_set. }
    destruct (used_filenames pl !! original_filename (length pre) img) eqn:Hu; simpl.
    + apply Hstep. by destruct (rename_collision_spec (used_filenames pl) (original_filename (length pre) img)) as (? & ? & ? & ? & ?).
    + by apply Hstep.
Qed.

Lemma plan_images_inv album_name images st :
  plan_inv images (plan_images album_name 0 images (empty_planning, st)).1.
Proof.
  induction images as [|img pre IH] using rev_ind.
  - apply plan_inv_empty.
  - rewrite plan_images_snoc.
    destruct (plan_images album_name 0 pre (empty_planning, st)) as [pl st'].
    by apply plan_image_inv.
Qed.

Lemma plan_album_eq album_name images st :
  plan_album album_name images st
  = (processed_images (plan_images album_name 0 images (empty_planning, st)).1,
     (plan_images album_name 0 images (empty_planning, st)).2).
Proof. unfold plan_album. by destruct (plan_images _ _ _ _). Qed.

(** Claim C1. For every sequence of images of an album, the file names of
    the plan built by the planning loop of [process_album] are pairwise
    distinct. *)
Theorem plan_filenames_distinct (album_name : pystr) (images : list image) (st : state) :
  NoDup (plan_album album_name images st).1.*2.
Proof. rewrite plan_album_eq. apply plan_images_inv. Qed.

(** ** Identity keys: first occurrences and repeats *)





Lemma is_first_occurrence_app_l ids k i :
  i < length ids → is_first_occurrence (ids ++ [k]) i = is_first_occurrence ids i.
Proof.
  intros Hi. unfold is_first_occurrence.
  rewrite lookup_app_l by done. rewrite take_app_le by lia. done.
Qed.

Lemma is_first_occurrence_last ids k :
  is_first_occurrence (ids ++ [k]) (length ids) = bool_decide (k ∉ ids).
Proof.
  unfold is_first_occurrence. rewrite list_lookup_middle by done.
  rewrite take_app_length. done.
Qed.

Lemma filter_ext_elem_of {A} (P Q : A → Prop) `{∀ x, Decision (P x)} `{∀ x, Decision (Q x)}
    (l : list A) :
  (∀ x, x ∈ l → P x ↔ Q x) → filter P l = filter Q l.
Proof.
  induction l as [|x l IH]; intros HPQ; [done|].
  rewrite !filter_cons. rewrite IH by (intros y Hy; apply HPQ; by right).
  destruct (decide (P x)) as [HP|HP], (decide (Q x)) as [HQ|HQ]; try done;
    exfalso; apply (HPQ x) in HP || apply (HPQ x) in HQ; try done; by left.
Qed.

Lemma filter_seq_ext (P Q : nat → Prop) `{∀ i, Decision (P i)} `{∀ i, Decision (Q i)} n :
  (∀ i, i < n → P i ↔ Q i) → filter P (seq 0 n) = filter Q (seq 0 n).
Proof.
  intros HPQ. apply filter_ext_elem_of. intros i Hi%elem_of_seq. apply HPQ. lia.
Qed.

Lemma first_positions_snoc ids k :
  first_positions (ids ++ [k])
  = first_positions ids ++ (if decide (k ∈ ids) then [] else [length ids]).
Proof.
  unfold first_positions. rewrite length_app. simpl. rewrite Nat.add_1_r, seq_S.
  rewrite filter_app. f_equal.
  - apply filter_seq_ext. intros i Hi. by rewrite is_first_occurrence_app_l.
  - simpl. rewrite filter_cons, filter_nil, is_first_occurrence_last.
    destruct (decide (k ∈ ids)).
    + rewrite decide_False; [done|]. rewrite bool_decide_eq_false_2; [by intros []|by intros ?].
    + rewrite decide_True; [done|]. by rewrite bool_decide_eq_true_2.
Qed.

Lemma repeat_positions_snoc ids k :
  repeat_positions (ids ++ [k])
  = repeat_positions ids ++ (if decide (k ∈ ids) then [length ids] else []).
Proof.
  unfold repeat_positions. rewrite length_app. simpl. rewrite Nat.add_1_r, seq_S.
  rewrite filter_app. f_equal.
  - apply filter_seq_ext. intros i Hi. by rewrite is_first_occurrence_app_l.
  - simpl. rewrite filter_cons, filter_nil, is_first_occurrence_last.
    destruct (decide (k ∈ ids)).
    + rewrite decide_True; [done|]. rewrite bool_decide_eq_false_2; [by intros []|by intros ?].
    + rewrite decide_False; [done|]. rewrite bool_decide_eq_true_2 by done. by intros H; apply H.
Qed.

Lemma first_positions_bound ids : Forall (λ i, i < length ids) (first_positions ids).
Proof.
  apply Forall_forall. intros i [_ Hi%elem_of_seq]%list_elem_of_filter. lia.
Qed.

Lemma repeat_positions_bound ids : Forall (λ i, i < length ids) (repeat_positions ids).
Proof.
  apply Forall_forall. intros i [_ Hi%elem_of_seq]%list_elem_of_filter. lia.
Qed.


Lemma length_identity_keys images : length (identity_keys images) = length images.
Proof. apply length_imap. Qed.

Lemma omap_bind_snoc {A B} (g : nat → A → option B) (pre : list A) (x : A) (l : list nat) :
  Forall (λ i, i < length pre) l →
  omap (λ i, (pre ++ [x]) !! i ≫= g i) l = omap (λ i, pre !! i ≫= g i) l.
Proof.
  induction 1 as [|i l Hi _ IH]; csimpl; [done|].
  rewrite lookup_app_l by done. by rewrite IH.
Qed.

Lemma omap_lookup_snoc {A} (pre : list A) (x : A) (l : list nat) :
  Forall (λ i, i < length pre) l →
  omap (λ i, (pre ++ [x]) !! i) l = omap (λ i, pre !! i) l.
Proof.
  induction 1 as [|i l Hi _ IH]; csimpl; [done|].
  rewrite lookup_app_l by done. by rewrite IH.
Qed.


Lemma plan_image_step album_name idx img pl st :
  plan_step album_name idx img pl st (plan_image album_name idx img (pl, st)).
Proof.
  unfold plan_image.
  destruct (seen_image_keys pl !! unique_id idx img) eqn:Hs.
  - by apply step_duplicate.
  - destruct (used_filenames pl !! original_filename idx img) eqn:Hu.
    + by eapply step_rename.
    + by apply step_keep.
Qed.

Lemma seen_iff_identity pre pl k :
  plan_inv pre pl → is_Some (seen_image_keys pl !! k) ↔ k ∈ identity_keys pre.
Proof.
  intros [Hseen _ _]. rewrite <- elem_of_dom, Hseen. apply elem_of_list_to_set.
Qed.

Lemma used_iff_planned pre pl f :
  plan_inv pre pl → is_Some (used_filenames pl !! f) ↔ f ∈ (processed_images pl).*2.
Proof.
  intros [_ Hused _]. rewrite <- elem_of_dom, Hused. apply elem_of_list_to_set.
Qed.



Lemma duplicate_event_snoc album_name pre img l :
  Forall (λ i, i < length pre) l →
  omap (duplicate_event album_name (pre ++ [img])) l = omap (duplicate_event album_name pre) l.
Proof. apply (omap_bind_snoc (λ i img, Some (unique_id i img, original_filename i img, album_name))). Qed.

Lemma plan_images_log album_name images st :
  plan_log album_name images st
    (plan_images album_name 0 images (empty_planning, st)).1
    (plan_images album_name 0 images (empty_planning, st)).2.
Proof.
  induction images as [|img pre IH] using rev_ind.
  - split; simpl; [done| |done]. exists []. by rewrite app_nil_r.
  - rewrite plan_images_snoc.
    pose proof (plan_images_inv album_name pre st) as Hinv.
    destruct (plan_images album_name 0 pre (empty_planning, st)) as [pl st'].
    simpl in IH, Hinv. destruct IH as [Himg (evs & Hevs & Hfields) Hcount].
    pose proof (first_positions_bound (identity_keys pre)) as Hfb.
    pose proof (repeat_positions_bound (identity_keys pre)) as Hrb.
    rewrite length_identity_keys in Hfb, Hrb.
    destruct (plan_image_step album_name (length pre) img pl st') as [orig Hs|Hs Hu|other Hs Hu].
    + assert (unique_id (length pre) img ∈ identity_keys pre) as Hin
        by (eapply seen_iff_identity; eauto).
      split; simpl; rewrite ?identity_keys_snoc.
      * rewrite first_positions_snoc, decide_True, app_nil_r by done.
        by rewrite omap_lookup_snoc.
      * eexists (evs ++ [_]). rewrite Hevs, app_assoc. split; [done|].
        rewrite repeat_positions_snoc, decide_True by done.
        rewrite omap_app, duplicate_event_snoc, fmap_app, Hfields by done. f_equal.
        csimpl. unfold duplicate_event. rewrite length_identity_keys.
        by rewrite list_lookup_middle.
      * rewrite repeat_positions_snoc, decide_True, length_app by done. simpl. lia.
    + assert (unique_id (length pre) img ∉ identity_keys pre) as Hin.
      { intros Hin. eapply seen_iff_identity in Hin; [|done]. rewrite Hs in Hin. by destruct Hin. }
      split; simpl; rewrite ?identity_keys_snoc.
      * rewrite first_positions_snoc, decide_False by done.
        rewrite fmap_app, omap_app, omap_lookup_snoc, Himg by done. f_equal.
        csimpl. rewrite length_identity_keys. by rewrite list_lookup_middle.
      * exists evs. split; [done|].
        rewrite repeat_positions_snoc, decide_False, app_nil_r by done.
        by rewrite duplicate_event_snoc.
      * rewrite repeat_positions_snoc, decide_False, app_nil_r by done. done.
    + assert (unique_id (length pre) img ∉ identity_keys pre) as Hin.
      { intros Hin. eapply seen_iff_identity in Hin; [|done]. rewrite Hs in Hin. by destruct Hin. }
      split; simpl; rewrite ?identity_keys_snoc.
      * rewrite first_positions_snoc, decide_False by done.
        rewrite fmap_app, omap_app, omap_lookup_snoc, Himg by done. f_equal.
        csimpl. rewrite length_identity_keys. by rewrite list_lookup_middle.
      * exists evs. split; [done|].
        rewrite repeat_positions_snoc, decide_False, app_nil_r by done.
        by rewrite duplicate_event_snoc.
      * rewrite repeat_positions_snoc, decide_False, app_nil_r by done. done.
Qed.








(** Claim C3, as amended. Planning one more image [img] after the images
    [pre] leaves the entries already planned as they are. When the identity
    key of [img] is new, [img] keeps its file name exactly when that name is
    not yet the file name of a plan entry; otherwise it gets the numbered
    name [stem_n + extension] for the least [n] from 2 whose name is not
    used by the plan, with one rename event. In particular [a.jpg] (key K1)
    then [a.jpg] (key K2) give two entries, the second named [a_2.jpg], and
    one rename event. *)
Theorem collision_renaming (album_name : pystr) (pre : list image) (img : image) (st : state) :
  let before := plan_album album_name pre st in
  let after := plan_album album_name (pre ++ [img]) st in
  let uid := unique_id (length pre) img in
  let original := original_filename (length pre) img in
  let base_name := stem (parse_path original) in
  let extension := suffix (parse_path original) in
  (uid ∈ identity_keys pre →
     after.1 = before.1 ∧
     renamed_files after.2 = renamed_files before.2 ∧
     total_renamed after.2 = total_renamed before.2) ∧
  (uid ∉ identity_keys pre → original ∉ before.1.*2 →
     after.1 = before.1 ++ [(img, original)] ∧
     renamed_files after.2 = renamed_files before.2 ∧
     total_renamed after.2 = total_renamed before.2) ∧
  (uid ∉ identity_keys pre → original ∈ before.1.*2 →
     ∃ n, 2 ≤ n ∧
       after.1 = before.1 ++ [(img, numbered base_name n extension)] ∧
       (numbered base_name n extension ∉ before.1.*2) ∧
       (∀ m, 2 ≤ m < n → numbered base_name m extension ∈ before.1.*2) ∧
       renamed_files after.2
       = renamed_files before.2 ++ [(original, numbered base_name n extension, album_name)] ∧
       total_renamed after.2 = S (total_renamed before.2)) ∧
  (∀ img2 K1 K2,
     pre = [img2] → K1 ≠ [] → K2 ≠ [] → K1 ≠ K2 →
     ImageKey img2 = Some K1 → ImageKey img = Some K2 →
     FileName img2 = Some (str "a.jpg") → FileName img = Some (str "a.jpg") →
     after.1 = [(img2, str "a.jpg"); (img, str "a_2.jpg")] ∧
     renamed_files after.2 = renamed_files st ++ [(str "a.jpg", str "a_2.jpg", album_name)] ∧
     total_renamed after.2 = S (total_renamed st)).
Proof.
  intros before after uid original base_name extension.
  assert (uid ∈ identity_keys pre →
     after.1 = before.1 ∧
     renamed_files after.2 = renamed_files before.2 ∧
     total_renamed after.2 = total_renamed before.2) as Hdup.
  { subst before after. rewrite !plan_album_eq, plan_images_snoc. cbn [fst snd].
    pose proof (plan_images_inv album_name pre st) as Hinv.
    destruct (plan_images album_name 0 pre (empty_planning, st)) as [pl st1]. cbn [fst snd] in *.
    intros Hin. eapply seen_iff_identity in Hin; [|done].
    destruct (plan_image_step album_name (length pre) img pl st1) as [orig Hs|Hs Hu|other Hs Hu];
      [by repeat split| |]; fold uid in Hs; rewrite Hs in Hin; by destruct Hin. }
  assert (uid ∉ identity_keys pre → original ∉ before.1.*2 →
     after.1 = before.1 ++ [(img, original)] ∧
     renamed_files after.2 = renamed_files before.2 ∧
     total_renamed after.2 = total_renamed before.2) as Hkeep.
  { subst before after. rewrite !plan_album_eq, plan_images_snoc. cbn [fst snd].
    pose proof (plan_images_inv album_name pre st) as Hinv.
    destruct (plan_images album_name 0 pre (empty_planning, st)) as [pl st1]. cbn [fst snd] in *.
    intros Hnin Hfree.
    destruct (plan_image_step album_name (length pre) img pl st1) as [orig Hs|Hs Hu|other Hs Hu].
    - exfalso. apply Hnin. eapply seen_iff_identity; eauto.
    - by repeat split.
    - exfalso. apply Hfree. eapply used_iff_planned; eauto. }
  assert (uid ∉ identity_keys pre → original ∈ before.1.*2 →
     ∃ n, 2 ≤ n ∧
       after.1 = before.1 ++ [(img, numbered base_name n extension)] ∧
       (numbered base_name n extension ∉ before.1.*2) ∧
       (∀ m, 2 ≤ m < n → numbered base_name m extension ∈ before.1.*2) ∧
       renamed_files after.2
       = renamed_files before.2 ++ [(original, numbered base_name n extension, album_name)] ∧
       total_renamed after.2 = S (total_renamed before.2)) as Hrename.
  { subst before after. rewrite !plan_album_eq, plan_images_snoc. cbn [fst snd].
    pose proof (plan_images_inv album_name pre st) as Hinv.
    destruct (plan_images album_name 0 pre (empty_planning, st)) as [pl st1]. cbn [fst snd] in *.
    intros Hnin Hused.
    destruct (plan_image_step album_name (length pre) img pl st1) as [orig Hs|Hs Hu|other Hs Hu].
    - exfalso. apply Hnin. eapply seen_iff_identity; eauto.
    - exfalso. eapply used_iff_planned in Hused; [|done].
      fold original in Hu. rewrite Hu in Hused. by destruct Hused.
    - destruct (rename_collision_spec (used_filenames pl) original) as (n & Hn & Heq & Hfree & Hmin).
      fold original. fold base_name extension in Heq, Hmin. rewrite Heq in *.
      exists n. split; [done|]. split; [done|]. split.
      { intros Hin. eapply used_iff_planned in Hin; [|done]. rewrite Hfree in Hin. by destruct Hin. }
      split; [|done]. intros m Hm. eapply used_iff_planned; eauto. }
  split; [done|]. split; [done|]. split; [done|].
  intros img2 K1 K2 -> HK1 HK2 Hne H1 H2 Hf1 Hf2.
  assert (unique_id 0 img2 = K1) as Hid1.
  { unfold unique_id, get. rewrite H1. simpl. by rewrite decide_False. }
  assert (uid = K2) as Hid2.
  { subst uid. unfold unique_id, get. rewrite H2. simpl. by rewrite decide_False. }
  assert (original_filename 0 img2 = str "a.jpg") as Ho1.
  { unfold original_filename, get. by rewrite Hf1. }
  assert (original = str "a.jpg") as Ho2.
  { subst original. unfold original_filename, get. by rewrite Hf2. }
  assert (before = ([(img2, str "a.jpg")], st)) as Hbefore.
  { subst before. unfold plan_album. simpl. unfold plan_image. simpl.
    rewrite lookup_empty, lookup_empty. simpl. by rewrite Ho1. }
  rewrite Hbefore in Hrename. simpl in Hrename.
  destruct Hrename as (n & Hn & Hafter & Hfree & Hmin & Hlog & Hcount).
  { rewrite Hid2. unfold identity_keys. simpl. rewrite Hid1.
    intros [?|[]%elem_of_nil]%elem_of_cons. done. }
  { rewrite Ho2. by left. }
  assert (n = 2) as ->.
  { destruct (decide (n = 2)) as [|Hn2]; [done|]. exfalso.
    specialize (Hmin 2 ltac:(lia)). subst base_name extension. rewrite Ho2 in Hmin.
    vm_compute in Hmin. apply elem_of_cons in Hmin as [Hmin|[]%elem_of_nil]. discriminate. }
  subst base_name extension. rewrite Ho2 in *.
  split; [exact Hafter|]. split; [exact Hlog|exact Hcount].
Qed.

(** A decidable closed proposition, by evaluation. *)
Ltac by_compute := apply (bool_decide_unpack _); vm_compute; exact I.

(** ** Paths *)


Lemma string_of_uint_no_slash d : slash ∉ str (NilEmpty.string_of_uint d).
Proof.
  induction d; simpl; [apply not_elem_of_nil|..];
    (intros [Hc|Hc]%elem_of_cons; [discriminate|done]).
Qed.

Lemma repr_nat_no_slash n : slash ∉ repr_nat n.
Proof. apply string_of_uint_no_slash. Qed.

Lemma split_on_plain x : slash ∉ x → split_on slash x = [x].
Proof.
  induction x as [|c x IH]; intros Hx; simpl; [done|].
  rewrite decide_False by (intros ->; apply Hx; by left).
  rewrite IH; [done|]. intros ?. apply Hx. by right.
Qed.

Lemma split_on_no_sep sep s : Forall (λ w, sep ∉ w) (split_on sep s).
Proof.
  induction s as [|c s IH]; simpl.
  - constructor; [apply not_elem_of_nil|constructor].
  - destruct (decide (c = sep)) as [->|Hne].
    + constructor; [apply not_elem_of_nil|done].
    + destruct (split_on sep s) as [|w ws]; [repeat constructor|].
      * by intros [?|[]%elem_of_nil]%elem_of_cons.
      * inversion IH; subst. constructor; [|done].
        by intros [?|?]%elem_of_cons.
Qed.

Lemma splitroot_plain x : slash ∉ x → splitroot x = ([], x).
Proof.
  intros Hx. unfold splitroot, starts_with.
  destruct x as [|c x]; [done|].
  assert (c ≠ slash) as Hc by (intros ->; apply Hx; by left).
  simpl. rewrite !bool_decide_eq_false_2; [done|..]; intros [=]; done.
Qed.

Lemma parse_path_plain x :
  slash ∉ x → x ≠ [] → x ≠ str "." → parse_path x = [x].
Proof.
  intros Hx Hne Hdot. unfold parse_path. rewrite splitroot_plain by done.
  rewrite decide_True by done. fold slash. rewrite split_on_plain by done.
  simpl. rewrite filter_cons, decide_True by done. done.
Qed.

Lemma is_root_slash part : is_root part = true → slash ∈ part.
Proof.
  unfold is_root. intros [->| ->]%bool_decide_eq_true; by left.
Qed.

Lemma is_root_plain x : slash ∉ x → is_root x = false.
Proof.
  intros Hx. destruct (is_root x) eqn:H; [|done]. by apply is_root_slash in H.
Qed.

Lemma joinpath_plain p x :
  slash ∉ x → x ≠ [] → x ≠ str "." → joinpath p x = p ++ [x].
Proof.
  intros Hx Hne Hdot. unfold joinpath. rewrite parse_path_plain by done.
  simpl. by rewrite is_root_plain.
Qed.

Lemma splitroot_root s : (splitroot s).1 = [] ∨ is_root (splitroot s).1 = true.
Proof.
  unfold splitroot. repeat case_match; simpl; auto.
Qed.

(** The name of a parsed path has no slash. *)
Lemma name_parts_no_slash (p : Path) : Forall (λ w, is_root w = true ∨ slash ∉ w) p → slash ∉ name p.
Proof.
  intros H. unfold name. destruct (last p) as [part|] eqn:Hl; [|apply not_elem_of_nil].
  destruct (is_root part) eqn:Hr; [apply not_elem_of_nil|].
  apply last_Some_elem_of in Hl. rewrite Forall_forall in H.
  destruct (H part Hl) as [?|?]; [congruence|done].
Qed.

Lemma parse_path_parts s : Forall (λ w, is_root w = true ∨ slash ∉ w) (parse_path s).
Proof.
  unfold parse_path. destruct (splitroot s) as [root rel] eqn:Hs.
  apply Forall_app. split.
  - case_decide; [constructor|]. constructor; [|constructor].
    destruct (splitroot_root s) as [H'|H']; rewrite Hs in H'; simpl in H'; [done|by left].
  - apply Forall_forall. intros w [_ Hw]%list_elem_of_filter.
    right. revert w Hw. apply Forall_forall, split_on_no_sep.
Qed.

Lemma name_parse_no_slash s : slash ∉ name (parse_path s).
Proof. apply name_parts_no_slash, parse_path_parts. Qed.

Lemma stem_of_subset x c : c ∈ stem_of x → c ∈ x.
Proof.
  unfold stem_of. repeat case_match; try done. intros (i & Hi & _)%elem_of_take.
  by eapply list_elem_of_lookup_2.
Qed.

Lemma suffix_of_subset x c : c ∈ suffix_of x → c ∈ x.
Proof.
  unfold suffix_of. repeat case_match; try (by intros []%elem_of_nil).
  intros (i & Hi)%list_elem_of_lookup_1. rewrite lookup_drop in Hi.
  by eapply list_elem_of_lookup_2.
Qed.

Lemma numbered_no_slash b n e : slash ∉ b → slash ∉ e → slash ∉ numbered b n e.
Proof.
  intros Hb He. unfold numbered. rewrite !elem_of_app.
  intros [?|[H|[H|?]]]; try done.
  - apply elem_of_cons in H as [?|[]%elem_of_nil]. discriminate.
  - by apply repr_nat_no_slash in H.
Qed.

Lemma numbered_nonempty b n e : numbered b n e ≠ [] ∧ numbered b n e ≠ str ".".
Proof.
  unfold numbered. split.
  - intros H. apply (f_equal length) in H. rewrite !length_app in H. simpl in H. lia.
  - destruct b as [|c [|c' b]]; simpl; discriminate.
Qed.

(** The numbered variants of the name of a path are single parts. *)
Lemma joinpath_numbered dir filename n :
  let base_name := stem (parse_path filename) in
  let extension := suffix (parse_path filename) in
  joinpath dir (numbered base_name n extension) = dir ++ [numbered base_name n extension].
Proof.
  intros base_name extension.
  destruct (numbered_nonempty base_name n extension) as [Hne Hdot].
  apply joinpath_plain; [|done|done].
  apply numbered_no_slash.
  - intros Hs%stem_of_subset. by apply name_parse_no_slash in Hs.
  - intros Hs%suffix_of_subset. by apply name_parse_no_slash in Hs.
Qed.

(** ** The disk *)


Lemma exists_true fs p : exists_ fs p = true ↔ is_Some (fs !! p).
Proof. apply bool_decide_eq_true. Qed.

Lemma exists_false fs p : exists_ fs p = false ↔ fs !! p = None.
Proof.
  unfold exists_. rewrite bool_decide_eq_false. symmetry. apply eq_None_not_Some.
Qed.

Lemma mkdir_rev_spec (rp : Path) (fs fs' : FS) :
  mkdir_rev rp fs = Some fs' →
  (∀ p n, fs !! p = Some n → fs' !! p = Some n) ∧
  (∀ p n, fs' !! p = Some n →
     fs !! p = Some n ∨ (fs !! p = None ∧ n = Dir ∧ p `prefix_of` reverse rp)) ∧
  (rp ≠ [] → fs' !! reverse rp = Some Dir).
Proof.
  revert fs'. induction rp as [|x rp IH]; intros fs' Hm; simpl in Hm.
  - injection Hm as <-. split; [done|]. split; [by left|done].
  - destruct (fs !! reverse (x :: rp)) as [[|c]|] eqn:Hl; [|done|].
    + injection Hm as <-. split; [done|]. split; [by left|done].
    + destruct (mkdir_rev rp fs) as [fs1|] eqn:Hrec; [|done]. injection Hm as <-.
      destruct (IH fs1 eq_refl) as (Hkeep & Hnew & _).
      split; [|split].
      * intros p n Hp. rewrite lookup_insert_ne; [by apply Hkeep|].
        intros <-. congruence.
      * intros p n [[<- <-]|[Hne Hp]]%lookup_insert_Some.
        -- right. by split.
        -- destruct (Hnew p n Hp) as [?|(? & ? & Hpre)]; [by left|right].
           split; [done|]. split; [done|]. rewrite reverse_cons. by apply prefix_app_r.
      * intros _. apply lookup_insert_eq.
Qed.

Lemma mkdir_parents_keeps (p : Path) (fs fs' : FS) q n :
  mkdir_parents p fs = Some fs' → fs !! q = Some n → fs' !! q = Some n.
Proof. intros Hm. by apply (mkdir_rev_spec _ _ _ Hm). Qed.

Lemma mkdir_parents_new (p : Path) (fs fs' : FS) q n :
  mkdir_parents p fs = Some fs' → fs' !! q = Some n →
  fs !! q = Some n ∨ (fs !! q = None ∧ n = Dir ∧ q `prefix_of` p).
Proof.
  intros Hm Hq. destruct (mkdir_rev_spec _ _ _ Hm) as (_ & Hnew & _).
  destruct (Hnew q n Hq) as [?|(? & ? & Hpre)]; [by left|right].
  by rewrite reverse_involutive in Hpre.
Qed.

Lemma mkdir_parents_dir (p : Path) (fs fs' : FS) :
  mkdir_parents p fs = Some fs' → p ≠ [] → fs' !! p = Some Dir.
Proof.
  intros Hm Hne. destruct (mkdir_rev_spec _ _ _ Hm) as (_ & _ & Hdir).
  rewrite reverse_involutive in Hdir. apply Hdir.
  intros H. apply Hne. by rewrite <- (reverse_involutive p), H.
Qed.

(** ** The state *)

Lemma set_disk_same st : set_disk (disk st) st = st.
Proof. by destruct st. Qed.

Section Download.

Variable base_path : Path.
Variable os_refuses : Path → option py_exception.

Lemma fail_download_fresh filename album_name reason q st :
  disk st !! q = None →
  fail_download filename album_name reason q st
  = Returns false (push_failed (filename, album_name, reason) st).
Proof.
  intros Hq. unfold fail_download. simpl.
  apply exists_false in Hq. by rewrite Hq.
Qed.

Lemma fail_download_partial filename album_name reason q st fs c :
  fs !! q = None →
  fail_download filename album_name reason q (set_disk (<[q := File c]> fs) st)
  = Returns false (push_failed (filename, album_name, reason) (set_disk fs st)).
Proof.
  intros Hq. unfold fail_download. simpl.
  rewrite (proj2 (exists_true _ _)) by (rewrite lookup_insert_eq; eauto).
  unfold unlink. rewrite lookup_insert_eq. by rewrite delete_insert_id.
Qed.

(** The outcome of writing the sidecar of an image. *)
Lemma save_image_metadata_cases image_info image_path st :
  (save_image_metadata os_refuses image_info image_path st = Throws (Exc (str "ValueError") []) st
   ∧ with_suffix image_path (str ".txt") = None) ∨
  save_image_metadata os_refuses image_info image_path st = Returns tt st ∨
  (∃ metadata_path text,
     with_suffix image_path (str ".txt") = Some metadata_path ∧
     disk st !! metadata_path = None ∧
     save_image_metadata os_refuses image_info image_path st
     = Returns tt (incr_metadata_saved
                     (set_disk (<[metadata_path := File text]> (disk st)) st))).
Proof.
  unfold save_image_metadata.
  destruct (with_suffix image_path (str ".txt")) as [m|]; [|by left].
  right. destruct (exists_ (disk st) m) eqn:He; [by left|].
  case_decide; [by left|].
  destruct (open_for_writing os_refuses m (disk st)); [by left|].
  right. eexists _, _. split; [done|]. split; [by apply exists_false|done].
Qed.


Lemma skipped_dir_eq : joinpath base_path (str "Skipped_Images") = base_path ++ [skipped_images].
Proof. apply joinpath_plain; by_compute. Qed.

Lemma relative_to_Some p base rel :
  relative_to p base = Some rel → p = base ++ rel ∧ is_absolute rel = false.
Proof.
  unfold relative_to. destruct (strip_prefix p base) as [rest|] eqn:Hs; [|done].
  destruct (is_absolute rest) eqn:Ha; [done|]. intros [= <-]. split; [|done].
  revert p Hs. induction base as [|b base IH]; intros [|x p] Hs; simpl in Hs; try done.
  - by injection Hs as <-.
  - by injection Hs as <-.
  - case_decide; [|done]. subst. simpl. f_equal. by apply IH.
Qed.


Lemma quarantine_returns image_info download_path album_name st rel fs1 :
  relative_to (parent download_path) base_path = Some rel →
  mkdir_parents (quarantine_dir base_path rel) (disk st) = Some fs1 →
  ∃ q,
    quarantine base_path image_info download_path album_name st
    = Returns q (push_skipped (name download_path, album_name,
                               get (ImageKey image_info) (str "no-key"),
                               download_path, q)
                              (incr_skipped (set_disk fs1 st))) ∧
    fs1 !! q = None ∧
    ((q = joinpath (quarantine_dir base_path rel) (name download_path)) ∨
     (is_Some (fs1 !! joinpath (quarantine_dir base_path rel) (name download_path)) ∧
      ∃ n, 2 ≤ n ∧
        q = quarantine_dir base_path rel ++
            [numbered (stem (parse_path (name download_path))) n
                      (suffix (parse_path (name download_path)))] ∧
        ∀ m, 2 ≤ m < n →
          is_Some (fs1 !! (quarantine_dir base_path rel ++
            [numbered (stem (parse_path (name download_path))) m
                      (suffix (parse_path (name download_path)))])))).
Proof.
  intros Hrel Hmk. unfold quarantine. rewrite Hrel, skipped_dir_eq.
  destruct (relative_to_Some _ _ _ Hrel) as [_ Habs].
  unfold join_paths. rewrite Habs. rewrite <- app_assoc. fold (quarantine_dir base_path rel).
  rewrite Hmk.
  destruct (exists_ fs1 (joinpath (quarantine_dir base_path rel) (name download_path))) eqn:He.
  - set (base_name := stem (parse_path (name download_path))).
    set (extension := suffix (parse_path (name download_path))).
    set (taken := λ counter, exists_ fs1 (joinpath (quarantine_dir base_path rel) (numbered base_name counter extension))).
    destruct (count_up_least taken (S (size fs1)) 2) as (Hfree & Hge & Hmin).
    { destruct (fresh_key_within fs1 (λ k, quarantine_dir base_path rel ++ [numbered base_name k extension]) 2)
        as (k & Hk & Hnone).
      { intros i j Hij. apply app_inv_head in Hij. injection Hij as Hij.
        by apply numbered_inj in Hij. }
      exists k. split; [done|]. unfold taken. apply exists_false.
      subst base_name extension. by rewrite joinpath_numbered. }
    eexists. split; [done|]. unfold taken in Hfree at 1. apply exists_false in Hfree.
    split; [done|]. right. split; [by apply exists_true|].
    exists (count_up taken (S (size fs1)) 2). split; [done|]. split.
    + subst base_name extension. by rewrite joinpath_numbered.
    + intros m Hm. specialize (Hmin m Hm). unfold taken in Hmin.
      apply exists_true in Hmin. subst base_name extension.
      by rewrite joinpath_numbered in Hmin.
  - eexists. split; [done|]. split; [by apply exists_false|by left].
Qed.

(** Whatever its arguments, [quarantine] raises and leaves the state as it
    is, or returns a path that does not exist yet on a disk that only has
    new directories. *)
Lemma quarantine_cases image_info download_path album_name st :
  (∃ e, quarantine base_path image_info download_path album_name st = Throws e st) ∨
  (∃ rel fs1 q,
     relative_to (parent download_path) base_path = Some rel ∧
     mkdir_parents (quarantine_dir base_path rel) (disk st) = Some fs1 ∧
     quarantine base_path image_info download_path album_name st
     = Returns q (push_skipped (name download_path, album_name,
                                get (ImageKey image_info) (str "no-key"),
                                download_path, q)
                               (incr_skipped (set_disk fs1 st))) ∧
     fs1 !! q = None).
Proof.
  destruct (relative_to (parent download_path) base_path) as [rel|] eqn:Hrel.
  - destruct (mkdir_parents (quarantine_dir base_path rel) (disk st)) as [fs1|] eqn:Hmk.
    + right. destruct (quarantine_returns image_info download_path album_name st rel fs1)
        as (q & Hq & Hfree & _); [done..|]. by exists rel, fs1, q.
    + left. unfold quarantine. rewrite Hrel, skipped_dir_eq.
      destruct (relative_to_Some _ _ _ Hrel) as [_ Habs].
      unfold join_paths. rewrite Habs, <- app_assoc. fold (quarantine_dir base_path rel).
      rewrite Hmk. by eexists.
  - left. unfold quarantine. rewrite Hrel. by eexists.
Qed.

(** *** The transfer *)


Lemma fetch_file_failure image_info q filename album_name st :
  disk st !! q = None →
  transfer_fails (served image_info) = true →
  ∃ reason,
    fetch_file os_refuses image_info q filename album_name st
    = Returns false (push_failed (filename, album_name, reason) st) ∧
    (∀ e, served image_info = GetRaises e → reason = failure_reason e) ∧
    (∀ status_code received cut,
       served image_info = GetResponse status_code received cut →
       400 ≤ status_code < 600 → reason = http_reason status_code) ∧
    (∀ status_code received e,
       served image_info = GetResponse status_code received (Some e) →
       ¬ 400 ≤ status_code < 600 → os_refuses q = None → reason = failure_reason e).
Proof.
  intros Hq Hfail. unfold fetch_file.
  destruct (served image_info) as [e|status_code received cut] eqn:Hs.
  - exists (failure_reason e). split; [by apply fail_download_fresh|].
    split; [by intros ? [= <-]|]. split; by intros.
  - destruct (decide (400 ≤ status_code < 600)) as [Hc|Hc].
    + exists (http_reason status_code). split; [by apply fail_download_fresh|].
      split; [done|]. split; [by intros ??? [= <- _ _]|].
      by intros ??? [= <- _ _].
    + simpl in Hfail. rewrite bool_decide_eq_false_2 in Hfail by done. simpl in Hfail.
      apply bool_decide_eq_true in Hfail as [e ->].
      unfold open_for_writing. rewrite Hq.
      destruct (os_refuses q) as [e'|] eqn:Hos.
      * exists (failure_reason (OtherError e')). split; [by apply fail_download_fresh|].
        split; [done|]. split; [by intros ??? [= <- _ _]|]. done.
      * exists (failure_reason e). split.
        { rewrite fail_download_partial by done. by rewrite set_disk_same. }
        split; [done|]. split; [by intros ??? [= <- _ _]|].
        by intros ??? [= _ _ <-].
Qed.

(** A download to a path that does not exist yet leaves every existing
    entry of the disk as it is. *)
Lemma fetch_file_cases image_info q filename album_name st :
  disk st !! q = None →
  (∃ reason,
     fetch_file os_refuses image_info q filename album_name st
     = Returns false (push_failed (filename, album_name, reason) st)) ∨
  (∃ status_code received st',
     served image_info = GetResponse status_code received None ∧
     ¬ 400 ≤ status_code < 600 ∧
     fetch_file os_refuses image_info q filename album_name st
     = Returns true (incr_downloaded st') ∧
     (st' = set_disk (<[q := File received]> (disk st)) st ∨
      ∃ metadata_path text,
        with_suffix q (str ".txt") = Some metadata_path ∧
        metadata_path ≠ q ∧ disk st !! metadata_path = None ∧
        st' = incr_metadata_saved
                (set_disk (<[metadata_path := File text]> (<[q := File received]> (disk st)))
                          st))).
Proof.
  intros Hq.
  destruct (transfer_fails (served image_info)) eqn:Hf.
  { left. destruct (fetch_file_failure image_info q filename album_name st Hq Hf)
      as (reason & Heq & _). by exists reason. }
  unfold fetch_file.
  destruct (served image_info) as [e|status_code received cut] eqn:Hs; [done|].
  simpl in Hf. apply orb_false_iff in Hf as [Hc%bool_decide_eq_false Hcut%bool_decide_eq_false].
  destruct cut as [e|]; [exfalso; apply Hcut; eauto|].
  rewrite decide_False by done.
  unfold open_for_writing. rewrite Hq.
  destruct (os_refuses q) as [e'|] eqn:Hos.
  { left. eexists. by apply fail_download_fresh. }
  set (st1 := set_disk (<[q := File received]> (disk st)) st).
  destruct (save_image_metadata_cases image_info q st1)
    as [[-> _]|[->|(m & text & Hm & Hfree & ->)]].
  - left. eexists. unfold st1. rewrite fail_download_partial by done. by rewrite set_disk_same.
  - right. eexists _, _, _. split; [done|]. split; [done|]. split; [done|]. by left.
  - right. eexists _, _, _. split; [done|]. split; [done|]. split; [done|]. right.
    simpl in Hfree. apply lookup_insert_None in Hfree as [Hfree Hne].
    exists m, text. split; [done|]. split; [done|]. split; [done|]. done.
Qed.

Lemma download_image_fresh image_info download_path album_name st :
  disk st !! download_path = None →
  download_image base_path os_refuses image_info download_path album_name st
  = if decide (get (resolved_url image_info) [] = [])
    then Returns false (push_failed (name download_path, album_name, no_url_reason) st)
    else fetch_file os_refuses image_info download_path (name download_path) album_name st.
Proof.
  intros Hq. unfold download_image. apply exists_false in Hq. by rewrite Hq.
Qed.

Lemma download_image_existing image_info download_path album_name st :
  is_Some (disk st !! download_path) →
  download_image base_path os_refuses image_info download_path album_name st
  = match quarantine base_path image_info download_path album_name st with
    | Throws e st1 => Throws e st1
    | Returns q st1 =>
        if decide (get (resolved_url image_info) [] = [])
        then Returns false (push_failed (name download_path, album_name, no_url_reason) st1)
        else fetch_file os_refuses image_info q (name download_path) album_name st1
    end.
Proof.
  intros Hq. unfold download_image. apply exists_true in Hq. by rewrite Hq.
Qed.

(** After the step that chooses the path, the rest of [download_image]
    keeps the disk or adds the file and its sidecar. *)
Lemma transfer_keeps image_info q filename album_name st p n :
  disk st !! q = None →
  disk st !! p = Some n →
  disk (state_of (if decide (get (resolved_url image_info) [] = [])
                  then Returns false (push_failed (filename, album_name, no_url_reason) st)
                  else fetch_file os_refuses image_info q filename album_name st)) !! p
  = Some n.
Proof.
  intros Hq Hp. case_decide; [done|].
  destruct (fetch_file_cases image_info q filename album_name st Hq)
    as [(reason & ->)|(sc & rc & st' & _ & _ & -> & [->|(m & t & _ & _ & Hm & ->)])]; simpl.
  - done.
  - rewrite lookup_insert_ne; [done|]. intros <-. congruence.
  - rewrite !lookup_insert_ne; [done|..]; intros <-; congruence.
Qed.

(** Nothing that exists is overwritten or removed. *)
Lemma download_image_keeps image_info download_path album_name st p n :
  disk st !! p = Some n →
  disk (state_of (download_image base_path os_refuses image_info download_path album_name st))
    !! p = Some n.
Proof.
  intros Hp. destruct (disk st !! download_path) as [n'|] eqn:Hd.
  - rewrite download_image_existing by (rewrite Hd; eauto).
    destruct (quarantine_cases image_info download_path album_name st)
      as [[e ->]|(rel & fs1 & q & Hrel & Hmk & -> & Hfree)]; [done|].
    apply transfer_keeps; simpl; [done|]. by eapply mkdir_parents_keeps.
  - rewrite download_image_fresh by done. by apply transfer_keeps.
Qed.

(** *** Where the quarantine path lies *)

Lemma parse_path_plain_cases x : slash ∉ x → parse_path x = [x] ∨ parse_path x = [].
Proof.
  intros Hx. destruct (decide (x = [])) as [->|Hne]; [by right|].
  destruct (decide (x = str ".")) as [->|Hdot]; [by right|].
  left. by apply parse_path_plain.
Qed.

Lemma joinpath_plain_cases p x : slash ∉ x → joinpath p x = p ++ [x] ∨ joinpath p x = p.
Proof.
  intros Hx. unfold joinpath. destruct (parse_path_plain_cases x Hx) as [-> | ->]; simpl.
  - left. by rewrite is_root_plain.
  - right. by rewrite app_nil_r.
Qed.

Lemma quarantine_dir_nonempty rel : quarantine_dir base_path rel ≠ [].
Proof. unfold quarantine_dir. by destruct base_path. Qed.

Lemma quarantine_dir_prefix rel : (base_path ++ [skipped_images]) `prefix_of` quarantine_dir base_path rel.
Proof. unfold quarantine_dir. exists rel. by rewrite <- app_assoc. Qed.

Lemma name_snoc (p : Path) x : slash ∉ x → name (p ++ [x]) = x.
Proof. intros Hx. unfold name. rewrite last_snoc. by rewrite is_root_plain. Qed.

Lemma with_suffix_snoc (p : Path) x sfx m :
  slash ∉ x → with_suffix (p ++ [x]) sfx = Some m → m = p ++ [stem_of x ++ sfx].
Proof.
  intros Hx. unfold with_suffix, stem. rewrite name_snoc by done.
  case_decide; [done|]. intros [= <-]. by rewrite removelast_last.
Qed.

Lemma name_joinpath_no_slash (p : Path) f : slash ∉ name p → slash ∉ name (joinpath p f).
Proof.
  intros Hp. unfold joinpath. destruct (is_absolute (parse_path f)); [apply name_parse_no_slash|].
  destruct (last (parse_path f)) as [y|] eqn:Hl.
  - unfold name. rewrite last_app, Hl.
    pose proof (name_parse_no_slash f) as Hn. unfold name in Hn. by rewrite Hl in Hn.
  - apply last_None in Hl. by rewrite Hl, app_nil_r.
Qed.

Section Resume.

Variables (image_info : image) (download_path : Path) (album_name : pystr) (st : state).
Variables (rel : Path) (fs1 : FS).
Hypothesis Hexists : is_Some (disk st !! download_path).
Hypothesis Hrel : relative_to (parent download_path) base_path = Some rel.
Hypothesis Hmkdir : mkdir_parents (quarantine_dir base_path rel) (disk st) = Some fs1.


(** What [download_image] does when the destination exists. *)
Lemma download_image_resume :
  ∃ q b st',
    download_image base_path os_refuses image_info download_path album_name st
    = Returns b st' ∧
    quarantine base_path image_info download_path album_name st
    = Returns q (push_skipped (name download_path, album_name,
                               get (ImageKey image_info) (str "no-key"),
                               download_path, q)
                              (incr_skipped (set_disk fs1 st))) ∧
    q ≠ download_path ∧ disk st !! q = None ∧ fs1 !! q = None ∧
    ((q = joinpath (quarantine_dir base_path rel) (name download_path)) ∨
     (is_Some (fs1 !! joinpath (quarantine_dir base_path rel) (name download_path)) ∧
      ∃ n, 2 ≤ n ∧
        q = quarantine_dir base_path rel ++ [numbered (stem (parse_path (name download_path))) n
                  (suffix (parse_path (name download_path)))] ∧
        ∀ m, 2 ≤ m < n →
          is_Some (fs1 !! (quarantine_dir base_path rel ++ [numbered (stem (parse_path (name download_path))) m
                  (suffix (parse_path (name download_path)))])))) ∧
    skipped_log st'
    = skipped_log st ++ [(name download_path, album_name,
                          get (ImageKey image_info) (str "no-key"), download_path, q)] ∧
    total_skipped st' = S (total_skipped st) ∧
    (disk st' = fs1 ∨
     (∃ received, disk st' = <[q := File received]> fs1) ∨
     (∃ received metadata_path text,
        with_suffix q (str ".txt") = Some metadata_path ∧
        metadata_path ≠ q ∧ fs1 !! metadata_path = None ∧
        disk st' = <[metadata_path := File text]> (<[q := File received]> fs1))).
Proof.
  destruct (quarantine_returns image_info download_path album_name st rel fs1 Hrel Hmkdir)
    as (q & Hq & Hfree & Hwhere).
  assert (disk st !! q = None) as Hfree0.
  { destruct (disk st !! q) as [n|] eqn:Hn; [|done].
    apply (mkdir_parents_keeps _ _ _ _ _ Hmkdir) in Hn. congruence. }
  assert (q ≠ download_path) as Hne.
  { intros ->. rewrite Hfree0 in Hexists. by destruct Hexists. }
  rewrite download_image_existing, Hq by done.
  set (st1 := push_skipped _ _).
  assert (disk st1 !! q = None) as Hfree1 by done.
  case_decide.
  - eexists q, _, _. split; [done|]. split; [done|]. repeat (split; [done|]). by left.
  - destruct (fetch_file_cases image_info q (name download_path) album_name st1 Hfree1)
      as [(reason & ->)|(sc & rc & st' & _ & _ & -> & [->|(m & t & Hm & Hmq & Hmfree & ->)])].
    + eexists q, _, _. split; [done|]. split; [done|]. repeat (split; [done|]). by left.
    + eexists q, _, _. split; [done|]. split; [done|]. repeat (split; [done|]).
      right. left. by eexists.
    + eexists q, _, _. split; [done|]. split; [done|]. repeat (split; [done|]).
      right. right. by eexists _, _, _.
Qed.

(** With a well-formed name the quarantine path is a file of the quarantine
    directory, and so is its sidecar. *)
Lemma quarantine_path_under q :
  slash ∉ name download_path →
  fs1 !! q = None →
  (q = joinpath (quarantine_dir base_path rel) (name download_path)) ∨
  (∃ n, q = quarantine_dir base_path rel ++ [numbered (stem (parse_path (name download_path))) n
                  (suffix (parse_path (name download_path)))]) →
  ∃ x, (slash ∉ x) ∧ q = quarantine_dir base_path rel ++ [x].
Proof.
  intros Hname Hfree [Hq|[n Hq]].
  - destruct (joinpath_plain_cases (quarantine_dir base_path rel) _ Hname) as [Hj|Hj];
      rewrite Hj in Hq; [by eexists|].
    subst q. rewrite (mkdir_parents_dir _ _ _ Hmkdir (quarantine_dir_nonempty rel)) in Hfree.
    done.
  - eexists. split; [|done]. apply numbered_no_slash.
    + intros Hs%stem_of_subset. by apply name_parse_no_slash in Hs.
    + intros Hs%suffix_of_subset. by apply name_parse_no_slash in Hs.
Qed.

End Resume.

(** A regular file that [download_image] creates when the destination
    exists lies below [Skipped_Images]. *)
Lemma download_image_new_files image_info download_path album_name st p c :
  is_Some (disk st !! download_path) →
  slash ∉ name download_path →
  disk (state_of (download_image base_path os_refuses image_info download_path album_name st))
    !! p = Some (File c) →
  disk st !! p = Some (File c) ∨ (base_path ++ [skipped_images]) `prefix_of` p.
Proof.
  intros Hex Hname Hp.
  destruct (relative_to (parent download_path) base_path) as [rel|] eqn:Hrel; cycle 1.
  { left. rewrite download_image_existing in Hp by done.
    unfold quarantine in Hp. by rewrite Hrel in Hp. }
  destruct (mkdir_parents (quarantine_dir base_path rel) (disk st)) as [fs1|] eqn:Hmk; cycle 1.
  { left. rewrite download_image_existing in Hp by done.
    destruct (quarantine_cases image_info download_path album_name st)
      as [[e He]|(rel' & fs1 & q & Hrel' & Hmk' & _)]; [by rewrite He in Hp|].
    congruence. }
  destruct (download_image_resume image_info download_path album_name st rel fs1 Hex Hrel Hmk)
    as (q & b & st' & Heq & _ & _ & _ & Hfree & Hwhere & _ & _ & Hdisk).
  rewrite Heq in Hp. simpl in Hp.
  destruct (quarantine_path_under download_path st rel fs1 Hmk q Hname Hfree) as (x & Hx & Hq).
  { destruct Hwhere as [?|(_ & n & _ & ? & _)]; [by left|right; by exists n]. }
  assert ((base_path ++ [skipped_images]) `prefix_of` q) as Hpre.
  { rewrite Hq. apply prefix_app_r, quarantine_dir_prefix. }
  assert (fs1 !! p = Some (File c) → disk st !! p = Some (File c)) as Hold.
  { intros H1. by destruct (mkdir_parents_new _ _ _ _ _ Hmk H1) as [?|(_ & ? & _)]. }
  destruct Hdisk as [Hd|[(r & Hd)|(r & m & t & Hm & _ & _ & Hd)]]; rewrite Hd in Hp.
  - left. by apply Hold.
  - apply lookup_insert_Some in Hp as [[<- _]|[_ Hp]]; [by right|left; by apply Hold].
  - apply lookup_insert_Some in Hp as [[<- _]|[_ Hp]].
    + right. rewrite Hq in Hm. apply with_suffix_snoc in Hm; [|done]. rewrite Hm.
      apply prefix_app_r, quarantine_dir_prefix.
    + apply lookup_insert_Some in Hp as [[<- _]|[_ Hp]]; [by right|left; by apply Hold].
Qed.

(** Running the plan of an album whose files are all there. *)
Lemma download_plan_resume album_path album_name plan st :
  slash ∉ name album_path →
  (∀ image final_filename, (image, final_filename) ∈ plan →
     is_Some (disk st !! joinpath album_path final_filename)) →
  (∀ p n, disk st !! p = Some n →
     disk (download_plan base_path os_refuses album_path album_name plan st) !! p = Some n) ∧
  (∀ p c, disk (download_plan base_path os_refuses album_path album_name plan st) !! p
          = Some (File c) →
     disk st !! p = Some (File c) ∨ (base_path ++ [skipped_images]) `prefix_of` p).
Proof.
  intros Hname. revert st. induction plan as [|[image final_filename] plan IH]; intros st Hall.
  - simpl. split; [done|]. intros. by left.
  - simpl.
    set (st1 := state_of (download_image base_path os_refuses image
                            (joinpath album_path final_filename) album_name st)).
    assert (is_Some (disk st !! joinpath album_path final_filename)) as Hex
      by (apply (Hall image); by left).
    destruct (IH st1) as [Hkeep Hnew].
    { intros image' final' Hin. destruct (Hall image' final') as [n Hn]; [by right|].
      exists n. by apply download_image_keeps. }
    split.
    + intros p n Hp. apply Hkeep. by apply download_image_keeps.
    + intros p c Hp. destruct (Hnew p c Hp) as [Hp1|?]; [|by right].
      apply download_image_new_files in Hp1; [done..|].
      by apply name_joinpath_no_slash.
Qed.






Lemma http_reason_nonempty status_code : http_reason status_code ≠ [].
Proof. done. Qed.



(** Claim C10. When the destination exists, the skip is counted and logged,
    with the quarantine path, by the step that chooses that path, which
    reads nothing of the server's later answers. When the download then
    fails (no URL, or a failed transfer) the final state holds both the skip
    event and one failure event, and no file exists at the quarantine path
    named in the skip event. *)
Theorem skip_is_logged_before_the_download
    (image_info : image) (download_path : Path) (album_name : pystr) (st : state)
    (rel : Path) (fs1 : FS)
    (Hexists : is_Some (disk st !! download_path))
    (Hrel : relative_to (parent download_path) base_path = Some rel)
    (Hmkdir : mkdir_parents (base_path ++ [str "Skipped_Images"] ++ rel) (disk st) = Some fs1) :
  ∃ q,
    let entry := (name download_path, album_name,
                  get (ImageKey image_info) (str "no-key"), download_path, q) in
    let skipped := push_skipped entry (incr_skipped (set_disk fs1 st)) in
    (∀ other, ImageKey other = ImageKey image_info →
       quarantine base_path other download_path album_name st = Returns q skipped) ∧
    skipped_log skipped = skipped_log st ++ [entry] ∧
    total_skipped skipped = S (total_skipped st) ∧
    failed_downloads skipped = failed_downloads st ∧
    (get (resolved_url image_info) [] = [] ∨ transfer_fails (served image_info) = true →
     ∃ reason st',
       download_image base_path os_refuses image_info download_path album_name st
       = Returns false st' ∧
       st' = push_failed (name download_path, album_name, reason) skipped ∧
       skipped_log st' = skipped_log st ++ [entry] ∧
       total_skipped st' = S (total_skipped st) ∧
       failed_downloads st'
       = failed_downloads st ++ [(name download_path, album_name, reason)] ∧
       disk st' !! q = None ∧
       (get (resolved_url image_info) [] = [] → reason = no_url_reason)).
Proof.
  destruct (quarantine_returns image_info download_path album_name st rel fs1 Hrel Hmkdir)
    as (q & Hq & Hfree & _).
  exists q. intros entry skipped. split; [|split; [done|split; [done|split; [done|]]]].
  - intros other Hkey.
    destruct (quarantine_returns other download_path album_name st rel fs1 Hrel Hmkdir)
      as (q' & Hq' & _).
    unfold quarantine in *. rewrite Hkey in *.
    rewrite Hq' in Hq. injection Hq as ->. by rewrite Hq'.
  - intros Hfail. rewrite download_image_existing, Hq by done. fold entry. fold skipped.
    destruct (decide (get (resolved_url image_info) [] = [])) as [Hurl|Hurl].
    + by eexists _, _.
    + destruct Hfail as [?|Hfail]; [done|].
      destruct (fetch_file_failure image_info q (name download_path) album_name skipped)
        as (reason & -> & _); [done..|].
      by eexists _, _.
Qed.

(** Planning reads and writes the logs only. *)
Lemma plan_images_frame album_name idx images pl st st0 :
  disk (plan_images album_name idx images (pl, st)).2 = disk st ∧
  (plan_images album_name idx images (pl, st)).1
  = (plan_images album_name idx images (pl, st0)).1.
Proof.
  revert idx pl st st0. induction images as [|img images IH]; intros idx pl st st0; [done|].
  cbn [plan_images].
  destruct (plan_image_step album_name idx img pl st) as [orig Hs|Hs Hu|other Hs Hu];
    destruct (plan_image_step album_name idx img pl st0) as [orig' Hs'|Hs' Hu'|other' Hs' Hu'];
    try congruence.
  - destruct (IH (S idx) pl
        (push_duplicate (unique_id idx img, original_filename idx img, album_name,
           str "True duplicate (ID=" ++ unique_id idx img ++
           str ", already seen as " ++ orig ++ str ")") (incr_duplicates st))
        (push_duplicate (unique_id idx img, original_filename idx img, album_name,
           str "True duplicate (ID=" ++ unique_id idx img ++
           str ", already seen as " ++ orig' ++ str ")") (incr_duplicates st0)))
      as [-> ->]. done.
  - apply IH.
  - match goal with
    | |- context [plan_images _ _ _ (?pl', push_renamed ?e (incr_renamed st))] =>
        destruct (IH (S idx) pl' (push_renamed e (incr_renamed st))
                    (push_renamed e (incr_renamed st0))) as [-> ->]
    end. done.
Qed.

Lemma plan_album_disk album_name images st :
  disk (plan_album album_name images st).2 = disk st.
Proof. rewrite plan_album_eq. apply plan_images_frame. exact st. Qed.

Lemma plan_album_any_state album_name images st st0 :
  (plan_album album_name images st).1 = (plan_album album_name images st0).1.
Proof. rewrite !plan_album_eq. cbn [fst]. f_equal. apply plan_images_frame. Qed.

Lemma album_path_eq (folder_path : Path) x :
  joinpath folder_path (sanitize_filename x) = folder_path ++ [sanitize_filename x] ∧
  slash ∉ sanitize_filename x.
Proof.
  assert (slash ∉ sanitize_filename x) as Hs by (apply sanitize_filename_reserved; by_compute).
  split; [|done]. apply joinpath_plain; [done|apply sanitize_filename_nonempty|].
  intros H. pose proof (sanitize_filename_starts_ok x) as Hok. rewrite H in Hok.
  apply (Hok "."%char); [done|by_compute].
Qed.

(** Running an album again over a tree that holds its sidecar and all its
    planned files. *)
Lemma process_album_resume (a : album) folder_path st :
  let album_name := get (album_Name a) (str "Unnamed Album") in
  let album_path := joinpath folder_path (sanitize_filename album_name) in
  is_Some (disk st !! joinpath album_path
             (sanitize_filename
                (replace_char " "%char "_"%char (get (album_Name a) (str "album")))
              ++ str ".txt")) →
  (∀ image final_filename,
     (image, final_filename) ∈ (plan_album album_name (fetch_images a) st).1 →
     is_Some (disk st !! joinpath album_path final_filename)) →
  (∀ p n, disk st !! p = Some n →
     disk (state_of (process_album base_path os_refuses a folder_path st)) !! p = Some n) ∧
  (∀ p c, disk (state_of (process_album base_path os_refuses a folder_path st)) !! p
          = Some (File c) →
     disk st !! p = Some (File c) ∨ (base_path ++ [skipped_images]) `prefix_of` p).
Proof.
  intros album_name album_path Hsidecar Hall. unfold process_album.
  fold album_name. fold album_path.
  case_decide; [by split; [|left]|].
  destruct (mkdir_parents album_path (disk st)) as [fs|] eqn:Hmk; [|by split; [|left]].
  assert (∀ p n, disk st !! p = Some n → fs !! p = Some n) as Hkeep
    by (intros p n; apply (mkdir_parents_keeps _ _ _ _ _ Hmk)).
  assert (∀ p c, fs !! p = Some (File c) → disk st !! p = Some (File c)) as Hold.
  { intros p c H1. by destruct (mkdir_parents_new _ _ _ _ _ Hmk H1) as [?|(_ & ? & _)]. }
  assert (save_album_metadata os_refuses a album_path (set_disk fs st) = set_disk fs st) as ->.
  { unfold save_album_metadata. cbn [disk set_disk update].
    destruct Hsidecar as [n Hn]. apply Hkeep in Hn.
    match goal with
    | |- context [exists_ fs ?m] =>
        assert (exists_ fs m = true) as -> by (apply exists_true; by eexists)
    end. done. }
  set (st2 := incr_albums (add_images (length (fetch_images a)) (set_disk fs st))).
  case_decide; [split; [intros p n ?; by apply Hkeep|intros p c ?; left; by apply Hold]|].
  pose proof (plan_album_disk album_name (fetch_images a) st2) as Hdisk.
  pose proof (plan_album_any_state album_name (fetch_images a) st2 st) as Hplan.
  destruct (plan_album album_name (fetch_images a) st2) as [plan st3]. cbn [fst snd] in *.
  assert (disk st3 = fs) as Hfs by done.
  case_decide; cbn [state_of].
  { rewrite Hfs. split; [intros p n ?; by apply Hkeep|intros p c ?; left; by apply Hold]. }
  destruct (download_plan_resume album_path album_name plan st3) as [Hk Hn].
  { unfold album_path. destruct (album_path_eq folder_path album_name) as [-> Hs].
    by rewrite name_snoc. }
  { intros image final Hin. rewrite Hplan in Hin. destruct (Hall image final Hin) as [n Hn].
    exists n. rewrite Hfs. by apply Hkeep. }
  split.
  - intros p n Hp. apply Hk. rewrite Hfs. by apply Hkeep.
  - intros p c Hp. destruct (Hn p c Hp) as [Hp1|?]; [|by right]. left. apply Hold.
    by rewrite <- Hfs.
Qed.

(** Claim C4. [download_image] never overwrites or removes anything that
    exists on the disk. When the destination exists (and its parent lies
    below the base path, and the quarantine directory can be made), the
    file goes to [Skipped_Images/<album-relative path>/<name>], under the
    name of the destination or, if that exists too, under the first free
    numbered name; the path chosen did not exist, one skip event records
    the destination and the quarantine path, and the only files written
    are the quarantine file and its sidecar. Running a plan, or a whole
    album, whose files are all there creates no regular file outside
    [Skipped_Images]. *)
Theorem existing_destination_is_never_overwritten
    (image_info : image) (download_path : Path) (album_name : pystr) (st : state) :
  (∀ p n, disk st !! p = Some n →
     disk (state_of (download_image base_path os_refuses image_info download_path
                       album_name st)) !! p = Some n) ∧
  (∀ rel fs1,
     is_Some (disk st !! download_path) →
     slash ∉ name download_path →
     relative_to (parent download_path) base_path = Some rel →
     mkdir_parents (base_path ++ [str "Skipped_Images"] ++ rel) (disk st) = Some fs1 →
     ∃ q x b st',
       download_image base_path os_refuses image_info download_path album_name st
       = Returns b st' ∧
       q = base_path ++ [str "Skipped_Images"] ++ rel ++ [x] ∧
       q ≠ download_path ∧ disk st !! q = None ∧ fs1 !! q = None ∧
       ((x = name download_path) ∨
        (is_Some (fs1 !! joinpath (base_path ++ [str "Skipped_Images"] ++ rel)
                                  (name download_path)) ∧
         ∃ k, 2 ≤ k ∧
           x = numbered (stem (parse_path (name download_path))) k
                        (suffix (parse_path (name download_path))) ∧
           ∀ m, 2 ≤ m < k →
             is_Some (fs1 !! (base_path ++ [str "Skipped_Images"] ++ rel ++
               [numbered (stem (parse_path (name download_path))) m
                         (suffix (parse_path (name download_path)))])))) ∧
       skipped_log st'
       = skipped_log st ++ [(name download_path, album_name,
                             get (ImageKey image_info) (str "no-key"),
                             download_path, q)] ∧
       total_skipped st' = S (total_skipped st) ∧
       (∀ p c, disk st' !! p = Some (File c) →
          disk st !! p = Some (File c) ∨ p = q ∨ with_suffix q (str ".txt") = Some p)) ∧
  (∀ album_path plan,
     slash ∉ name album_path →
     (∀ image final_filename, (image, final_filename) ∈ plan →
        is_Some (disk st !! joinpath album_path final_filename)) →
     (∀ p n, disk st !! p = Some n →
        disk (download_plan base_path os_refuses album_path album_name plan st) !! p
        = Some n) ∧
     (∀ p c, disk (download_plan base_path os_refuses album_path album_name plan st) !! p
             = Some (File c) →
        disk st !! p = Some (File c) ∨ (base_path ++ [str "Skipped_Images"]) `prefix_of` p)) ∧
  (∀ (a : album) folder_path,
     let album_path :=
       joinpath folder_path
         (sanitize_filename (get (album_Name a) (str "Unnamed Album"))) in
     is_Some (disk st !! joinpath album_path
                (sanitize_filename
                   (replace_char " "%char "_"%char (get (album_Name a) (str "album")))
                 ++ str ".txt")) →
     (∀ image final_filename,
        (image, final_filename)
        ∈ (plan_album (get (album_Name a) (str "Unnamed Album")) (fetch_images a) st).1 →
        is_Some (disk st !! joinpath album_path final_filename)) →
     (∀ p n, disk st !! p = Some n →
        disk (state_of (process_album base_path os_refuses a folder_path st)) !! p = Some n) ∧
     (∀ p c, disk (state_of (process_album base_path os_refuses a folder_path st)) !! p
             = Some (File c) →
        disk st !! p = Some (File c) ∨ (base_path ++ [str "Skipped_Images"]) `prefix_of` p)).
Proof.
  split; [|split; [|split]]; [| | |intros a folder_path; apply process_album_resume].
  - intros p n. apply download_image_keeps.
  - intros rel fs1 Hex Hname Hrel Hmk.
    destruct (download_image_resume image_info download_path album_name st rel fs1 Hex Hrel Hmk)
      as (q & b & st' & Heq & _ & Hne & Hfree0 & Hfree & Hwhere & Hlog & Hcount & Hdisk).
    destruct (quarantine_path_under download_path st rel fs1 Hmk q Hname Hfree) as (x & Hx & Hq).
    { destruct Hwhere as [?|(_ & n & _ & ? & _)]; [by left|right; by exists n]. }
    unfold quarantine_dir, skipped_images in *.
    exists q, x, b, st'. split; [done|]. split; [by rewrite Hq, <- !app_assoc|].
    split; [done|]. split; [done|]. split; [done|]. split.
    { destruct Hwhere as [Hj|(Hsome & k & Hk & Hqk & Hmin)].
      - left. rewrite Hq in Hj.
        destruct (joinpath_plain_cases (base_path ++ [str "Skipped_Images"] ++ rel) _ Hname)
          as [Hj'|Hj']; rewrite Hj' in Hj.
        + by apply app_inv_head in Hj as [= ->].
        + apply (f_equal length) in Hj. rewrite length_app in Hj. simpl in Hj. lia.
      - right. split; [done|]. exists k. split; [done|]. split.
        + rewrite Hq in Hqk. by apply app_inv_head in Hqk as [= ->].
        + intros m Hm. specialize (Hmin m Hm). by rewrite <- !app_assoc in *. }
    split; [done|]. split; [done|].
    assert (∀ p c, fs1 !! p = Some (File c) → disk st !! p = Some (File c)) as Hold.
    { intros p c H1. by destruct (mkdir_parents_new _ _ _ _ _ Hmk H1) as [?|(_ & ? & _)]. }
    intros p c Hp.
    destruct Hdisk as [Hd|[(r & Hd)|(r & m & t & Hm & _ & _ & Hd)]]; rewrite Hd in Hp.
    + left. by apply Hold.
    + apply lookup_insert_Some in Hp as [[<- _]|[_ Hp]]; [right; by left|left; by apply Hold].
    + apply lookup_insert_Some in Hp as [[<- _]|[_ Hp]]; [right; by right|].
      apply lookup_insert_Some in Hp as [[<- _]|[_ Hp]]; [right; by left|left; by apply Hold].
  - intros album_path plan. apply download_plan_resume.
Qed.

End Download.

(** ** Listings *)


Lemma fetch_images_from_failed r images :
  listing_failed r = true → fetch_images_from (Listing r) images = images.
Proof.
  destruct r as [e|status_code body]; simpl; [done|].
  intros [Hs%bool_decide_eq_true|Hb%bool_decide_eq_true]%orb_true_iff.
  - by rewrite decide_True.
  - subst. by case_decide.
Qed.

Section Traversal.

Variable base_path : Path.
Variable os_refuses : Path → option py_exception.

Lemma process_folder_unfold folder_name albums_data subfolders_data parent_path st :
  process_folder base_path os_refuses (Folder folder_name albums_data subfolders_data)
    parent_path st
  = let folder_path :=
      joinpath parent_path (sanitize_filename (get folder_name (str "Unnamed Folder"))) in
    match mkdir_parents folder_path (disk st) with
    | None => Throws (Exc (str "FileExistsError") []) st
    | Some fs =>
        let st := incr_folders (set_disk fs st) in
        let st :=
          match albums_data with
          | Some (Response status_code (Some albums)) =>
              if decide (status_code = 200)
              then state_of (process_albums base_path os_refuses albums folder_path st)
              else st
          | _ => st
          end in
        let st :=
          match subfolders_data with
          | Some (Response status_code (Some subfolders)) =>
              if decide (status_code = 200)
              then state_of
                     ((fix each (l : list folder) (st : state) : outcome unit :=
                         match l with
                         | [] => Returns tt st
                         | subfolder :: l' =>
                             match process_folder base_path os_refuses subfolder folder_path st with
                             | Returns _ st' => each l' st'
                             | Throws e st' => Throws e st'
                             end
                         end) subfolders st)
              else st
          | _ => st
          end in
        Returns tt st
    end.
Proof. done. Qed.

(** A failed album listing is an absent album listing. *)
Lemma process_folder_albums_failed folder_name r subfolders_data parent_path st :
  listing_failed r = true →
  process_folder base_path os_refuses (Folder folder_name (Some r) subfolders_data) parent_path st
  = process_folder base_path os_refuses (Folder folder_name None subfolders_data) parent_path st.
Proof.
  intros Hf. rewrite !process_folder_unfold. cbv zeta.
  destruct (mkdir_parents _ _); [|done].
  destruct r as [e|status_code [albums|]]; try done.
  simpl in Hf. rewrite orb_false_r in Hf. apply bool_decide_eq_true in Hf.
  by rewrite decide_False.
Qed.

Lemma process_folder_subfolders_failed folder_name albums_data r parent_path st :
  listing_failed r = true →
  process_folder base_path os_refuses (Folder folder_name albums_data (Some r)) parent_path st
  = process_folder base_path os_refuses (Folder folder_name albums_data None) parent_path st.
Proof.
  intros Hf. rewrite !process_folder_unfold. cbv zeta.
  destruct (mkdir_parents _ _); [|done].
  destruct r as [e|status_code [subfolders|]]; try done.
  simpl in Hf. rewrite orb_false_r in Hf. apply bool_decide_eq_true in Hf.
  by rewrite decide_False.
Qed.

(** [process_folder] raises only when its own directory cannot be made. *)
Lemma process_folder_throws f parent_path st e st' :
  process_folder base_path os_refuses f parent_path st = Throws e st' →
  ∃ folder_name albums_data subfolders_data,
    f = Folder folder_name albums_data subfolders_data ∧
    mkdir_parents
      (joinpath parent_path (sanitize_filename (get folder_name (str "Unnamed Folder"))))
      (disk st) = None ∧ st' = st.
Proof.
  destruct f as [folder_name albums_data subfolders_data].
  rewrite process_folder_unfold. cbv zeta.
  destruct (mkdir_parents _ _) eqn:Hm; [done|]. intros [= _ <-]. by eexists _, _, _.
Qed.

Lemma process_folder_returns folder_name albums_data subfolders_data parent_path st fs :
  mkdir_parents
    (joinpath parent_path (sanitize_filename (get folder_name (str "Unnamed Folder"))))
    (disk st) = Some fs →
  ∃ st', process_folder base_path os_refuses (Folder folder_name albums_data subfolders_data)
           parent_path st = Returns tt st'.
Proof.
  intros Hm. rewrite process_folder_unfold. cbv zeta. rewrite Hm. by eexists.
Qed.

Lemma process_album_listing_failed (a : album) r folder_path st fs :
  get (album_Uri a) [] ≠ [] →
  images_listing a = Listing r → listing_failed r = true →
  mkdir_parents
    (joinpath folder_path (sanitize_filename (get (album_Name a) (str "Unnamed Album"))))
    (disk st) = Some fs →
  process_album base_path os_refuses a folder_path st
  = Returns tt
      (incr_albums
         (add_images 0
            (save_album_metadata os_refuses a
               (joinpath folder_path
                  (sanitize_filename (get (album_Name a) (str "Unnamed Album"))))
               (set_disk fs st)))).
Proof.
  intros Huri Hl Hf Hm. unfold process_album. rewrite decide_False by done.
  rewrite Hm. unfold fetch_images. rewrite Hl, fetch_images_from_failed by done. done.
Qed.

(** Claim C7, as amended. A failed listing request (it raises, the status
    is not 200, or the body does not decode) never raises out of
    [fetch_images], [process_album] or [process_folder]. [fetch_images]
    returns the images gathered on the pages before the failure, the empty
    list when the first request fails. [process_folder] treats a failed
    listing of albums or of subfolders as an absent one, raises only when
    its own directory cannot be made, and after a folder whose listings
    fail the remaining top-level folders are processed. *)
Theorem listing_failures_are_contained :
  (∀ (a : album) r,
     images_listing a = Listing r → listing_failed r = true → fetch_images a = []) ∧
  (∀ r images, listing_failed r = true → fetch_images_from (Listing r) images = images) ∧
  (∀ album_image l' images,
     fetch_images_from (Listing (Response 200 (Some (Page album_image (Some l'))))) images
     = fetch_images_from l' (images ++ album_image)) ∧
  (∀ (a : album) r folder_path st fs,
     get (album_Uri a) [] ≠ [] →
     images_listing a = Listing r → listing_failed r = true →
     mkdir_parents
       (joinpath folder_path (sanitize_filename (get (album_Name a) (str "Unnamed Album"))))
       (disk st) = Some fs →
     ∃ st', process_album base_path os_refuses a folder_path st = Returns tt st') ∧
  (∀ folder_name r subfolders_data parent_path st,
     listing_failed r = true →
     process_folder base_path os_refuses (Folder folder_name (Some r) subfolders_data)
       parent_path st
     = process_folder base_path os_refuses (Folder folder_name None subfolders_data)
         parent_path st) ∧
  (∀ folder_name albums_data r parent_path st,
     listing_failed r = true →
     process_folder base_path os_refuses (Folder folder_name albums_data (Some r))
       parent_path st
     = process_folder base_path os_refuses (Folder folder_name albums_data None)
         parent_path st) ∧
  (∀ f parent_path st e st',
     process_folder base_path os_refuses f parent_path st = Throws e st' →
     ∃ folder_name albums_data subfolders_data,
       f = Folder folder_name albums_data subfolders_data ∧
       mkdir_parents
         (joinpath parent_path (sanitize_filename (get folder_name (str "Unnamed Folder"))))
         (disk st) = None ∧ st' = st) ∧
  (∀ folder_name albums_data subfolders_data parent_path st fs,
     mkdir_parents
       (joinpath parent_path (sanitize_filename (get folder_name (str "Unnamed Folder"))))
       (disk st) = Some fs →
     ∃ st', process_folder base_path os_refuses
              (Folder folder_name albums_data subfolders_data) parent_path st
            = Returns tt st') ∧
  (∀ folder_name r1 r2 rest st fs,
     listing_failed r1 = true → listing_failed r2 = true →
     mkdir_parents
       (joinpath base_path (sanitize_filename (get folder_name (str "Unnamed Folder"))))
       (disk st) = Some fs →
     process_folders base_path os_refuses (Folder folder_name (Some r1) (Some r2) :: rest) st
     = process_folders base_path os_refuses rest (incr_folders (set_disk fs st))).
Proof.
  split.
  { intros a r Hl Hf. unfold fetch_images. rewrite Hl. by apply fetch_images_from_failed. }
  split; [apply fetch_images_from_failed|].
  split; [done|].
  split.
  { intros a r folder_path st fs Huri Hl Hf Hm.
    erewrite process_album_listing_failed by done. by eexists. }
  split; [apply process_folder_albums_failed|].
  split; [apply process_folder_subfolders_failed|].
  split; [apply process_folder_throws|].
  split; [apply process_folder_returns|].
  intros folder_name r1 r2 rest st fs H1 H2 Hm.
  cbn [process_folders].
  rewrite process_folder_albums_failed, process_folder_subfolders_failed by done.
  rewrite process_folder_unfold. cbv zeta. by rewrite Hm.
Qed.

(** Claim C8. The code at the input that breaks the claim: when the request
    for the top-level folders is answered with status 500, [download_all]
    returns and the exit status is 0; when the request raises, the exit
    status is 1. *)
Theorem root_listing_status_exit (fs : FS) (e : py_exception) :
  exit_status (main base_path os_refuses (Response 500 None) fs) = 0 ∧
  exit_status (main base_path os_refuses (RequestRaises e) fs) = 1.
Proof. done. Qed.

End Traversal.

(** ** Sidecars *)


Lemma sidecar_text_three l1 v1 l2 v2 l3 v3 :
  sidecar_text [(l1, v1); (l2, v2); (l3, v3)]
  = labelled l1 v1 ++ labelled l2 v2 ++ labelled l3 v3.
Proof. unfold sidecar_text, labelled. simpl. by rewrite app_nil_r. Qed.

Lemma incr_metadata_saved_neq st fs : incr_metadata_saved (set_disk fs st) ≠ st.
Proof. intros H. apply (f_equal total_metadata_saved) in H. simpl in H. lia. Qed.

Lemma incr_album_metadata_saved_neq st fs : incr_album_metadata_saved (set_disk fs st) ≠ st.
Proof. intros H. apply (f_equal total_album_metadata_saved) in H. simpl in H. lia. Qed.

Lemma album_sidecar_path (album_path : Path) x :
  joinpath album_path (sanitize_filename x ++ str ".txt")
  = album_path ++ [sanitize_filename x ++ str ".txt"].
Proof.
  apply joinpath_plain.
  - intros [H|H]%elem_of_app.
    + revert H. apply sanitize_filename_reserved. by_compute.
    + revert H. by_compute.
  - intros H. apply (f_equal length) in H. rewrite length_app in H. simpl in H. lia.
  - intros H. apply (f_equal length) in H. rewrite length_app in H. simpl in H. lia.
Qed.

Section Sidecars.

Variable os_refuses : Path → option py_exception.

(** Claim C9, as amended. The sidecar of an image is the image path with
    its suffix replaced by [.txt]; the sidecar of an album is, inside the
    album directory, the sanitized album name with spaces turned into
    underscores, plus [.txt]. Each writer leaves the state as it is exactly
    when the sidecar path exists, when the three fields are empty, or when
    the file cannot be opened; otherwise it writes the non-empty fields,
    one labelled line each, in the order title, caption or description,
    keywords, and counts the file. *)
Theorem sidecar_writers
    (image_info : image) (image_path : Path) (album_info : album) (album_path : Path)
    (st : state) :
  (with_suffix image_path (str ".txt") = None ↔ name image_path = []) ∧
  (∀ m, with_suffix image_path (str ".txt") = Some m →
     let title := get (Title image_info) [] in
     let caption := get (Caption image_info) [] in
     let keywords := get (image_Keywords image_info) [] in
     let st' := state_of (save_image_metadata os_refuses image_info image_path st) in
     m = removelast image_path ++ [stem image_path ++ str ".txt"] ∧
     save_image_metadata os_refuses image_info image_path st = Returns tt st' ∧
     (st' = st ↔
        is_Some (disk st !! m) ∨ (title = [] ∧ caption = [] ∧ keywords = []) ∨
        is_Some (open_for_writing os_refuses m (disk st))) ∧
     (st' ≠ st →
        st' = incr_metadata_saved
                (set_disk (<[m := File (labelled (str "Title") title ++
                                        labelled (str "Caption") caption ++
                                        labelled (str "Keywords") keywords)]> (disk st))
                          st))) ∧
  (let m := album_path ++
            [sanitize_filename
               (replace_char " "%char "_"%char (get (album_Name album_info) (str "album")))
             ++ str ".txt"] in
   let title := get (album_Name album_info) [] in
   let description := get (Description album_info) [] in
   let keywords := get (album_Keywords album_info) [] in
   let st' := save_album_metadata os_refuses album_info album_path st in
   (st' = st ↔
      is_Some (disk st !! m) ∨ (title = [] ∧ description = [] ∧ keywords = []) ∨
      is_Some (open_for_writing os_refuses m (disk st))) ∧
   (st' ≠ st →
      st' = incr_album_metadata_saved
              (set_disk (<[m := File (labelled (str "Gallery Title") title ++
                                      labelled (str "Gallery Description") description ++
                                      labelled (str "Keywords") keywords)]> (disk st))
                        st))).
Proof.
  split; [|split].
  - unfold with_suffix. case_decide; [done|]. split; [done|]. by intros.
  - intros m Hm title caption keywords st'.
    assert (m = removelast image_path ++ [stem image_path ++ str ".txt"]) as Hpath.
    { unfold with_suffix in Hm. case_decide; [done|]. by injection Hm as <-. }
    split; [done|]. subst st'. unfold save_image_metadata. rewrite Hm.
    fold title caption keywords.
    destruct (exists_ (disk st) m) eqn:He.
    { apply exists_true in He. simpl. split; [done|]. split; [by split; [left|]|done]. }
    apply exists_false in He.
    destruct (decide (title = [] ∧ caption = [] ∧ keywords = [])) as [Hempty|Hfields].
    { simpl. split; [done|]. split; [by split; [right; left|]|done]. }
    destruct (open_for_writing os_refuses m (disk st)) as [e|] eqn:Ho.
    { simpl. split; [done|]. split; [split; [right; right; by eexists|done]|done]. }
    simpl. split; [done|]. split.
    + split; [by intros ?%incr_metadata_saved_neq|].
      intros [[? Hs]|[?|[? ?]]]; [congruence|done|done].
    + intros _. by rewrite sidecar_text_three.
  - intros m title description keywords st'. subst st'. unfold save_album_metadata.
    rewrite album_sidecar_path. fold m title description keywords.
    destruct (exists_ (disk st) m) eqn:He.
    { apply exists_true in He. split; [by split; [left|]|done]. }
    apply exists_false in He.
    destruct (decide (title = [] ∧ description = [] ∧ keywords = [])) as [Hempty|Hfields].
    { split; [by split; [right; left|]|done]. }
    destruct (open_for_writing os_refuses m (disk st)) as [e|] eqn:Ho.
    { split; [split; [right; right; by eexists|done]|done]. }
    split.
    + split; [by intros ?%incr_album_metadata_saved_neq|].
      intros [[? Hs]|[?|[? ?]]]; [congruence|done|done].
    + intros _. by rewrite sidecar_text_three.
Qed.

End Sidecars.

(** Claim C5, as amended. [sanitize_filename] returns the same name when
    applied twice to a name of at most 200 characters, and more generally
    whenever its first result does not end in a dot or a space. For every
    input the result holds none of the reserved characters and has at most
    200 characters. An input made of dots and spaces only (the empty input
    included) gives the placeholder [unnamed]; an input made of reserved
    characters only gives as many underscores. *)
Theorem sanitize_filename_properties (x : pystr) :
  (length x ≤ 200 → sanitize_filename (sanitize_filename x) = sanitize_filename x) ∧
  ((∀ c, last (sanitize_filename x) = Some c → c ≠ "."%char ∧ c ≠ " "%char) →
   sanitize_filename (sanitize_filename x) = sanitize_filename x) ∧
  (∀ c, c ∈ invalid_chars → c ∉ sanitize_filename x) ∧
  length (sanitize_filename x) ≤ 200 ∧
  (Forall (λ c, c = "."%char ∨ c = " "%char) x → sanitize_filename x = str "unnamed") ∧
  (Forall (λ c, c ∈ invalid_chars) x → x ≠ [] → length x ≤ 200 →
   sanitize_filename x = replicate (length x) "_"%char).
Proof.
  split; [|split; [|split; [|split; [|split]]]].
  - intros Hlen. by apply sanitize_filename_idem_ends, sanitize_filename_short_ends.
  - intros Hlast. apply sanitize_filename_idem_ends. intros c Hc.
    destruct (Hlast c Hc) as [H1 H2].
    intros [?|[?|[]%elem_of_nil]%elem_of_cons]%elem_of_cons; done.
  - apply sanitize_filename_reserved.
  - apply sanitize_filename_length.
  - apply sanitize_filename_blank.
  - intros Hall Hne Hlen.
    assert (replace_invalid x = replicate (length x) "_"%char) as Hrep.
    { rewrite replace_invalid_map. clear Hne Hlen.
      induction Hall as [|c x Hc _ IH]; [done|]. csimpl. rewrite IH. by rewrite decide_True. }
    assert (length (replicate (length x) "_"%char) = length x) as Hl by apply length_replicate.
    rewrite sanitize_filename_unfold. cbv zeta. rewrite Hrep.
    rewrite strip_id.
    + rewrite truncate_id by lia. rewrite decide_False; [done|].
      destruct x; [done|]. discriminate.
    + intros c Hc. destruct x; [done|]. simpl in Hc. injection Hc as <-. by_compute.
    + intros c Hc. apply last_Some_elem_of, elem_of_replicate in Hc as [-> _]. by_compute.
Qed.

Lemma sanitize_filename_properties_witness :
  sanitize_filename (sanitize_filename (str " ..a<b>:c.. "))
  = sanitize_filename (str " ..a<b>:c.. ").
Proof.
  apply (proj1 (sanitize_filename_properties (str " ..a<b>:c.. "))). vm_compute. lia.
Defined.

Lemma sanitize_filename_counterexample :
  sanitize_filename (sanitize_filename (replicate 199 "a"%char ++ str " b"))
  ≠ sanitize_filename (replicate 199 "a"%char ++ str " b") ∧
  Forall (λ c, c ∈ invalid_chars) (str "???") ∧
  sanitize_filename (str "???") ≠ str "unnamed".
Proof.
  split; [|split].
  - intros H. apply (f_equal length) in H. vm_compute in H. discriminate.
  - repeat constructor; by_compute.
  - vm_compute. discriminate.
Qed.


Lemma collision_renaming_witness :
  (plan_album (str "Album")
     ([sample_image "K1" "a.jpg"] ++ [sample_image "K2" "a.jpg"]) (initial_state ∅)).1
  = [(sample_image "K1" "a.jpg", str "a.jpg"); (sample_image "K2" "a.jpg", str "a_2.jpg")].
Proof.
  destruct (collision_renaming (str "Album") [sample_image "K1" "a.jpg"]
              (sample_image "K2" "a.jpg") (initial_state ∅)) as (_ & _ & _ & H).
  destruct (H (sample_image "K1" "a.jpg") (str "K1") (str "K2")) as (H1 & _);
    [reflexivity|discriminate|discriminate|discriminate|reflexivity..|].
  exact H1.
Defined.

Lemma collision_renaming_counterexample :
  ¬ first_occurrence_keeps_name (str "Album")
      [sample_image "K1" "a.jpg"; sample_image "K2" "a.jpg"; sample_image "K3" "a_2.jpg"]
      (initial_state ∅) ∧
  ¬ later_occurrence_is_renamed (str "Album")
      [sample_image "K1" "x.jpg"; sample_image "K1" "a.jpg"; sample_image "K2" "a.jpg"]
      (initial_state ∅).
Proof.
  split.
  - intros H. specialize (H 2 (sample_image "K3" "a_2.jpg") eq_refl eq_refl).
    assert ((sample_image "K3" "a_2.jpg", str "a_2.jpg")
            ∈ [(sample_image "K1" "a.jpg", str "a.jpg");
               (sample_image "K2" "a.jpg", str "a_2.jpg");
               (sample_image "K3" "a_2.jpg", str "a_2_2.jpg")]) as Hin.
    { apply H. intros [|[|j]] img' Hj Hl; [| |lia]; injection Hl as <-; discriminate. }
    repeat (apply elem_of_cons in Hin as [Hin|Hin]; [discriminate|]).
    by apply elem_of_nil in Hin.
  - intros H.
    destruct (H 2 1 (sample_image "K2" "a.jpg") (sample_image "K1" "a.jpg"))
      as (n & _ & Hin); [lia|reflexivity|reflexivity|reflexivity|discriminate|reflexivity|].
    assert ((sample_image "K2" "a.jpg", numbered (str "a") n (str ".jpg"))
            ∈ [(sample_image "K1" "x.jpg", str "x.jpg");
               (sample_image "K2" "a.jpg", str "a.jpg")]) as Hin' by exact Hin.
    repeat (apply elem_of_cons in Hin' as [Hin'|Hin']; [discriminate|]).
    by apply elem_of_nil in Hin'.
Qed.

Lemma existing_destination_is_never_overwritten_witness :
  (∃ q x st',
     state_of (download_image sample_base never_refuses (sample_image "K1" "a.jpg")
                 sample_path (str "A") (initial_state sample_disk)) = st' ∧
     q = sample_base ++ [str "Skipped_Images"] ++ [str "F"; str "A"] ++ [x] ∧
     q ≠ sample_path ∧
     skipped_log st' = [(str "a.jpg", str "A", str "K1", sample_path, q)]) ∧
  disk (download_plan sample_base never_refuses sample_album_path (str "A")
          [(sample_image "K1" "a.jpg", str "a.jpg")] (initial_state sample_disk))
    !! sample_path = Some (File (str "old")).
Proof.
  destruct (existing_destination_is_never_overwritten sample_base never_refuses
              (sample_image "K1" "a.jpg") sample_path (str "A") (initial_state sample_disk))
    as (_ & Hredirect & Hrerun & _).
  split.
  - assert (is_Some (mkdir_parents (sample_base ++ [str "Skipped_Images"] ++ [str "F"; str "A"])
                         (disk (initial_state sample_disk)))) as [fs1 Hmk]
      by (apply (bool_decide_unpack _); vm_compute; exact I).
    destruct (Hredirect [str "F"; str "A"] fs1)
      as (q & x & b & st' & Heq & Hq & Hne & _ & _ & _ & Hlog & _).
    + exists (File (str "old")). by vm_compute.
    + apply (bool_decide_unpack _). vm_compute. exact I.
    + by vm_compute.
    + exact Hmk.
    + exists q, x, st'. rewrite Heq. split; [reflexivity|]. split; [exact Hq|].
      split; [exact Hne|exact Hlog].
  - destruct (Hrerun sample_album_path [(sample_image "K1" "a.jpg", str "a.jpg")])
      as [Hkeep _].
    + apply (bool_decide_unpack _). vm_compute. exact I.
    + intros image final_filename Hin. apply list_elem_of_singleton in Hin.
      injection Hin as -> ->. exists (File (str "old")). by vm_compute.
    + apply Hkeep. by vm_compute.
Defined.


Lemma skip_is_logged_before_the_download_witness :
  ∃ q reason st',
    download_image sample_base never_refuses (refused_image "K1" "a.jpg")
      sample_path (str "A") (initial_state sample_disk) = Returns false st' ∧
    skipped_log st' = [(str "a.jpg", str "A", str "K1", sample_path, q)] ∧
    failed_downloads st' = [(str "a.jpg", str "A", reason)] ∧
    disk st' !! q = None.
Proof.
  assert (is_Some (mkdir_parents (sample_base ++ [str "Skipped_Images"] ++ [str "F"; str "A"])
                     (disk (initial_state sample_disk)))) as [fs1 Hmk]
    by (apply (bool_decide_unpack _); vm_compute; exact I).
  destruct (skip_is_logged_before_the_download sample_base never_refuses
              (refused_image "K1" "a.jpg") sample_path (str "A") (initial_state sample_disk)
              [str "F"; str "A"] fs1)
    as (q & _ & _ & _ & _ & H).
  - exists (File (str "old")). by vm_compute.
  - by vm_compute.
  - exact Hmk.
  - destruct H as (reason & st' & H1 & _ & H3 & _ & H5 & H6 & _); [by right|].
    exists q, reason, st'. split; [exact H1|]. split; [exact H3|]. split; [exact H5|exact H6].
Defined.

Lemma listing_failures_are_contained_witness :
  fetch_images unlisted_album = [] ∧
  ∃ st', process_album sample_base never_refuses unlisted_album [str "dl"; str "F"]
           (initial_state ∅) = Returns tt st'.
Proof.
  destruct (listing_failures_are_contained sample_base never_refuses)
    as (Hfetch & _ & _ & Halbum & _).
  split.
  - apply (Hfetch unlisted_album (Response 500 None)); reflexivity.
  - assert (is_Some (mkdir_parents
                (joinpath [str "dl"; str "F"]
                   (sanitize_filename (get (album_Name unlisted_album) (str "Unnamed Album"))))
                (disk (initial_state ∅)))) as [fs1 Hmk]
      by (apply (bool_decide_unpack _); vm_compute; exact I).
    apply (Halbum unlisted_album (Response 500 None) [str "dl"; str "F"] (initial_state ∅) fs1);
      [discriminate|reflexivity|reflexivity|exact Hmk].
Defined.

Lemma listing_failures_counterexample :
  listing_failed (Response 500 None : http_result page) = true ∧
  fetch_images sample_album = [sample_image "K1" "a.jpg"] ∧
  fetch_images sample_album ≠ [].
Proof. split; [done|]. split; [done|]. discriminate. Qed.

Lemma sidecar_writers_witness :
  save_album_metadata never_refuses sample_album sample_album_path (initial_state ∅)
  = incr_album_metadata_saved
      (set_disk
         (<[ sample_album_path ++ [str "My_Album.txt"] :=
               File (str "Gallery Title: My Album" ++ [newline] ++
                     str "Gallery Description: Holidays" ++ [newline]) ]> ∅)
         (initial_state ∅)).
Proof.
  destruct (sidecar_writers never_refuses (sample_image "K1" "a.jpg") sample_path
              sample_album sample_album_path (initial_state ∅)) as (_ & _ & _ & H).
  rewrite H; [reflexivity|].
  intros Heq. apply (f_equal total_album_metadata_saved) in Heq. vm_compute in Heq.
  discriminate.
Defined.

Lemma sidecar_writers_counterexample :
  disk (save_album_metadata never_refuses sample_album sample_album_path (initial_state ∅))
    !! (sample_album_path ++ [sanitize_filename (str "My Album") ++ str ".txt"]) = None ∧
  is_Some (disk (save_album_metadata never_refuses sample_album sample_album_path
                   (initial_state ∅))
             !! (sample_album_path ++ [str "My_Album.txt"])) ∧
  sanitize_filename (str "My Album") ++ str ".txt" = str "My Album.txt" ∧
  save_album_metadata always_refuses sample_album sample_album_path (initial_state ∅)
  = initial_state ∅.
Proof.
  split; [by vm_compute|]. split; [|split; [by vm_compute|reflexivity]].
  eexists. by vm_compute.
Qed.

(** * Further properties of the code *)

(** ** The statistics of a run *)

Lemma keeps_refl fs : keeps fs fs.
Proof. by intros p n. Qed.

Lemma keeps_trans fs1 fs2 fs3 : keeps fs1 fs2 → keeps fs2 fs3 → keeps fs1 fs3.
Proof. intros H1 H2 p n Hp. by apply H2, H1. Qed.

Lemma keeps_insert_fresh (fs : FS) p n : fs !! p = None → keeps fs (<[p := n]> fs).
Proof. intros Hp q m Hq. rewrite lookup_insert_ne; [done|]. intros <-. congruence. Qed.

Lemma grows_refl st : grows st st.
Proof. by split. Qed.

Lemma grows_trans st1 st2 st3 : grows st1 st2 → grows st2 st3 → grows st1 st3.
Proof.
  intros [] []. split; try (etrans; eassumption).
Qed.

Lemma run_step_refl st : run_step st st.
Proof. split; [apply keeps_refl|]. split; [apply grows_refl|done]. Qed.

Lemma run_step_trans st1 st2 st3 : run_step st1 st2 → run_step st2 st3 → run_step st1 st3.
Proof.
  intros (K1 & G1 & F1) (K2 & G2 & F2). split; [by eapply keeps_trans|].
  split; [by eapply grows_trans|]. auto.
Qed.

Lemma downloads_effect_refl st : downloads_effect 0 0 st st.
Proof. split; try done; try lia. apply keeps_refl. Qed.

Lemma downloads_effect_trans w1 s1 w2 s2 st1 st2 st3 :
  downloads_effect w1 s1 st1 st2 → downloads_effect w2 s2 st2 st3 →
  downloads_effect (w1 + w2) (s1 + s2) st1 st3.
Proof.
  intros [] []. split; try (etrans; eassumption); try lia; try congruence.
  by eapply keeps_trans.
Qed.

Lemma downloads_effect_grows w s st st' : downloads_effect w s st st' → grows st st'.
Proof.
  intros [Hdisk Hdl Hf Hw Hsl Hs Hsb Hm Hmb Hi Ha Hfo Ham Hd Hr Hdlog Hrlog].
  split; try done; try lia.
  - apply prefix_length in Hsl. lia.
  - by rewrite Hdlog.
  - by rewrite Hrlog.
Qed.

Lemma plan_effect_grows n m st st' : plan_effect n m st st' → m ≤ n → grows st st'.
Proof.
  intros [Hdl Hd Hdc Hrl Hr Hrb Hdisk Hdown Hsk Hi Ha Hfo Hmd Ham Hf Hsl] Hm.
  split; try done; try lia.
  - apply prefix_length in Hrl. lia.
  - by rewrite Hf.
  - by rewrite Hsl.
Qed.

Lemma prefix_snoc {A} (l : list A) x : l `prefix_of` l ++ [x].
Proof. by exists [x]. Qed.

Section Statistics.

Variable base_path : Path.
Variable os_refuses : Path → option py_exception.

Lemma transfer_outcome image_info download_path album_name st st1 q :
  transfer_start st st1 → disk st1 !! q = None →
  download_outcome download_path album_name st
    (if decide (get (resolved_url image_info) [] = [])
     then Returns false (push_failed (name download_path, album_name, no_url_reason) st1)
     else fetch_file os_refuses image_info q (name download_path) album_name st1).
Proof.
  intros Hstart Hq. case_decide; [by apply outcome_failed|].
  destruct (fetch_file_cases os_refuses image_info q (name download_path) album_name st1 Hq)
    as [(reason & ->)|(sc & rc & st' & _ & _ & -> & [->|(m & t & _ & Hmq & Hm & ->)])].
  - by apply outcome_failed.
  - by apply outcome_saved.
  - by apply outcome_saved_with_sidecar.
Qed.

Lemma download_image_outcome image_info download_path album_name st :
  download_outcome download_path album_name st
    (download_image base_path os_refuses image_info download_path album_name st).
Proof.
  destruct (disk st !! download_path) as [n|] eqn:Hd.
  - rewrite download_image_existing by (rewrite Hd; eauto).
    destruct (quarantine_cases base_path image_info download_path album_name st)
      as [[e ->]|(rel & fs1 & q & Hrel & Hmk & -> & Hfree)]; [apply outcome_raised|].
    apply transfer_outcome; [|done].
    apply start_skipped. intros p m. apply (mkdir_parents_keeps _ _ _ _ _ Hmk).
  - rewrite download_image_fresh by done. apply transfer_outcome; [constructor|done].
Qed.

Lemma transfer_start_effect st st1 : transfer_start st st1 → downloads_effect 0 1 st st1.
Proof.
  intros [|fs1 e Hk].
  - split; try done; try lia. apply keeps_refl.
  - split; cbn; rewrite ?length_app; cbn; try done; try lia. apply prefix_snoc.
Qed.

Lemma push_failed_effect e st : downloads_effect 1 0 st (push_failed e st).
Proof.
  split; cbn; rewrite ?length_app; cbn; try done; try lia;
    [apply keeps_refl|apply prefix_snoc].
Qed.

Lemma saved_effect st q received :
  disk st !! q = None →
  downloads_effect 1 0 st (incr_downloaded (set_disk (<[q := File received]> (disk st)) st)).
Proof.
  intros Hq. split; [by apply keeps_insert_fresh|cbn; try done; try lia..].
Qed.

Lemma saved_with_sidecar_effect st q received m text :
  disk st !! q = None → disk st !! m = None → m ≠ q →
  downloads_effect 1 0 st
    (incr_downloaded
       (incr_metadata_saved
          (set_disk (<[m := File text]> (<[q := File received]> (disk st))) st))).
Proof.
  intros Hq Hm Hmq. split; [|cbn; try done; try lia..].
  apply (keeps_trans _ (<[q := File received]> (disk st))); [by apply keeps_insert_fresh|].
  apply keeps_insert_fresh. by rewrite lookup_insert_ne.
Qed.

Lemma download_outcome_effect download_path album_name st o :
  download_outcome download_path album_name st o → downloads_effect 1 1 st (state_of o).
Proof.
  intros [e|st1 reason Hs|st1 q received Hs Hq|st1 q received m text Hs Hq Hm Hmq];
    cbn [state_of].
  - split; try done; try lia. apply keeps_refl.
  - apply (downloads_effect_trans 0 1 1 0 st st1);
      [by apply transfer_start_effect|apply push_failed_effect].
  - apply (downloads_effect_trans 0 1 1 0 st st1);
      [by apply transfer_start_effect|by apply saved_effect].
  - apply (downloads_effect_trans 0 1 1 0 st st1);
      [by apply transfer_start_effect|by apply saved_with_sidecar_effect].
Qed.

Lemma download_plan_effect album_path album_name plan st :
  downloads_effect (length plan) (length plan) st
    (download_plan base_path os_refuses album_path album_name plan st).
Proof.
  revert st. induction plan as [|[image final_filename] plan IH]; intros st.
  - apply downloads_effect_refl.
  - cbn [download_plan length].
    apply (downloads_effect_trans 1 1 (length plan) (length plan) st
             (state_of (download_image base_path os_refuses image
                          (joinpath album_path final_filename) album_name st)));
      [|apply IH].
    eapply download_outcome_effect, download_image_outcome.
Qed.

Lemma plan_effect_refl st : plan_effect 0 0 st st.
Proof. split; try done; lia. Qed.

Lemma plan_effect_trans n1 m1 n2 m2 st1 st2 st3 :
  plan_effect n1 m1 st1 st2 → plan_effect n2 m2 st2 st3 →
  plan_effect (n1 + n2) (m1 + m2) st1 st3.
Proof.
  intros [] []. split; try (etrans; eassumption); try lia; try congruence.
Qed.

Lemma plan_step_effect album_name idx img pl st r :
  plan_step album_name idx img pl st r →
  ∃ m, m ≤ 1 ∧ plan_effect 1 m st r.2 ∧
       length (processed_images r.1) = length (processed_images pl) + m.
Proof.
  intros [orig Hs|Hs Hu|other Hs Hu]; cbn [fst snd processed_images].
  - exists 0. split; [lia|]. split; [|lia].
    split; cbn; rewrite ?length_app; cbn; try done; try lia. apply prefix_snoc.
  - exists 1. split; [lia|]. split; [|by rewrite length_app].
    split; cbn; try done; lia.
  - exists 1. split; [lia|]. split; [|by rewrite length_app].
    split; cbn; rewrite ?length_app; cbn; try done; try lia. apply prefix_snoc.
Qed.

Lemma plan_images_effect album_name idx images pl st :
  ∃ m, m ≤ length images ∧
    plan_effect (length images) m st (plan_images album_name idx images (pl, st)).2 ∧
    length (processed_images (plan_images album_name idx images (pl, st)).1)
    = length (processed_images pl) + m.
Proof.
  revert idx pl st. induction images as [|img images IH]; intros idx pl st.
  - exists 0. split; [done|]. split; [apply plan_effect_refl|cbn; lia].
  - cbn [plan_images length].
    destruct (plan_step_effect album_name idx img pl st _ (plan_image_step album_name idx img pl st))
      as (m1 & Hm1 & He1 & Hl1).
    destruct (plan_image album_name idx img (pl, st)) as [pl1 st1]. cbn [fst snd] in *.
    destruct (IH (S idx) pl1 st1) as (m2 & Hm2 & He2 & Hl2).
    exists (m1 + m2). split; [lia|]. split; [|lia].
    by apply (plan_effect_trans 1 m1 (length images) m2 st st1).
Qed.

(** Planning touches only the counters and logs of duplicates and renames. *)
Lemma plan_album_effect album_name images st :
  length (plan_album album_name images st).1 ≤ length images ∧
  plan_effect (length images) (length (plan_album album_name images st).1)
    st (plan_album album_name images st).2.
Proof.
  rewrite plan_album_eq. cbn [fst snd].
  destruct (plan_images_effect album_name 0 images empty_planning st) as (m & Hm & He & Hl).
  cbn in Hl. rewrite Hl. by split.
Qed.

Lemma save_album_metadata_cases album_info album_path st :
  save_album_metadata os_refuses album_info album_path st = st ∨
  ∃ m text, disk st !! m = None ∧
    save_album_metadata os_refuses album_info album_path st
    = incr_album_metadata_saved (set_disk (<[m := File text]> (disk st)) st).
Proof.
  unfold save_album_metadata.
  destruct (exists_ (disk st) _) eqn:He; [by left|]. apply exists_false in He.
  case_decide; [by left|].
  destruct (open_for_writing os_refuses _ (disk st)); [by left|].
  right. by eexists _, _.
Qed.

Lemma figures_after_album (st0 st1 st2 st3 st4 : state) (n m : nat) (fs : FS) :
  keeps (disk st0) fs →
  st1 = set_disk fs st0 →
  (st2 = st1 ∨ ∃ p text, disk st1 !! p = None ∧
     st2 = incr_album_metadata_saved (set_disk (<[p := File text]> (disk st1)) st1)) →
  st3 = incr_albums (add_images n st2) →
  m ≤ n → plan_effect n m st3 st4 →
  ∀ st5, downloads_effect m m st4 st5 → run_step st0 st5.
Proof.
  intros Hfs -> Hst2 -> Hm
    [Hdl Hd Hdc Hrl Hr Hrb Hdisk Hdown Hsk Hi Ha Hfo Hmd Ham Hf Hsl] st5
    [Kdisk Kdl Kf Kw Ksl Ks Ksb Km Kmb Ki Ka Kfo Kam Kd Kr Kdlog Krlog].
  assert (keeps (disk st0) (disk st2) ∧
          total_album_metadata_saved st0 ≤ total_album_metadata_saved st2
          ≤ S (total_album_metadata_saved st0) ∧
          total_downloaded st2 = total_downloaded st0 ∧
          total_skipped st2 = total_skipped st0 ∧
          total_images st2 = total_images st0 ∧ total_albums st2 = total_albums st0 ∧
          total_folders st2 = total_folders st0 ∧
          total_metadata_saved st2 = total_metadata_saved st0 ∧
          total_duplicates st2 = total_duplicates st0 ∧
          total_renamed st2 = total_renamed st0 ∧
          failed_downloads st2 = failed_downloads st0 ∧
          duplicate_log st2 = duplicate_log st0 ∧
          renamed_files st2 = renamed_files st0 ∧
          skipped_log st2 = skipped_log st0)
    as (K2 & Ham2 & Hdl2 & Hsk2 & Hi2 & Ha2 & Hfo2 & Hmd2 & Hd2 & Hr2 & Hf2 & Hdl2' & Hrl2 & Hsl2).
  { destruct Hst2 as [->|(p & text & Hp & ->)]; cbn.
    - split; [done|]. repeat split; lia.
    - split; [|repeat split; lia].
      eapply keeps_trans; [exact Hfs|]. by apply keeps_insert_fresh. }
  cbn in Hdl, Hd, Hdc, Hrl, Hr, Hrb, Hdisk, Hdown, Hsk, Hi, Ha, Hfo, Hmd, Ham, Hf, Hsl.
  split; [|split].
  - eapply keeps_trans; [exact K2|]. by rewrite Hdisk in Kdisk.
  - pose proof (prefix_length _ _ Hrl). pose proof (prefix_length _ _ Ksl).
    split; try lia.
    + by rewrite <- Hf2, <- Hf.
    + by rewrite Kdlog, <- Hdl2'.
    + by rewrite Krlog, <- Hrl2.
    + by rewrite <- Hsl2, <- Hsl.
  - intros [F1 F2 F3 F4 F5 F6 F7 F8].
    apply prefix_length in Hrl, Hdl, Kf, Ksl.
    apply (f_equal length) in Hf, Hsl, Hf2, Hdl2', Hrl2, Hsl2, Kdlog, Krlog.
    split; lia.
Qed.

Lemma process_album_run_step (a : album) folder_path st :
  run_step st (state_of (process_album base_path os_refuses a folder_path st)).
Proof.
  unfold process_album. case_decide; [apply run_step_refl|].
  destruct (mkdir_parents _ _) as [fs|] eqn:Hmk; [|apply run_step_refl].
  set (album_path := joinpath folder_path _).
  pose proof (save_album_metadata_cases a album_path (set_disk fs st)) as Hsave.
  set (st2 := save_album_metadata os_refuses a album_path (set_disk fs st)) in *.
  assert (keeps (disk st) fs) as Hfs
    by (intros p n Hp; by apply (mkdir_parents_keeps _ _ _ _ _ Hmk)).
  set (images := fetch_images a).
  case_decide as Himages.
  { rewrite Himages. cbn [state_of length].
    eapply (figures_after_album st _ st2 _ _ 0 0 fs Hfs eq_refl Hsave eq_refl);
      [done|apply plan_effect_refl|apply downloads_effect_refl]. }
  destruct (plan_album_effect (get (album_Name a) (str "Unnamed Album")) images
              (incr_albums (add_images (length images) st2))) as [Hlen He].
  destruct (plan_album _ images _) as [plan st4]. cbn [fst snd] in Hlen, He.
  case_decide as Hplan.
  - subst plan. cbn [state_of].
    eapply (figures_after_album st _ st2 _ st4 (length images) 0 fs Hfs eq_refl Hsave eq_refl);
      [lia|exact He|apply downloads_effect_refl].
  - cbn [state_of].
    eapply (figures_after_album st _ st2 _ st4 (length images) (length plan) fs Hfs
              eq_refl Hsave eq_refl); [lia|exact He|apply download_plan_effect].
Qed.

Lemma process_albums_run_step albums folder_path st :
  run_step st (state_of (process_albums base_path os_refuses albums folder_path st)).
Proof.
  revert st. induction albums as [|a albums IH]; intros st; [apply run_step_refl|].
  cbn [process_albums].
  pose proof (process_album_run_step a folder_path st) as Ha.
  destruct (process_album _ _ a folder_path st) as [[] st'|e st']; cbn [state_of] in *.
  - eapply run_step_trans; [exact Ha|apply IH].
  - exact Ha.
Qed.

Lemma folder_ind' (P : folder → Prop) :
  (∀ folder_name albums_data subfolders_data,
     match subfolders_data with
     | Some (Response _ (Some subfolders)) => Forall P subfolders
     | _ => True
     end → P (Folder folder_name albums_data subfolders_data)) →
  ∀ f, P f.
Proof.
  intros HP. fix IH 1. intros [folder_name albums_data subfolders_data].
  apply HP. destruct subfolders_data as [[e|status_code [subfolders|]]|]; try exact I.
  induction subfolders as [|f subfolders IHs]; constructor; [apply IH|exact IHs].
Qed.

Lemma incr_folders_run_step (fs : FS) st :
  keeps (disk st) fs → run_step st (incr_folders (set_disk fs st)).
Proof.
  intros Hfs. split; [done|]. split.
  - split; cbn; try done; lia.
  - intros []. split; cbn; try done; lia.
Qed.

Lemma process_folder_run_step f parent_path st :
  run_step st (state_of (process_folder base_path os_refuses f parent_path st)).
Proof.
  revert parent_path st. induction f as [folder_name albums_data subfolders_data IH]
    using folder_ind'. intros parent_path st.
  rewrite process_folder_unfold. cbv zeta.
  destruct (mkdir_parents _ _) as [fs|] eqn:Hmk; [|apply run_step_refl].
  cbn [state_of].
  set (folder_path := joinpath parent_path _).
  eapply run_step_trans.
  { apply (incr_folders_run_step fs).
    intros p n Hp. by apply (mkdir_parents_keeps _ _ _ _ _ Hmk). }
  set (st1 := incr_folders (set_disk fs st)).
  eapply (run_step_trans _
            (match albums_data with
             | Some (Response status_code (Some albums)) =>
                 if decide (status_code = 200)
                 then state_of (process_albums base_path os_refuses albums folder_path st1)
                 else st1
             | _ => st1
             end)).
  { destruct albums_data as [[e|status_code [albums|]]|]; try apply run_step_refl.
    case_decide; [apply process_albums_run_step|apply run_step_refl]. }
  generalize (match albums_data with
             | Some (Response status_code (Some albums)) =>
                 if decide (status_code = 200)
                 then state_of (process_albums base_path os_refuses albums folder_path st1)
                 else st1
             | _ => st1
             end). intros st2.
  destruct subfolders_data as [[e|status_code [subfolders|]]|]; try apply run_step_refl.
  case_decide; [|apply run_step_refl]. clear Hmk.
  revert st2. induction IH as [|f subfolders Hf _ IHs]; intros st2; [apply run_step_refl|].
  pose proof (Hf folder_path st2) as Hstep.
  destruct (process_folder _ _ f folder_path st2) as [[] st3|e st3]; cbn [state_of] in *.
  - eapply run_step_trans; [exact Hstep|apply IHs].
  - exact Hstep.
Qed.

Lemma process_folders_run_step folders st :
  run_step st (state_of (process_folders base_path os_refuses folders st)).
Proof.
  revert st. induction folders as [|f folders IH]; intros st; [apply run_step_refl|].
  cbn [process_folders].
  pose proof (process_folder_run_step f base_path st) as Hf.
  destruct (process_folder _ _ f base_path st) as [[] st'|e st']; cbn [state_of] in *.
  - eapply run_step_trans; [exact Hf|apply IH].
  - exact Hf.
Qed.

(** *** The audit files *)

Lemma write_log_cases filename text st :
  write_log base_path os_refuses filename text st = st ∨
  (open_for_writing os_refuses (joinpath base_path filename) (disk st) = None ∧
   write_log base_path os_refuses filename text st
   = set_disk (<[joinpath base_path filename := File text]> (disk st)) st).
Proof.
  unfold write_log. destruct (open_for_writing _ _ _); [by left|by right].
Qed.

Lemma write_log_same_figures filename text st :
  same_figures st (write_log base_path os_refuses filename text st).
Proof.
  destruct (write_log_cases filename text st) as [->|[_ ->]]; [apply set_disk_same|].
  by destruct st.
Qed.

Lemma same_figures_trans st1 st2 st3 :
  same_figures st1 st2 → same_figures st2 st3 → same_figures st1 st3.
Proof.
  unfold same_figures. intros H1 H2. rewrite <- H1 at 2. rewrite <- H2. by destruct st3.
Qed.

Lemma write_log_other filename text st (p : Path) :
  p ≠ joinpath base_path filename →
  disk (write_log base_path os_refuses filename text st) !! p = disk st !! p.
Proof.
  intros Hp. destruct (write_log_cases filename text st) as [->|[_ ->]]; [done|].
  cbn. by rewrite lookup_insert_ne.
Qed.

Lemma write_log_at filename text st :
  disk (write_log base_path os_refuses filename text st) !! joinpath base_path filename
  = match open_for_writing os_refuses (joinpath base_path filename) (disk st) with
    | None => Some (File text)
    | Some _ => disk st !! joinpath base_path filename
    end.
Proof.
  unfold write_log. destruct (open_for_writing _ _ _); [done|].
  cbn. by rewrite lookup_insert_eq.
Qed.

Lemma open_for_writing_ext (p : Path) (fs fs' : FS) :
  fs !! p = fs' !! p → open_for_writing os_refuses p fs = open_for_writing os_refuses p fs'.
Proof. unfold open_for_writing. by intros ->. Qed.

Lemma write_entries_cons f ne text (entries : list (pystr * bool * pystr)) st :
  write_entries base_path os_refuses ((f, ne, text) :: entries) st
  = write_entries base_path os_refuses entries
      (if ne then write_log base_path os_refuses f text st else st).
Proof. done. Qed.

Lemma write_entries_same_figures (entries : list (pystr * bool * pystr)) st :
  same_figures st (write_entries base_path os_refuses entries st).
Proof.
  revert st. induction entries as [|[[f ne] text] entries IH]; intros st;
    [apply set_disk_same|].
  rewrite write_entries_cons. destruct ne; [|apply IH].
  eapply same_figures_trans; [apply write_log_same_figures|apply IH].
Qed.

Lemma write_entries_other (entries : list (pystr * bool * pystr)) st (p : Path) :
  p ∉ (joinpath base_path <$> entries.*1.*1) →
  disk (write_entries base_path os_refuses entries st) !! p = disk st !! p.
Proof.
  revert st. induction entries as [|[[f ne] text] entries IH]; intros st Hp; [done|].
  rewrite write_entries_cons. csimpl in Hp.
  apply not_elem_of_cons in Hp as [Hp1 Hp2]. destruct ne; [|by apply IH].
  etrans; [by apply IH|]. by apply write_log_other.
Qed.

Lemma write_entries_at entries st (f : pystr) (ne : bool) (text : pystr) :
  NoDup (joinpath base_path <$> entries.*1.*1) →
  (f, ne, text) ∈ entries →
  disk (write_entries base_path os_refuses entries st) !! joinpath base_path f
  = if ne then
      match open_for_writing os_refuses (joinpath base_path f) (disk st) with
      | None => Some (File text)
      | Some _ => disk st !! joinpath base_path f
      end
    else disk st !! joinpath base_path f.
Proof.
  revert st. induction entries as [|[[f' ne'] text'] entries IH]; intros st Hnd Hin.
  { by apply elem_of_nil in Hin. }
  csimpl in Hnd. apply NoDup_cons in Hnd as [Hfresh Hnd].
  rewrite write_entries_cons.
  apply elem_of_cons in Hin as [[= <- <- <-]|Hin].
  - rewrite write_entries_other by done. destruct ne; [|done]. apply write_log_at.
  - assert (joinpath base_path f ≠ joinpath base_path f') as Hne.
    { intros Heq. apply Hfresh. rewrite <- Heq.
      apply list_elem_of_fmap. exists f. split; [done|].
      apply list_elem_of_fmap. exists (f, ne). split; [done|].
      apply list_elem_of_fmap. by exists (f, ne, text). }
    rewrite IH by done. destruct ne'; [|done].
    rewrite (open_for_writing_ext _ _ (disk st)) by by apply write_log_other.
    by rewrite write_log_other.
Qed.

Lemma audit_entries_names st : (audit_entries st).*1.*1 = audit_files.
Proof. done. Qed.

Lemma audit_paths_eq :
  audit_paths base_path = (λ f, base_path ++ [f]) <$> audit_files.
Proof.
  unfold audit_paths, audit_files. cbn [fmap list_fmap].
  by rewrite !joinpath_plain by by_compute.
Qed.

Lemma audit_paths_nodup : NoDup (audit_paths base_path).
Proof.
  rewrite audit_paths_eq. apply NoDup_fmap_2.
  - intros f1 f2 Heq. by apply app_inj_1 in Heq as [_ [= ->]].
  - by_compute.
Qed.

Lemma if_nonempty {A B} (l : list A) `{!Decision (l = [])} `{!Decision (l ≠ [])} (x y : B) :
  (if decide (l = []) then x else y) = (if bool_decide (l ≠ []) then y else x).
Proof.
  case_decide as Hl.
  - rewrite bool_decide_eq_false_2; [done|]. intros Hn. by apply Hn.
  - by rewrite bool_decide_eq_true_2.
Qed.

Lemma write_audit_logs_entries st :
  write_audit_logs base_path os_refuses st
  = write_entries base_path os_refuses (audit_entries st) st.
Proof.
  unfold write_audit_logs, write_entries, audit_entries. cbn [foldl fst snd].
  set (st1 := if decide (failed_downloads st = []) then st else _).
  assert (same_figures st st1) as H1
    by (subst st1; case_decide; [apply set_disk_same|apply write_log_same_figures]).
  assert (st1 = if bool_decide (failed_downloads st ≠ [])
                then write_log base_path os_refuses (str "failed_downloads.txt")
                       (failed_log_text st) st else st) as <-.
  { subst st1. apply if_nonempty. }
  set (st2 := if decide (duplicate_log st1 = []) then st1 else _).
  assert (same_figures st1 st2) as H2
    by (subst st2; case_decide; [apply set_disk_same|apply write_log_same_figures]).
  assert (duplicate_log st1 = duplicate_log st ∧
          duplicates_log_text st1 = duplicates_log_text st) as [E1 E1'].
  { unfold same_figures in H1. rewrite <- H1. by destruct st1. }
  assert (st2 = if bool_decide (duplicate_log st ≠ [])
                then write_log base_path os_refuses (str "duplicates.txt")
                       (duplicates_log_text st) st1 else st1) as <-.
  { subst st2. rewrite E1, E1'. apply if_nonempty. }
  set (st3 := if decide (renamed_files st2 = []) then st2 else _).
  assert (same_figures st2 st3) as H3
    by (subst st3; case_decide; [apply set_disk_same|apply write_log_same_figures]).
  pose proof (same_figures_trans _ _ _ H1 H2) as H12.
  assert (renamed_files st2 = renamed_files st ∧
          renamed_log_text st2 = renamed_log_text st) as [E2 E2'].
  { unfold same_figures in H12. rewrite <- H12. by destruct st2. }
  assert (st3 = if bool_decide (renamed_files st ≠ [])
                then write_log base_path os_refuses (str "renamed_files.txt")
                       (renamed_log_text st) st2 else st2) as <-.
  { subst st3. rewrite E2, E2'. apply if_nonempty. }
  pose proof (same_figures_trans _ _ _ H12 H3) as H123.
  assert (skipped_log st3 = skipped_log st ∧
          skipped_log_text st3 = skipped_log_text st) as [E3 E3'].
  { unfold same_figures in H123. rewrite <- H123. by destruct st3. }
  rewrite E3, E3'. apply if_nonempty.
Qed.

Lemma same_figures_run_step st st' :
  same_figures st st' → grows st st' ∧ (figures_consistent st → figures_consistent st').
Proof.
  unfold same_figures. intros <-. destruct st'. split.
  - by split.
  - intros []. by split.
Qed.

Lemma transfer_start_figures st st1 :
  transfer_start st st1 →
  total_downloaded st1 = total_downloaded st ∧ failed_downloads st1 = failed_downloads st.
Proof. by intros [|fs1 e _]. Qed.

(** Property X1. The outcome of [download_image] and its statistics. When
    it returns [True], exactly one download was counted and no failure
    recorded; when it returns [False], nothing was counted and exactly one
    failure was appended, under the name of the destination asked for; when
    it raises, the downloader and the disk are as they were. *)
Theorem download_image_accounting image_info download_path album_name st :
  match download_image base_path os_refuses image_info download_path album_name st with
  | Returns true st' =>
      total_downloaded st' = S (total_downloaded st) ∧
      failed_downloads st' = failed_downloads st
  | Returns false st' =>
      total_downloaded st' = total_downloaded st ∧
      ∃ reason,
        failed_downloads st'
        = failed_downloads st ++ [(name download_path, album_name, reason)]
  | Throws _ st' => st' = st
  end.
Proof.
  pose proof (download_image_outcome image_info download_path album_name st) as Ho.
  destruct Ho as [e|st1 reason Hs|st1 q received Hs Hq|st1 q received m text Hs Hq Hm Hmq];
    try (apply transfer_start_figures in Hs as [Hd Hf]); cbn.
  - done.
  - split; [done|]. exists reason. by rewrite Hf.
  - split; [by rewrite Hd|done].
  - split; [by rewrite Hd|done].
Qed.

Lemma process_folders_keeps (folders : list folder) (st : state) (p : Path) (n : node) :
  disk st !! p = Some n →
  disk (state_of (process_folders base_path os_refuses folders st)) !! p = Some n.
Proof. apply (process_folders_run_step folders st). Qed.

Lemma log_file_path_eq : log_file_path base_path = base_path ++ [str "download_log.txt"].
Proof. apply joinpath_plain; by_compute. Qed.

Lemma log_file_is_no_audit_file : log_file_path base_path ∉ audit_paths base_path.
Proof.
  rewrite log_file_path_eq, audit_paths_eq.
  intros (f & Heq & Hf)%list_elem_of_fmap. apply app_inj_1 in Heq as [_ [= <-]]; [|done].
  revert Hf. by_compute.
Qed.

Lemma on_disk_other (logger : option pystr) (fs : FS) (p : Path) :
  logger = None ∨ p ≠ log_file_path base_path →
  on_disk base_path logger fs !! p = fs !! p.
Proof.
  intros [->|Hp]; [done|]. destruct logger as [text|]; [|done].
  cbn. by rewrite lookup_insert_ne.
Qed.

Lemma on_disk_log (text : pystr) (fs : FS) :
  on_disk base_path (Some text) fs !! log_file_path base_path = Some (File text).
Proof. cbn. by rewrite lookup_insert_eq. Qed.

Lemma on_disk_is_Some (logger : option pystr) (fs : FS) (p : Path) :
  is_Some (fs !! p) → is_Some (on_disk base_path logger fs !! p).
Proof.
  intros Hp. destruct logger as [text|]; [|done].
  destruct (decide (p = log_file_path base_path)) as [->|Hne].
  - rewrite on_disk_log. eauto.
  - by rewrite on_disk_other by by right.
Qed.

(** Property X2. The traversal of the folders overwrites or removes
    nothing but the run log. For a downloader without a logger every entry
    of the disk, file or directory, is still there with the same content
    after [process_folder] has run on all top-level folders, whether it
    returned or raised. For a downloader with the logger of [main] the
    same holds of every entry other than [download_log.txt], which holds
    the log. *)
Theorem traversal_never_overwrites (folders : list folder) (st : state)
    (logger : option pystr) (p : Path) (n : node) :
  disk st !! p = Some n →
  let fs' := on_disk base_path logger
               (disk (state_of (process_folders base_path os_refuses folders st))) in
  (logger = None ∨ p ≠ log_file_path base_path → fs' !! p = Some n) ∧
  (∀ text, logger = Some text → fs' !! log_file_path base_path = Some (File text)).
Proof.
  intros Hp fs'. subst fs'. split.
  - intros Hlog. rewrite on_disk_other by done. by apply process_folders_keeps.
  - intros text ->. apply on_disk_log.
Qed.

Lemma download_all_cases root st :
  final_state (download_all base_path os_refuses root st) = st ∨
  (∃ folders, final_state (download_all base_path os_refuses root st)
              = state_of (process_folders base_path os_refuses folders st)) ∨
  (∃ folders, final_state (download_all base_path os_refuses root st)
              = write_audit_logs base_path os_refuses
                  (state_of (process_folders base_path os_refuses folders st))).
Proof.
  unfold download_all. destruct root as [e|status_code [folders|]]; try by left.
  - case_decide; [by left|].
    destruct (process_folders _ _ folders st) as [[] st'|e st'] eqn:Hp.
    + right; right. exists folders. by rewrite Hp.
    + right; left. exists folders. by rewrite Hp.
  - case_decide; by left.
Qed.

(** [download_all] on the disk without the run log. *)
Lemma download_all_keeps (root : http_result (list folder)) (st : state)
    (p : Path) (n : node) :
  disk st !! p = Some n →
  let fs' := disk (final_state (download_all base_path os_refuses root st)) in
  is_Some (fs' !! p) ∧ (p ∉ audit_paths base_path ∨ n = Dir → fs' !! p = Some n).
Proof.
  intros Hp fs'. subst fs'.
  destruct (download_all_cases root st) as [->|[[folders ->]|[folders ->]]].
  - by rewrite Hp.
  - rewrite (process_folders_keeps folders st p n Hp). eauto.
  - pose proof (process_folders_keeps folders st p n Hp) as Hp'.
    set (st1 := state_of (process_folders base_path os_refuses folders st)) in *.
    rewrite write_audit_logs_entries.
    destruct (decide (p ∈ audit_paths base_path)) as [Hin|Hout].
    + unfold audit_paths in Hin. apply list_elem_of_fmap in Hin as (f & -> & Hf).
      rewrite <- (audit_entries_names st1) in Hf.
      apply list_elem_of_fmap in Hf as ([f' ne] & Hf' & Hf).
      apply list_elem_of_fmap in Hf as ([[f'' ne'] text] & [= <- <-] & Hf).
      cbn in Hf'. subst f'.
      rewrite (write_entries_at _ _ f ne text); [| |done].
      2:{ rewrite audit_entries_names. apply audit_paths_nodup. }
      destruct ne; [|rewrite Hp'; split; [eauto|done]].
      unfold open_for_writing. rewrite Hp'. destruct n as [|c].
      * split; [eauto|done].
      * destruct (os_refuses _); (split; [eauto|]).
        -- done.
        -- intros [Hc|Hc]; [|done]. exfalso. apply Hc.
           apply list_elem_of_fmap. exists f. split; [done|].
           rewrite <- (audit_entries_names st1).
           apply list_elem_of_fmap. exists (f, true). split; [done|].
           apply list_elem_of_fmap. by exists (f, true, text).
    + rewrite write_entries_other, Hp'; [split; [eauto|done]|].
      by rewrite audit_entries_names.
Qed.

(** Property X3. [download_all] removes nothing from the disk. The only
    existing files whose content it may change are its four audit files
    ([failed_downloads.txt], [duplicates.txt], [renamed_files.txt],
    [skipped_images.txt], which are opened for writing) and, for a
    downloader with the logger of [main], the run log [download_log.txt],
    which holds the log; no other entry changes, and no directory is
    replaced. *)
Theorem download_all_keeps_the_tree (root : http_result (list folder)) (st : state)
    (logger : option pystr) (p : Path) (n : node) :
  disk st !! p = Some n →
  let fs' := on_disk base_path logger
               (disk (final_state (download_all base_path os_refuses root st))) in
  is_Some (fs' !! p) ∧
  (p ∉ audit_paths base_path ∨ n = Dir →
   logger = None ∨ p ≠ log_file_path base_path → fs' !! p = Some n) ∧
  (∀ text, logger = Some text → fs' !! log_file_path base_path = Some (File text)).
Proof.
  intros Hp fs'. subst fs'.
  destruct (download_all_keeps root st p n Hp) as [Hsome Hkeep].
  split; [by apply on_disk_is_Some|]. split.
  - intros Hwhere Hlog. rewrite on_disk_other by done. by apply Hkeep.
  - intros text ->. apply on_disk_log.
Qed.

Lemma download_all_run_step root st :
  grows st (final_state (download_all base_path os_refuses root st)) ∧
  (figures_consistent st →
   figures_consistent (final_state (download_all base_path os_refuses root st))).
Proof.
  destruct (download_all_cases root st) as [->|[[folders ->]|[folders ->]]].
  - split; [apply grows_refl|done].
  - apply (process_folders_run_step folders st).
  - destruct (process_folders_run_step folders st) as (_ & Hg & Hf).
    rewrite write_audit_logs_entries.
    destruct (same_figures_run_step _ _
                (write_entries_same_figures
                   (audit_entries (state_of (process_folders base_path os_refuses folders st)))
                   (state_of (process_folders base_path os_refuses folders st))))
      as [Hg' Hf'].
    split; [by eapply grows_trans|auto].
Qed.

(** Property X4. Along a whole run the nine counters never decrease and
    the four logs are only appended to: each log of the start is a prefix
    of the log at the end. *)
Theorem statistics_only_grow (root : http_result (list folder)) (st : state) :
  grows st (final_state (download_all base_path os_refuses root st)).
Proof. apply download_all_run_step. Qed.


(** The audit files on the disk without the run log. *)
Lemma write_audit_logs_spec (st : state) :
  let st' := write_audit_logs base_path os_refuses st in
  same_figures st st' ∧
  (∀ p : Path, p ∉ audit_paths base_path → disk st' !! p = disk st !! p) ∧
  (∀ (f : pystr) (nonempty : bool) (text : pystr),
     (f, nonempty, text) ∈ audit_entries st →
     joinpath base_path f ∈ audit_paths base_path ∧
     disk st' !! joinpath base_path f
     = if nonempty then
         match open_for_writing os_refuses (joinpath base_path f) (disk st) with
         | None => Some (File text)
         | Some _ => disk st !! joinpath base_path f
         end
       else disk st !! joinpath base_path f).
Proof.
  intros st'. subst st'. rewrite write_audit_logs_entries.
  split; [apply write_entries_same_figures|].
  split.
  - intros p Hp. apply write_entries_other. by rewrite audit_entries_names.
  - intros f ne text Hin. split.
    + apply list_elem_of_fmap. exists f. split; [done|].
      rewrite <- (audit_entries_names st).
      apply list_elem_of_fmap. exists (f, ne). split; [done|].
      apply list_elem_of_fmap. by exists (f, ne, text).
    + apply write_entries_at; [|done].
      rewrite audit_entries_names. apply audit_paths_nodup.
Qed.

(** Property X6. The audit files at the end of a run. Writing them changes
    nothing of the downloader but its disk, and on the disk nothing but the
    four audit files and, for a downloader with the logger of [main], the
    run log; the five paths are distinct. A category whose log is empty
    gets no file; a category with events gets a file with its text when
    the file can be opened, and is left as it was when it cannot. *)
Theorem audit_files_written (st : state) (logger : option pystr) :
  let st' := write_audit_logs base_path os_refuses st in
  let fs' := on_disk base_path logger (disk st') in
  same_figures st st' ∧
  NoDup (log_file_path base_path :: audit_paths base_path) ∧
  (∀ p : Path, p ∉ audit_paths base_path →
     logger = None ∨ p ≠ log_file_path base_path → fs' !! p = disk st !! p) ∧
  (∀ text, logger = Some text → fs' !! log_file_path base_path = Some (File text)) ∧
  (∀ (f : pystr) (nonempty : bool) (text : pystr),
     (f, nonempty, text) ∈ audit_entries st →
     joinpath base_path f ∈ audit_paths base_path ∧
     fs' !! joinpath base_path f
     = if nonempty then
         match open_for_writing os_refuses (joinpath base_path f) (disk st) with
         | None => Some (File text)
         | Some _ => disk st !! joinpath base_path f
         end
       else disk st !! joinpath base_path f).
Proof.
  intros st' fs'. subst fs'.
  destruct (write_audit_logs_spec st) as (Hfig & Hother & Hat). fold st' in Hfig, Hother, Hat.
  split; [done|].
  split; [apply NoDup_cons; split; [apply log_file_is_no_audit_file|apply audit_paths_nodup]|].
  split; [intros p Hp Hlog; rewrite on_disk_other by done; by apply Hother|].
  split; [intros text ->; apply on_disk_log|].
  intros f ne text Hin. destruct (Hat f ne text Hin) as [Hpath Heq].
  split; [done|]. rewrite on_disk_other; [done|].
  right. intros Hlog. apply log_file_is_no_audit_file. by rewrite <- Hlog.
Qed.

End Statistics.

(** ** Resolving the download URL *)

Lemma first_url_skip sizes pre keys :
  Forall (no_url sizes) pre → first_url sizes (pre ++ keys) = first_url sizes keys.
Proof.
  induction 1 as [|k pre Hk _ IH]; [done|]. cbn [app first_url].
  by destruct Hk as [->|[->| ->]].
Qed.

Lemma first_url_found sizes keys url : first_url sizes keys = Found url → url ≠ [].
Proof.
  induction keys as [|k keys IH]; [done|]. cbn [first_url].
  destruct (sizes !! k) as [[u|]|]; [|done|done].
  case_decide; [done|]. by intros [= <-].
Qed.

Lemma first_url_ext sizes sizes' keys :
  (∀ k, k ∈ keys → sizes !! k = sizes' !! k) →
  first_url sizes keys = first_url sizes' keys.
Proof.
  induction keys as [|k keys IH]; intros Hk; [done|]. cbn [first_url].
  rewrite <- (Hk k) by (by left). rewrite IH; [done|].
  intros k' Hk'. apply Hk. by right.
Qed.

Lemma from_size_details_nonempty src url : from_size_details src = Some url → url ≠ [].
Proof.
  unfold from_size_details. destruct (uri_given _); [|done].
  destruct (size_details src) as [e|status_code [sizes|]]; try done;
    case_decide; try done.
  destruct (first_url sizes size_keys) eqn:Hf; try done.
  intros [= <-]. by eapply first_url_found.
Qed.

Lemma from_largest_image_nonempty src url : from_largest_image src = Some url → url ≠ [].
Proof.
  unfold from_largest_image. destruct (uri_given _); [|done].
  destruct (largest_image src) as [e|status_code [u|]]; try done;
    case_decide; try done.
  case_decide; [done|]. by intros [= <-].
Qed.

(** Property X7. The sizes are tried from the largest down: when the size
    details are answered with status 200, the URL returned is that of the
    first listed size that has one, whatever the smaller sizes and the
    other sources of the record offer. *)
Theorem largest_listed_size_is_preferred (src : image_sources)
    (sizes : gmap pystr size_info) (pre post : list pystr) (size_key url : pystr) :
  uri_given (ImageSizeDetails src) = true →
  size_details src = Response 200 (Some sizes) →
  size_keys = pre ++ size_key :: post →
  Forall (no_url sizes) pre →
  sizes !! size_key = Some (SizeObject (Some url)) →
  url ≠ [] →
  get_image_download_url src = Some url.
Proof.
  intros Hgiven Hanswer Hkeys Hpre Hk Hurl.
  unfold get_image_download_url, from_size_details.
  rewrite Hgiven, Hanswer, decide_True by done.
  rewrite Hkeys, first_url_skip by done. cbn [first_url]. rewrite Hk. cbn [get default].
  by rewrite decide_False.
Qed.

Lemma from_size_details_with sizes src :
  from_size_details (with_sizes sizes src)
  = if uri_given (ImageSizeDetails src) then
      match first_url sizes size_keys with
      | Found url => Some url
      | _ => None
      end
    else None.
Proof. done. Qed.

(** Property X8. Only the seven listed sizes are read: two answers that
    agree on them give the same URL, so a size such as [ImageSizeMedium] is
    never downloaded from the size details. *)
Theorem unlisted_sizes_are_ignored (src : image_sources) (sizes sizes' : gmap pystr size_info) :
  (∀ size_key, size_key ∈ size_keys → sizes !! size_key = sizes' !! size_key) →
  get_image_download_url (with_sizes sizes src)
  = get_image_download_url (with_sizes sizes' src).
Proof.
  intros Hsame. unfold get_image_download_url.
  by rewrite !from_size_details_with, (first_url_ext sizes sizes').
Qed.

Lemma from_size_details_without src : from_size_details (without_size_details src) = None.
Proof. done. Qed.

Lemma from_largest_image_without src : from_largest_image (without_largest_image src) = None.
Proof. done. Qed.

(** Property X9. A request that fails is the same as a URI that is not
    there. When the size details request raises, is not answered with 200
    or cannot be decoded, or when the loop over the sizes raises on an
    entry that is not an object before it has found a URL, the result is
    that of a record without [ImageSizeDetails]; a failed [LargestImage]
    request is the same as a record without [LargestImage]. *)
Theorem failed_request_is_like_no_uri (src : image_sources) :
  (listing_failed (size_details src) = true ∨
   (∃ sizes pre size_key post,
      size_details src = Response 200 (Some sizes) ∧
      size_keys = pre ++ size_key :: post ∧ Forall (no_url sizes) pre ∧
      sizes !! size_key = Some SizeOther) →
   get_image_download_url src = get_image_download_url (without_size_details src)) ∧
  (listing_failed (largest_image src) = true →
   get_image_download_url src = get_image_download_url (without_largest_image src)).
Proof.
  split.
  - intros Hfail. unfold get_image_download_url.
    rewrite from_size_details_without.
    replace (from_size_details src) with (@None pystr); [done|].
    unfold from_size_details. destruct (uri_given _); [|done].
    destruct Hfail as [Hfail|(sizes & pre & k & post & -> & Hkeys & Hpre & Hk)].
    + destruct (size_details src) as [e|status_code [sizes|]]; try done;
        case_decide; try done.
      subst. done.
    + rewrite decide_True by done. rewrite Hkeys, first_url_skip by done.
      cbn [first_url]. by rewrite Hk.
  - intros Hfail. unfold get_image_download_url.
    rewrite from_largest_image_without.
    replace (from_largest_image src) with (@None pystr); [done|].
    unfold from_largest_image. destruct (uri_given _); [|done].
    destruct (largest_image src) as [e|status_code [u|]]; try done;
      case_decide; try done.
    subst. done.
Qed.

Lemma no_url_iff (src : image_sources) :
  get (get_image_download_url src) [] = [] ↔
  from_size_details src = None ∧ get (ArchivedUri src) [] = [] ∧
  from_largest_image src = None ∧
  match ImageDownload src with
  | Some (UriObject uri) => get uri [] = []
  | Some (UriString s) => s = []
  | Some (UriOther _) | None => True
  end.
Proof.
  unfold get_image_download_url.
  destruct (from_size_details src) as [url|] eqn:H1.
  { apply from_size_details_nonempty in H1. split; [done|]. by intros [? _]. }
  case_decide as H2.
  { split; [done|]. by intros (_ & ? & _). }
  destruct (from_largest_image src) as [url|] eqn:H3.
  { apply from_largest_image_nonempty in H3. split; [done|]. by intros (_ & _ & ? & _). }
  assert (get (ArchivedUri src) [] = []) as H2' by (by destruct (decide (get (ArchivedUri src) [] = []))).
  destruct (ImageDownload src) as [[uri|s|b]|]; cbn [get default];
    (split; [intros H; by repeat split|by intros (_ & _ & _ & H)]).
Qed.

(** Property X10. [get_image_download_url] gives no usable URL ([None] or
    the empty string) exactly when all four sources are exhausted: no
    listed size with a URL, no [ArchivedUri], no URL of the largest image,
    and no [Uri] under [ImageDownload]. *)
Theorem no_url_iff_sources_exhausted (src : image_sources) :
  get (get_image_download_url src) [] = [] ↔
  from_size_details src = None ∧ get (ArchivedUri src) [] = [] ∧
  from_largest_image src = None ∧
  match ImageDownload src with
  | Some (UriObject uri) => get uri [] = []
  | Some (UriString s) => s = []
  | Some (UriOther _) | None => True
  end.
Proof. apply no_url_iff. Qed.

Section Unresolved.

Variable base_path : Path.
Variable os_refuses : Path → option py_exception.

(** Property X11. An image whose four sources are exhausted is not
    requested: at a fresh destination [download_image] returns [False],
    records one failure with the reason that no download URL was found, and
    leaves the disk as it is. *)
Theorem unresolved_image_is_not_requested (src : image_sources) (image_info : image)
    (download_path : Path) (album_name : pystr) (st : state) :
  from_size_details src = None → get (ArchivedUri src) [] = [] →
  from_largest_image src = None →
  match ImageDownload src with
  | Some (UriObject uri) => get uri [] = []
  | Some (UriString s) => s = []
  | Some (UriOther _) | None => True
  end →
  disk st !! download_path = None →
  download_image base_path os_refuses (resolved src image_info) download_path album_name st
  = Returns false (push_failed (name download_path, album_name, no_url_reason) st).
Proof.
  intros H1 H2 H3 H4 Hfresh.
  assert (get (get_image_download_url src) [] = []) as Hurl
    by (by apply no_url_iff).
  unfold download_image. apply exists_false in Hfresh. rewrite Hfresh.
  cbn [resolved resolved_url]. by rewrite decide_True.
Qed.

End Unresolved.

(** ** Pages of a listing *)

Lemma fetch_images_from_app l images :
  fetch_images_from l images = images ++ fetch_images_from l [].
Proof.
  revert l images. fix IH 1.
  intros [[e|status_code [[album_image [l'|]]|]]] images; cbn [fetch_images_from];
    rewrite ?app_nil_r; try done; case_decide; rewrite ?app_nil_r; try done.
  by rewrite (IH l' (images ++ album_image)), (IH l' ([] ++ album_image)), app_assoc.
Qed.

(** Property X12. [fetch_images] gathers the pages in order: after any
    number of pages answered with status 200, the result is the images
    already gathered, then the images of these pages in their order, then
    what the rest of the listing gives. In particular the images gathered
    so far are never dropped or reordered by a later page. *)
Theorem pages_are_gathered_in_order (pages : list (list image)) (rest : listing)
    (images : list image) :
  fetch_images_from (chain pages rest) images
  = images ++ concat pages ++ fetch_images_from rest [].
Proof.
  revert images. induction pages as [|album_image pages IH]; intros images.
  - apply fetch_images_from_app.
  - cbn [chain fetch_images_from concat]. rewrite decide_False by (by intros Hn; apply Hn).
    by rewrite IH, !app_assoc.
Qed.

(** ** Transfers that succeed *)

Section Transfers.

Variable base_path : Path.
Variable os_refuses : Path → option py_exception.

(** Property X13. A transfer that completes is stored. At a destination
    that does not exist and has a name, with a URL, a complete answer whose
    status [raise_for_status] accepts, and a file that can be opened,
    [download_image] returns [True]; the destination holds exactly the
    bytes received (also when the sidecar path is the destination itself),
    one download is counted, and no failure or skip is recorded. *)
Theorem complete_transfer_is_stored (image_info : image) (download_path : Path)
    (album_name : pystr) (st : state) (status_code : nat) (received : pystr) :
  disk st !! download_path = None →
  name download_path ≠ [] →
  get (resolved_url image_info) [] ≠ [] →
  served image_info = GetResponse status_code received None →
  ¬ 400 ≤ status_code < 600 →
  os_refuses download_path = None →
  ∃ st',
    download_image base_path os_refuses image_info download_path album_name st
    = Returns true st' ∧
    disk st' !! download_path = Some (File received) ∧
    total_downloaded st' = S (total_downloaded st) ∧
    failed_downloads st' = failed_downloads st ∧
    skipped_log st' = skipped_log st.
Proof.
  intros Hfresh Hname Hurl Hserved Hstatus Hos.
  rewrite download_image_fresh, decide_False by done.
  unfold fetch_file. rewrite Hserved, decide_False by done.
  unfold open_for_writing. rewrite Hfresh, Hos.
  set (st1 := set_disk (<[download_path := File received]> (disk st)) st).
  destruct (save_image_metadata_cases os_refuses image_info download_path st1)
    as [[_ Hw]|[->|(m & text & Hm & Hfree & ->)]].
  - unfold with_suffix in Hw. by rewrite decide_False in Hw.
  - eexists. split; [done|]. cbn. by rewrite lookup_insert_eq.
  - eexists. split; [done|]. cbn. cbn in Hfree.
    apply lookup_insert_None in Hfree as [_ Hne].
    by rewrite lookup_insert_ne, lookup_insert_eq.
Qed.

Lemma fetch_file_true image_info q filename album_name st st' :
  disk st !! q = None →
  fetch_file os_refuses image_info q filename album_name st = Returns true st' →
  ∃ status_code received,
    served image_info = GetResponse status_code received None ∧
    ¬ 400 ≤ status_code < 600 ∧ disk st' !! q = Some (File received).
Proof.
  intros Hq Heq.
  destruct (fetch_file_cases os_refuses image_info q filename album_name st Hq)
    as [(reason & Hr)|(sc & rc & st1 & Hs & Hc & Hr & Hst)]; [congruence|].
  rewrite Hr in Heq. injection Heq as <-. exists sc, rc. split; [done|]. split; [done|].
  destruct Hst as [->|(m & t & _ & Hne & _ & ->)]; cbn.
  - by rewrite lookup_insert_eq.
  - by rewrite lookup_insert_ne, lookup_insert_eq.
Qed.

(** Property X14. [download_image] returns [True] only for a complete
    file: a URL was found, the server answered with a status below 400 or
    above 599 and the stream was not cut, and the bytes received are the
    content of a path that did not exist before, which is the destination
    unless the destination existed. *)
Theorem success_means_a_complete_file (image_info : image) (download_path : Path)
    (album_name : pystr) (st st' : state) :
  download_image base_path os_refuses image_info download_path album_name st
  = Returns true st' →
  get (resolved_url image_info) [] ≠ [] ∧
  ∃ status_code received q,
    served image_info = GetResponse status_code received None ∧
    ¬ 400 ≤ status_code < 600 ∧
    disk st !! q = None ∧ disk st' !! q = Some (File received) ∧
    (q = download_path ∨ is_Some (disk st !! download_path)).
Proof.
  intros Heq. destruct (disk st !! download_path) as [n|] eqn:Hd.
  - rewrite download_image_existing in Heq by (rewrite Hd; eauto).
    destruct (quarantine_cases base_path image_info download_path album_name st)
      as [[e He]|(rel & fs1 & q & Hrel & Hmk & Hq & Hfree)]; [by rewrite He in Heq|].
    rewrite Hq in Heq. case_decide as Hurl; [done|]. split; [done|].
    apply fetch_file_true in Heq as (sc & rc & Hs & Hc & Hfile); [|done].
    exists sc, rc, q. split; [done|]. split; [done|]. split; [|split; [done|right; eauto]].
    destruct (disk st !! q) as [n'|] eqn:Hold; [|done].
    apply (mkdir_parents_keeps _ _ _ _ _ Hmk) in Hold. congruence.
  - rewrite download_image_fresh in Heq by done. case_decide as Hurl; [done|].
    split; [done|].
    apply fetch_file_true in Heq as (sc & rc & Hs & Hc & Hfile); [|done].
    exists sc, rc, download_path. split; [done|]. split; [done|]. split; [done|].
    split; [done|by left].
Qed.

End Transfers.

(** ** Names that are already clean *)

(** Property X15. The names [sanitize_filename] leaves unchanged are
    exactly the clean ones: not empty, without reserved characters, not
    starting or ending with a dot or a space, and of at most 200
    characters. *)
Theorem sanitize_filename_fixed_points (x : pystr) :
  sanitize_filename x = x ↔ clean x.
Proof.
  split.
  - intros Hx.
    assert (length x ≤ 200) as Hlen by (rewrite <- Hx; apply sanitize_filename_length).
    split; [rewrite <- Hx; apply sanitize_filename_nonempty|].
    split; [intros c Hc; rewrite <- Hx; by apply sanitize_filename_reserved|].
    split; [rewrite <- Hx; apply sanitize_filename_starts_ok|].
    split; [|done].
    rewrite <- Hx. by apply sanitize_filename_short_ends.
  - intros (Hne & Hclean & Hs & He & Hlen). by apply sanitize_filename_fixed.
Qed.

(** ** Albums whose images have no key *)

Lemma first_positions_nodup ids :
  NoDup ids → first_positions ids = seq 0 (length ids) ∧ repeat_positions ids = [].
Proof.
  induction ids as [|k ids IH] using rev_ind; [done|].
  intros [Hnd [Hk _]]%NoDup_app.
  rewrite first_positions_snoc, repeat_positions_snoc, length_app, Nat.add_1_r, seq_S.
  destruct (IH Hnd) as [-> ->].
  rewrite !decide_False; [done|..]; intros Hin; apply (Hk k Hin); by left.
Qed.

Lemma omap_lookup_seq {A} (l : list A) : omap (λ i, l !! i) (seq 0 (length l)) = l.
Proof.
  induction l as [|x l IH] using rev_ind; [done|].
  rewrite length_app, Nat.add_1_r, seq_S, omap_app, omap_lookup_snoc, IH.
  - csimpl. by rewrite list_lookup_middle.
  - apply Forall_forall. intros i Hi%elem_of_seq. lia.
Qed.

Lemma identity_keys_keyless images :
  Forall keyless images →
  identity_keys images = (λ i, str "idx_" ++ repr_nat i) <$> seq 0 (length images).
Proof.
  induction images as [|img images IH] using rev_ind; [done|].
  intros [Hall Himg]%Forall_app. apply Forall_singleton in Himg as [Hk Hu].
  rewrite identity_keys_snoc, IH, length_app, Nat.add_1_r, seq_S, fmap_app by done.
  f_equal. csimpl. unfold unique_id.
  by rewrite !decide_True.
Qed.

(** Property X16. In an album whose images have neither [ImageKey] nor
    [Uri], no image is a duplicate of another: every image is planned, in
    input order, and no duplicate is counted or logged, whatever the file
    names are. *)
Theorem keyless_images_are_all_planned (album_name : pystr) (images : list image)
    (st : state) :
  Forall keyless images →
  (plan_album album_name images st).1.*1 = images ∧
  total_duplicates (plan_album album_name images st).2 = total_duplicates st ∧
  duplicate_log (plan_album album_name images st).2 = duplicate_log st.
Proof.
  intros Hall.
  assert (NoDup (identity_keys images)) as Hnd.
  { rewrite identity_keys_keyless by done. apply NoDup_fmap_2; [|apply NoDup_seq].
    intros i j Hij. by apply app_inv_head, repr_nat_inj in Hij. }
  destruct (first_positions_nodup _ Hnd) as [Hfirst Hrepeat].
  destruct (plan_images_log album_name images st) as [Himg (evs & Hevs & Hfields) Hcount].
  rewrite plan_album_eq. cbn [fst snd].
  rewrite Hfirst, length_identity_keys in Himg. rewrite Hrepeat in Hfields, Hcount.
  split; [by rewrite Himg, omap_lookup_seq|]. split; [cbn in Hcount; lia|].
  apply fmap_nil_inv in Hfields. subst evs. by rewrite app_nil_r in Hevs.
Qed.

(** ** Directories and counters of folders and albums *)

Lemma sanitize_filename_not_dots x :
  sanitize_filename x ≠ str "." ∧ sanitize_filename x ≠ str "..".
Proof.
  pose proof (sanitize_filename_starts_ok x) as Hok.
  split; intros H; rewrite H in Hok; apply (Hok "."%char); try done; by_compute.
Qed.

Lemma parent_snoc (p : Path) x : slash ∉ x → parent (p ++ [x]) = p.
Proof.
  intros Hx. unfold parent. destruct p as [|r p]; cbn [app].
  - by rewrite is_root_plain.
  - destruct p as [|y p]; [done|].
    exact (removelast_last (r :: y :: p) x).
Qed.

Lemma mkdir_parents_again (p : Path) (fs fs' : FS) :
  mkdir_parents p fs = Some fs' → mkdir_parents p fs' = Some fs'.
Proof.
  intros Hmk. destruct (decide (p = [])) as [->|Hne]; [done|].
  pose proof (mkdir_parents_dir _ _ _ Hmk Hne) as Hdir.
  unfold mkdir_parents. destruct (reverse p) as [|x rp] eqn:Hrev.
  - done.
  - cbn [mkdir_rev]. by rewrite <- Hrev, reverse_involutive, Hdir.
Qed.

Section Containment.

Variable base_path : Path.
Variable os_refuses : Path → option py_exception.

(** Property X17. A folder or album name of the catalogue can only name a
    direct child of the parent path: the path built from a sanitized name
    is the parent path plus one part, which is that name and is neither
    [.] nor [..]; and when [process_folder] returns, this path is a
    directory on the disk. *)
Theorem remote_names_stay_below_the_parent (parent_path : Path) (x : pystr) :
  let p := joinpath parent_path (sanitize_filename x) in
  p = parent_path ++ [sanitize_filename x] ∧ parent p = parent_path ∧
  name p = sanitize_filename x ∧
  sanitize_filename x ≠ str "." ∧ sanitize_filename x ≠ str ".." ∧
  (∀ folder_name albums_data subfolders_data st st',
     x = get folder_name (str "Unnamed Folder") →
     process_folder base_path os_refuses
       (Folder folder_name albums_data subfolders_data) parent_path st = Returns tt st' →
     disk st' !! p = Some Dir).
Proof.
  intros p. subst p. destruct (album_path_eq parent_path x) as [-> Hslash].
  split; [done|]. split; [by apply parent_snoc|]. split; [by apply name_snoc|].
  destruct (sanitize_filename_not_dots x) as [H1 H2]. split; [done|]. split; [done|].
  intros folder_name albums_data subfolders_data st st' -> Hret.
  destruct (album_path_eq parent_path (get folder_name (str "Unnamed Folder"))) as [Hp _].
  assert (∃ fs, fs !! (parent_path ++ [sanitize_filename (get folder_name (str "Unnamed Folder"))])
                = Some Dir ∧
                process_folder base_path os_refuses
                  (Folder folder_name albums_data subfolders_data) parent_path (set_disk fs st)
                = Returns tt st') as (fs & Hdir & Hret').
  { rewrite process_folder_unfold in Hret. cbv zeta in Hret. rewrite Hp in Hret.
    destruct (mkdir_parents _ (disk st)) as [fs|] eqn:Hmk; [|done].
    exists fs. split; [apply (mkdir_parents_dir _ _ _ Hmk); by destruct parent_path|].
    rewrite process_folder_unfold. cbv zeta. rewrite Hp.
    cbn [disk set_disk update]. by rewrite (mkdir_parents_again _ _ _ Hmk). }
  pose proof (process_folder_run_step base_path os_refuses
                (Folder folder_name albums_data subfolders_data) parent_path (set_disk fs st))
    as (Hk & _).
  rewrite Hret' in Hk. by apply Hk.
Qed.

(** Property X18. Planning an album is pure bookkeeping: it changes the
    counters and logs of duplicates and of renames and nothing else (not
    the disk, not the other counters or logs); every image is planned or
    counted as a duplicate, and there are at most as many renames as plan
    entries. *)
Theorem planning_is_bookkeeping (album_name : pystr) (images : list image) (st : state) :
  length (plan_album album_name images st).1 ≤ length images ∧
  plan_effect (length images) (length (plan_album album_name images st).1)
    st (plan_album album_name images st).2.
Proof. apply plan_album_effect. Qed.

Lemma save_album_metadata_counters album_info album_path st :
  let st' := save_album_metadata os_refuses album_info album_path st in
  total_albums st' = total_albums st ∧ total_images st' = total_images st ∧
  total_folders st' = total_folders st.
Proof.
  cbv zeta.
  by destruct (save_album_metadata_cases os_refuses album_info album_path st)
    as [->|(m & text & _ & ->)].
Qed.

Lemma process_album_counters (a : album) (folder_path : Path) (st : state) :
  let album_path :=
    joinpath folder_path (sanitize_filename (get (album_Name a) (str "Unnamed Album"))) in
  (get (album_Uri a) [] = [] →
   process_album base_path os_refuses a folder_path st = Returns tt st) ∧
  (get (album_Uri a) [] ≠ [] → mkdir_parents album_path (disk st) = None →
   ∃ e, process_album base_path os_refuses a folder_path st = Throws e st) ∧
  (get (album_Uri a) [] ≠ [] → is_Some (mkdir_parents album_path (disk st)) →
   ∃ st', process_album base_path os_refuses a folder_path st = Returns tt st' ∧
     total_albums st' = S (total_albums st) ∧
     total_images st' = total_images st + length (fetch_images a) ∧
     total_folders st' = total_folders st ∧
     disk st' !! album_path = Some Dir).
Proof.
  intros album_path. unfold process_album. fold album_path.
  split; [intros Huri; by rewrite decide_True|].
  split.
  { intros Huri Hmk. rewrite decide_False, Hmk by done. by eexists. }
  intros Huri [fs Hmk]. rewrite decide_False, Hmk by done.
  assert (fs !! album_path = Some Dir) as Hdir.
  { apply (mkdir_parents_dir _ _ _ Hmk). subst album_path.
    destruct (album_path_eq folder_path (get (album_Name a) (str "Unnamed Album"))) as [-> _].
    by destruct folder_path. }
  pose proof (save_album_metadata_counters a album_path (set_disk fs st)) as (Ha & Hi & Hf).
  assert (disk (save_album_metadata os_refuses a album_path (set_disk fs st)) !! album_path
          = Some Dir) as Hdir2.
  { destruct (save_album_metadata_cases os_refuses a album_path (set_disk fs st))
      as [->|(m & text & Hm & ->)]; [done|].
    cbn. cbn in Hm. rewrite lookup_insert_ne; [done|]. intros <-. congruence. }
  set (st2 := save_album_metadata os_refuses a album_path (set_disk fs st)) in *.
  cbn in Ha, Hi, Hf.
  case_decide as Himages.
  { eexists. split; [done|]. rewrite Himages. cbn. split; [lia|]. split; [lia|]. done. }
  destruct (plan_album_effect (get (album_Name a) (str "Unnamed Album")) (fetch_images a)
              (incr_albums (add_images (length (fetch_images a)) st2)))
    as [_ [_ _ _ _ _ _ Pdisk _ _ Pi Pa Pf _ _ _ _]].
  destruct (plan_album _ (fetch_images a) _) as [plan st4]. cbn [fst snd] in *.
  cbn in Pdisk, Pi, Pa, Pf.
  case_decide as Hplan.
  { eexists. split; [done|]. rewrite Pa, Pi, Pf, Pdisk. split; [lia|]. split; [lia|]. done. }
  eexists. split; [done|].
  destruct (download_plan_effect base_path os_refuses album_path
              (get (album_Name a) (str "Unnamed Album")) plan st4)
    as [Kdisk _ _ _ _ _ _ _ _ Ki Ka Kf _ _ _ _ _].
  rewrite Ka, Ki, Kf, Pa, Pi, Pf. split; [lia|]. split; [lia|]. split; [lia|].
  apply Kdisk. by rewrite Pdisk.
Qed.

(** Property X19. What [process_album] counts. An album without [Uri] is
    left out altogether; when the album directory cannot be made the call
    raises and nothing is counted; otherwise the call returns, the album is
    counted once, the images that [fetch_images] returns are added to the
    images found, no folder is counted, and the album directory exists. *)
Theorem album_is_counted_once (a : album) (folder_path : Path) (st : state) :
  let album_path :=
    joinpath folder_path (sanitize_filename (get (album_Name a) (str "Unnamed Album"))) in
  (get (album_Uri a) [] = [] →
   process_album base_path os_refuses a folder_path st = Returns tt st) ∧
  (get (album_Uri a) [] ≠ [] → mkdir_parents album_path (disk st) = None →
   ∃ e, process_album base_path os_refuses a folder_path st = Throws e st) ∧
  (get (album_Uri a) [] ≠ [] → is_Some (mkdir_parents album_path (disk st)) →
   ∃ st', process_album base_path os_refuses a folder_path st = Returns tt st' ∧
     total_albums st' = S (total_albums st) ∧
     total_images st' = total_images st + length (fetch_images a) ∧
     total_folders st' = total_folders st ∧
     disk st' !! album_path = Some Dir).
Proof. apply process_album_counters. Qed.

End Containment.

(** ** The run log *)

Lemma log_opened message lg :
  log_file lg = Opened →
  log message lg
  = Ok {| also_print := also_print lg; log_file := Opened;
          log_text := log_text lg ++ line message;
          terminal := terminal lg ++ (if also_print lg then [message] else []) |}.
Proof.
  destruct lg as [p f t out]. cbn. intros ->. cbn.
  destruct p; cbn; by rewrite ?app_nil_r.
Qed.

Lemma log_all_opened messages lg :
  log_file lg = Opened →
  log_all messages lg
  = Ok {| also_print := also_print lg; log_file := Opened;
          log_text := log_text lg ++ concat (line <$> messages);
          terminal := terminal lg ++ (if also_print lg then messages else []) |}.
Proof.
  revert lg. induction messages as [|message messages IH]; intros lg Hopen.
  - destruct lg as [p f t out]. cbn in *. subst f. rewrite !app_nil_r.
    by destruct p; rewrite ?app_nil_r.
  - cbn [log_all]. rewrite log_opened by done. cbn [and_then].
    rewrite IH by done. cbn. rewrite <- !app_assoc. by destruct (also_print lg).
Qed.

(** Property X20. The run log of a block. A [with Logger(...)] block that
    logs the given messages leaves a closed log whose text is, one line
    each, the start line, a rule, the messages in order, a rule and the
    end line; what the file held before is gone; the same lines were
    printed when [also_print] is set, and nothing otherwise. *)
Theorem complete_log_is_written (print_too : bool) (on_disk started ended : pystr)
    (messages : list pystr) :
  ∃ lg,
    with_Logger None started ended messages (new_Logger print_too on_disk) = Ok lg ∧
    log_file lg = Closed ∧
    log_text lg = concat (line <$> complete_log started ended messages) ∧
    terminal lg = (if print_too then complete_log started ended messages else []).
Proof.
  unfold with_Logger, Logger_enter, new_Logger. cbn [also_print terminal].
  rewrite log_opened by done. cbn [and_then also_print log_file log_text terminal].
  rewrite log_opened by done. cbn [and_then also_print log_file log_text terminal].
  rewrite log_all_opened by done. cbn [and_then also_print log_file log_text terminal].
  unfold Logger_exit. cbn [log_file].
  rewrite log_opened by done. cbn [and_then also_print log_file log_text terminal].
  rewrite log_opened by done. cbn [and_then also_print log_file log_text terminal].
  eexists. split; [done|]. cbn [log_file log_text terminal]. split; [done|].
  unfold complete_log. rewrite !fmap_app, !concat_app. cbn [fmap list_fmap concat app].
  split.
  - rewrite !app_nil_r. by rewrite <- !app_assoc.
  - destruct print_too; [|done]. cbn [app]. by rewrite <- !app_assoc.
Qed.

(** Property X21. Logging outside the block. Before [__enter__] a message
    is only printed (when [also_print] is set) and [__exit__] does nothing;
    after [__exit__] the closed file is still a true value, so [log], and
    a second [__exit__], raise. *)
Theorem log_outside_the_block (message now : pystr) (lg : Logger) :
  (log_file lg = NotOpened →
   log message lg = Ok (if also_print lg then to_terminal message lg else lg) ∧
   Logger_exit now lg = Ok lg) ∧
  (log_file lg = Closed →
   log message lg = Raise closed_file_error ∧
   Logger_exit now lg = Raise closed_file_error) ∧
  (∀ refused lg', Logger_enter refused now lg = Ok lg' →
     ∀ lg'', Logger_exit now lg' = Ok lg'' → log message lg'' = Raise closed_file_error).
Proof.
  split; [|split].
  - intros Hf. unfold Logger_exit, log. by rewrite Hf.
  - intros Hf. unfold Logger_exit, log. by rewrite Hf.
  - intros refused lg' Henter lg'' Hexit.
    unfold Logger_enter in Henter. destruct refused; [done|].
    rewrite log_opened in Henter by done. cbn [and_then] in Henter.
    rewrite log_opened in Henter by done. injection Henter as <-.
    unfold Logger_exit in Hexit. cbn [log_file] in Hexit.
    rewrite log_opened in Hexit by done. cbn [and_then] in Hexit.
    rewrite log_opened in Hexit by done. cbn [and_then] in Hexit.
    by injection Hexit as <-.
Qed.

(** ** The single-album test script *)

Section TestScript.

Variable os_refuses : Path → option py_exception.
Variable confirm : pystr.

Lemma first_album_skip download_path pre folders st :
  Forall no_album pre →
  first_album os_refuses confirm download_path (pre ++ folders) st
  = first_album os_refuses confirm download_path folders st.
Proof.
  induction 1 as [|[folder_name albums_data subfolders] pre Hf _ IH]; [done|].
  cbn [app first_album].
  destruct albums_data as [[e|status_code body]|]; [done| |done].
  destruct Hf as [Hs| ->]; [by rewrite decide_False|].
  by case_decide.
Qed.

Lemma first_album_cases download_path folders st :
  (∃ code, first_album os_refuses confirm download_path folders st = Exits code st) ∨
  (∃ a folder_path,
     confirm ∈ [str "yes"; str "y"] ∧
     match process_album download_path os_refuses a folder_path st with
     | Throws _ st' => first_album os_refuses confirm download_path folders st = Exits 1 st'
     | Returns _ st' => first_album os_refuses confirm download_path folders st = Completed st'
     end).
Proof.
  induction folders as [|[folder_name albums_data subfolders] folders IH];
    [left; by eexists|].
  cbn [first_album].
  destruct albums_data as [[e|status_code [[|a albums]|]]|]; try done;
    try (left; by eexists); try (case_decide; [|done]); try (left; by eexists); try done.
  case_decide; [|left; by eexists].
  right. exists a, (joinpath download_path (get folder_name (str "Unnamed"))).
  split; [done|].
  destruct (process_album download_path os_refuses a _ st) as [[] st'|e st']; reflexivity.
Qed.

(** Property X22. The test script handles at most one album and counts no
    folder; it removes or overwrites nothing that was on the disk; and
    without the answer [yes] or [y] it never completes a download and
    processes no album. *)
Theorem test_script_handles_one_album (download_path : pystr)
    (root : http_result (list folder)) (fs : FS) :
  let r := test_main os_refuses confirm download_path root fs in
  total_albums (test_state r) ≤ 1 ∧ total_folders (test_state r) = 0 ∧
  (∀ p n, fs !! p = Some n → disk (test_state r) !! p = Some n) ∧
  (confirm ∉ [str "yes"; str "y"] →
   (∃ code, r = Exits code (test_state r)) ∨ (∃ e, r = Crashes e (initial_state fs))) ∧
  (confirm ∉ [str "yes"; str "y"] → total_albums (test_state r) = 0).
Proof.
  intros r. subst r. unfold test_main.
  set (dp := parse_path _).
  destruct (mkdir_parents dp fs) as [fs1|] eqn:Hmk.
  2:{ cbn. split; [lia|]. split; [done|]. split; [done|]. split; [right; by eexists|done]. }
  assert (∀ p n, fs !! p = Some n → fs1 !! p = Some n) as Hkeep
    by (intros p n; apply (mkdir_parents_keeps _ _ _ _ _ Hmk)).
  assert (∀ code, let r := Exits code (initial_state fs1) in
            total_albums (test_state r) ≤ 1 ∧ total_folders (test_state r) = 0 ∧
            (∀ p n, fs !! p = Some n → disk (test_state r) !! p = Some n) ∧
            (confirm ∉ [str "yes"; str "y"] →
             (∃ code, r = Exits code (test_state r)) ∨
             (∃ e, r = Crashes e (initial_state fs))) ∧
            (confirm ∉ [str "yes"; str "y"] → total_albums (test_state r) = 0)) as Hexit.
  { intros code. cbn. split; [lia|]. split; [done|]. split; [done|].
    split; [left; by eexists|done]. }
  destruct root as [e|status_code [folders|]]; try apply Hexit;
    (case_decide; [apply Hexit|]); [|apply Hexit].
  destruct (first_album_cases dp folders (initial_state fs1))
    as [[code ->]|(a & folder_path & Hyes & Hproc)]; [apply Hexit|].
  pose proof (process_album_run_step dp os_refuses a folder_path (initial_state fs1))
    as (Hk & _ & _).
  destruct (process_album_counters dp os_refuses a folder_path (initial_state fs1))
    as (Hnone & Hfail & Hok).
  assert (total_albums (state_of (process_album dp os_refuses a folder_path
                                    (initial_state fs1))) ≤ 1 ∧
          total_folders (state_of (process_album dp os_refuses a folder_path
                                    (initial_state fs1))) = 0) as [Ha Hf].
  { destruct (decide (get (album_Uri a) [] = [])) as [Huri|Huri];
      [rewrite Hnone by done; cbn; split; [lia|done]|].
    destruct (mkdir_parents
                (joinpath folder_path
                   (sanitize_filename (get (album_Name a) (str "Unnamed Album"))))
                (disk (initial_state fs1))) as [fs2|] eqn:Hmk2.
    - destruct Hok as (st' & Hr & H1 & _ & H3 & _); [done|by eexists|].
      rewrite Hr. cbn [state_of]. rewrite H1, H3. cbn. split; [lia|done].
    - destruct Hfail as [e ->]; [done|done|]. cbn. split; [lia|done]. }
  destruct (process_album dp os_refuses a folder_path (initial_state fs1))
    as [[] st'|e st']; rewrite Hproc; cbn [test_state state_of] in *.
  - split; [done|]. split; [done|]. split; [intros p n Hp; by apply Hk, Hkeep|].
    split; intros Hno; by destruct Hno.
  - split; [done|]. split; [done|]. split; [intros p n Hp; by apply Hk, Hkeep|].
    split; intros Hno; by destruct Hno.
Qed.

Lemma first_album_zero download_path folders st :
  test_exit_status (first_album os_refuses confirm download_path folders st) = 0 →
  ∃ pre folder_name a albums subfolders rest,
    folders = pre ++ Folder folder_name (Some (Response 200 (Some (a :: albums)))) subfolders
                     :: rest ∧
    Forall no_album pre.
Proof.
  induction folders as [|[folder_name albums_data subfolders] folders IH]; [done|].
  cbn [first_album].
  assert (test_exit_status (first_album os_refuses confirm download_path folders st) = 0 →
          no_album (Folder folder_name albums_data subfolders) →
          ∃ pre folder_name' a albums subfolders' rest,
            Folder folder_name albums_data subfolders :: folders
            = pre ++ Folder folder_name' (Some (Response 200 (Some (a :: albums))))
                       subfolders' :: rest ∧
            Forall no_album pre) as Hnext.
  { intros Hz Hno. destruct (IH Hz) as (pre & n & a & albums & subs & rest & -> & Hpre).
    exists (Folder folder_name albums_data subfolders :: pre), n, a, albums, subs, rest.
    split; [done|]. by constructor. }
  destruct albums_data as [[e|status_code [[|a albums]|]]|]; try done.
  - case_decide; intros Hz; apply Hnext; try done; cbn; [by right|by left].
  - case_decide as Hs; [|intros Hz; apply Hnext; [done|by left]].
    subst status_code. intros _.
    by exists [], folder_name, a, albums, subfolders, folders.
  - case_decide; [done|]. intros Hz. apply Hnext; [done|by left].
  - intros Hz. by apply Hnext.
Qed.

(** Property X23. The exit status of the test script. A failed request
    for the top-level folders (it raises, the status is not 200, or the
    body does not decode) gives exit status 1; the status is 0 only when
    the folders were listed and, after folders without an album, one of
    them lists an album. *)
Theorem test_script_exit_status (download_path : pystr) (root : http_result (list folder))
    (fs : FS) :
  (listing_failed root = true →
   test_exit_status (test_main os_refuses confirm download_path root fs) = 1) ∧
  (test_exit_status (test_main os_refuses confirm download_path root fs) = 0 →
   ∃ pre folder_name a albums subfolders rest,
     root = Response 200
              (Some (pre ++ Folder folder_name (Some (Response 200 (Some (a :: albums))))
                              subfolders :: rest)) ∧
     Forall no_album pre).
Proof.
  unfold test_main. set (dp := parse_path _).
  destruct (mkdir_parents dp fs) as [fs1|]; [|by split].
  destruct root as [e|status_code [folders|]]; try by split.
  - case_decide as Hs; [split; [done|]; by cbn|].
    assert (status_code = 200) as -> by (by destruct (decide (status_code = 200)); [|contradict Hs]).
    split; [by cbn|]. intros Hzero.
    destruct (first_album_zero dp folders (initial_state fs1) Hzero)
      as (pre & n & a & albums & subs & rest & -> & Hpre).
    by exists pre, n, a, albums, subs, rest.
  - case_decide; by split.
Qed.

(** Property X24. The test script takes the first album of the first
    folder that has one: folders without an album listing, with a status
    other than 200 or with no album are passed over, the other albums and
    folders are not looked at, and the album goes to the download location
    joined with the folder name as the catalogue gives it. *)
Theorem test_script_takes_the_first_album (download_path : Path)
    (pre folders : list folder) (folder_name : option pystr) (a : album)
    (albums : list album) (subfolders : option (http_result (list folder))) (st : state) :
  Forall no_album pre →
  first_album os_refuses confirm download_path
    (pre ++ Folder folder_name (Some (Response 200 (Some (a :: albums)))) subfolders
         :: folders) st
  = if decide (confirm ∈ [str "yes"; str "y"]) then
      match process_album download_path os_refuses a
              (joinpath download_path (get folder_name (str "Unnamed"))) st with
      | Throws _ st' => Exits 1 st'
      | Returns _ st' => Completed st'
      end
    else Exits 0 st.
Proof.
  intros Hpre. rewrite first_album_skip by done. cbn [first_album].
  by rewrite decide_True.
Qed.

End TestScript.

(** ** The album counter *)

Lemma print_albums_counts albums :
  ∃ k, ∀ node_total c,
    (SmugMugCounter.print_albums albums node_total c).1 = node_total + k ∧
    SmugMugCounter.total_images (SmugMugCounter.print_albums albums node_total c).2
    = SmugMugCounter.total_images c + k ∧
    SmugMugCounter.total_albums c
    ≤ SmugMugCounter.total_albums (SmugMugCounter.print_albums albums node_total c).2.
Proof.
  induction albums as [|a albums [k IH]].
  { exists 0. intros node_total c. cbn. repeat split; lia. }
  cbn [SmugMugCounter.print_albums]. unfold SmugMugCounter.print_album.
  set (count := match SmugMugCounter.ImageCount a with
                | Some count => Some count
                | None => _
                end).
  destruct count as [count|].
  - exists (count + k). intros node_total c.
    destruct (IH (node_total + count)
                {| SmugMugCounter.total_images := SmugMugCounter.total_images c + count;
                   SmugMugCounter.total_albums := S (SmugMugCounter.total_albums c) |})
      as (H1 & H2 & H3).
    cbn in *. split; [lia|]. split; lia.
  - exists 0. intros node_total c. cbn. repeat split; lia.
Qed.

Lemma node_ind' (P : SmugMugCounter.node → Prop) :
  (∀ albums_data subfolders_data,
     match subfolders_data with
     | Some (Response _ (Some folders)) => Forall P folders
     | _ => True
     end → P (SmugMugCounter.Node albums_data subfolders_data)) →
  ∀ n, P n.
Proof.
  intros HP. fix IH 1. intros [albums_data subfolders_data].
  apply HP. destruct subfolders_data as [[e|status_code [folders|]]|]; try exact I.
  induction folders as [|f folders IHs]; constructor; [apply IH|exact IHs].
Qed.

Lemma process_node_state_free n :
  ∃ k, ∀ c,
    (SmugMugCounter.process_node n c).1 = k ∧
    SmugMugCounter.total_images (SmugMugCounter.process_node n c).2
    = SmugMugCounter.total_images c + k ∧
    SmugMugCounter.total_albums c
    ≤ SmugMugCounter.total_albums (SmugMugCounter.process_node n c).2.
Proof.
  induction n as [albums_data subfolders_data IH] using node_ind'.
  cbn [SmugMugCounter.process_node].
  assert (∃ k1, ∀ c : SmugMugCounter.counter,
            let r := match albums_data with
                     | Some (Response status_code (Some albums)) =>
                         if decide (status_code = 200)
                         then SmugMugCounter.print_albums albums 0 c
                         else (0, c)
                     | _ => (0, c)
                     end in
            r.1 = k1 ∧
            SmugMugCounter.total_images r.2 = SmugMugCounter.total_images c + k1 ∧
            SmugMugCounter.total_albums c ≤ SmugMugCounter.total_albums r.2)
    as (k1 & Hk1).
  { destruct albums_data as [[e|status_code [albums|]]|];
      try (exists 0; intros c0; cbn; repeat split; lia).
    case_decide; [|exists 0; intros c0; cbn; repeat split; lia].
    destruct (print_albums_counts albums) as (k & Hk).
    exists k. intros c0. cbv zeta. destruct (Hk 0 c0) as (H1 & H2 & H3).
    by rewrite H1, H2. }
  assert (∃ k2, ∀ (node_total : nat) (c : SmugMugCounter.counter),
            let r := match subfolders_data with
                     | Some (Response status_code (Some folders)) =>
                         if decide (status_code = 200)
                         then
                           (fix each (l : list SmugMugCounter.node) (node_total : nat)
                                (c : SmugMugCounter.counter)
                              : nat * SmugMugCounter.counter :=
                              match l with
                              | [] => (node_total, c)
                              | folder :: l' =>
                                  let '(folder_count, c') :=
                                    SmugMugCounter.process_node folder c in
                                  each l' (node_total + folder_count) c'
                              end) folders node_total c
                         else (node_total, c)
                     | _ => (node_total, c)
                     end in
            r.1 = node_total + k2 ∧
            SmugMugCounter.total_images r.2 = SmugMugCounter.total_images c + k2 ∧
            SmugMugCounter.total_albums c ≤ SmugMugCounter.total_albums r.2)
    as (k2 & Hk2).
  { destruct subfolders_data as [[e|status_code [folders|]]|];
      try (exists 0; intros t c0; cbn; repeat split; lia).
    case_decide; [|exists 0; intros t c0; cbn; repeat split; lia].
    induction IH as [|f folders [kf Hf] _ [k2 Hk2]].
    { exists 0. intros t c0. cbn. repeat split; lia. }
    exists (kf + k2). intros t c0. cbv zeta.
    destruct (Hf c0) as (H1 & H2 & H3).
    destruct (SmugMugCounter.process_node f c0) as [folder_count c'] eqn:Hp.
    cbn [fst snd] in *. subst folder_count.
    destruct (Hk2 (t + kf) c') as (E1 & E2 & E3). cbv zeta in E1, E2, E3.
    rewrite E1, E2. repeat split; lia. }
  exists (k1 + k2). intros c.
  destruct (Hk1 c) as (A1 & A2 & A3). cbv zeta in A1, A2, A3.
  destruct (match albums_data with
            | Some (Response status_code (Some albums)) =>
                if decide (status_code = 200)
                then SmugMugCounter.print_albums albums 0 c
                else (0, c)
            | _ => (0, c)
            end) as [t1 c1] eqn:Ha. cbn [fst snd] in *.
  destruct (Hk2 t1 c1) as (B1 & B2 & B3). cbv zeta in B1, B2, B3.
  rewrite B1, B2. repeat split; lia.
Qed.

Lemma process_node_counts n c :
  (SmugMugCounter.process_node n c).1 = SmugMugCounter.subtotal n ∧
  SmugMugCounter.total_images (SmugMugCounter.process_node n c).2
  = SmugMugCounter.total_images c + SmugMugCounter.subtotal n ∧
  SmugMugCounter.total_albums c
  ≤ SmugMugCounter.total_albums (SmugMugCounter.process_node n c).2.
Proof.
  destruct (process_node_state_free n) as (k & Hk).
  unfold SmugMugCounter.subtotal.
  destruct (Hk c) as (H1 & H2 & H3).
  destruct (Hk {| SmugMugCounter.total_images := 0; SmugMugCounter.total_albums := 0 |})
    as (H1' & _ & _).
  rewrite H1', H1, H2. by repeat split.
Qed.

(** Property X25. The subtotal that [process_node] returns for a folder is
    exactly what the call adds to [total_images]; it does not depend on
    the counter at the start, and the number of albums never decreases. *)
Theorem subtotal_is_what_is_counted (n : SmugMugCounter.node) (c : SmugMugCounter.counter) :
  (SmugMugCounter.process_node n c).1 = SmugMugCounter.subtotal n ∧
  SmugMugCounter.total_images (SmugMugCounter.process_node n c).2
  = SmugMugCounter.total_images c + (SmugMugCounter.process_node n c).1 ∧
  SmugMugCounter.total_albums c
  ≤ SmugMugCounter.total_albums (SmugMugCounter.process_node n c).2.
Proof.
  destruct (process_node_counts n c) as (H1 & H2 & H3). by rewrite H1.
Qed.

Lemma process_nodes_total folders c :
  SmugMugCounter.total_images (SmugMugCounter.process_nodes folders c)
  = SmugMugCounter.total_images c + sum_list (SmugMugCounter.subtotal <$> folders).
Proof.
  revert c. induction folders as [|f folders IH]; intros c; [cbn; lia|].
  cbn [SmugMugCounter.process_nodes fmap list_fmap sum_list].
  rewrite IH. destruct (process_node_counts f c) as (_ & -> & _). cbn. lia.
Qed.

(** Property X26. The grand total of [count_all] is the sum of the
    subtotals of the top-level folders. Totals are printed only when the
    root listing succeeds; the exit status is 1 when the root request
    raises and 0 otherwise. *)
Theorem grand_total_is_the_sum_of_subtotals (root : http_result (list SmugMugCounter.node)) :
  match SmugMugCounter.count_all root with
  | (Some c, status) =>
      status = 0 ∧
      ∃ folders, root = Response 200 (Some folders) ∧
        SmugMugCounter.total_images c = sum_list (SmugMugCounter.subtotal <$> folders)
  | (None, status) =>
      listing_failed root = true ∧
      status = match root with RequestRaises _ => 1 | _ => 0 end
  end.
Proof.
  unfold SmugMugCounter.count_all.
  destruct root as [e|status_code [folders|]]; [done| |].
  - case_decide as Hs.
    + split; [|done]. cbn. by rewrite bool_decide_eq_true_2.
    + assert (status_code = 200) as ->
        by (destruct (decide (status_code = 200)); [done|by contradict Hs]).
      split; [done|]. exists folders. split; [done|]. by rewrite process_nodes_total.
  - case_decide; (split; [|done]); cbn; apply orb_true_r.
Qed.

(** ** Writing a sidecar twice *)

Lemma exists_insert (fs : FS) (p : Path) (n : node) : exists_ (<[p := n]> fs) p = true.
Proof. apply exists_true. rewrite lookup_insert_eq. eauto. Qed.

Lemma exists_written_album (fs : FS) (p : Path) (n : node) st :
  exists_ (disk (incr_album_metadata_saved (set_disk (<[p := n]> fs) st))) p = true.
Proof. apply exists_insert. Qed.

Lemma exists_written_image (fs : FS) (p : Path) (n : node) st :
  exists_ (disk (incr_metadata_saved (set_disk (<[p := n]> fs) st))) p = true.
Proof. apply exists_insert. Qed.

Section SidecarsAgain.

Variable os_refuses : Path → option py_exception.

(** Property X27. Writing a sidecar twice is writing it once: a second
    call of [save_album_metadata] or [save_image_metadata] in the state the
    first one left changes nothing. *)
Theorem sidecar_writers_are_idempotent (album_info : album) (album_path : Path)
    (image_info : image) (image_path : Path) (st : state) :
  save_album_metadata os_refuses album_info album_path
    (save_album_metadata os_refuses album_info album_path st)
  = save_album_metadata os_refuses album_info album_path st ∧
  match save_image_metadata os_refuses image_info image_path st with
  | Returns _ st' =>
      save_image_metadata os_refuses image_info image_path st' = Returns tt st'
  | Throws _ st' => st' = st
  end.
Proof.
  split.
  - unfold save_album_metadata.
    destruct (exists_ (disk st) _) eqn:He; [by rewrite He|].
    case_decide as Hempty; [by rewrite ?He, ?decide_True|].
    destruct (open_for_writing os_refuses _ (disk st)) eqn:Ho.
    + by rewrite ?He, ?decide_False, ?Ho.
    + by rewrite exists_written_album.
  - destruct (save_image_metadata_cases os_refuses image_info image_path st)
      as [[-> _]|[Hsame|(m & text & Hm & _ & ->)]]; [done| |].
    + by rewrite Hsame.
    + unfold save_image_metadata. by rewrite Hm, exists_written_image.
Qed.

End SidecarsAgain.

(** ** The properties at sample inputs *)

Lemma traversal_never_overwrites_witness :
  on_disk sample_base (Some (str "log"))
    (disk (state_of (process_folders sample_base never_refuses [sample_folder]
                       (initial_state sample_disk)))) !! sample_path
  = Some (File (str "old")).
Proof.
  destruct (traversal_never_overwrites sample_base never_refuses [sample_folder]
              (initial_state sample_disk) (Some (str "log")) sample_path (File (str "old")))
    as [Hkeep _]; [by vm_compute|].
  apply Hkeep. right. by_compute.
Defined.

Lemma download_all_keeps_the_tree_witness :
  on_disk sample_base (Some (str "log"))
    (disk (final_state (download_all sample_base never_refuses
                          (Response 200 (Some [sample_folder])) (initial_state sample_disk))))
    !! sample_path = Some (File (str "old")).
Proof.
  destruct (download_all_keeps_the_tree sample_base never_refuses
              (Response 200 (Some [sample_folder])) (initial_state sample_disk)
              (Some (str "log")) sample_path (File (str "old"))) as (_ & Hkeep & _);
    [by vm_compute|].
  apply Hkeep; [left|right]; by_compute.
Defined.

Lemma largest_listed_size_is_preferred_witness :
  get_image_download_url sample_sources = Some (str "https://photos.example/x3").
Proof.
  apply (largest_listed_size_is_preferred sample_sources sample_sizes
           [str "ImageSizeOriginal"; str "ImageSizeX5Large"; str "ImageSizeX4Large"]
           [str "ImageSizeX2Large"; str "ImageSizeXLarge"; str "ImageSizeLarge"]
           (str "ImageSizeX3Large")).
  - by vm_compute.
  - reflexivity.
  - reflexivity.
  - repeat constructor; left; by vm_compute.
  - by vm_compute.
  - discriminate.
Defined.

Lemma unlisted_sizes_are_ignored_witness :
  get_image_download_url (with_sizes sample_sizes sample_sources)
  = get_image_download_url
      (with_sizes (<[str "ImageSizeMedium" := SizeObject (Some (str "https://photos.example/m"))]>
                     sample_sizes) sample_sources).
Proof.
  apply unlisted_sizes_are_ignored. intros size_key Hk.
  symmetry. apply lookup_insert_ne. intros <-. revert Hk. by_compute.
Defined.

Lemma unresolved_image_is_not_requested_witness :
  download_image sample_base never_refuses (resolved no_sources (sample_image "K1" "a.jpg"))
    sample_path (str "A") (initial_state ∅)
  = Returns false (push_failed (name sample_path, str "A", no_url_reason) (initial_state ∅)).
Proof.
  apply unresolved_image_is_not_requested; first [reflexivity|exact I].
Defined.

Lemma complete_transfer_is_stored_witness :
  ∃ st',
    download_image sample_base never_refuses (sample_image "K1" "a.jpg") sample_path
      (str "A") (initial_state ∅) = Returns true st' ∧
    disk st' !! sample_path = Some (File (str "jpeg bytes")) ∧
    total_downloaded st' = 1 ∧ failed_downloads st' = [] ∧ skipped_log st' = [].
Proof.
  apply (complete_transfer_is_stored sample_base never_refuses (sample_image "K1" "a.jpg")
           sample_path (str "A") (initial_state ∅) 200 (str "jpeg bytes")).
  - reflexivity.
  - by_compute.
  - discriminate.
  - reflexivity.
  - lia.
  - reflexivity.
Defined.

Lemma success_means_a_complete_file_witness :
  ∃ status_code received q,
    served (sample_image "K1" "a.jpg") = GetResponse status_code received None ∧
    ¬ 400 ≤ status_code < 600 ∧
    disk (state_of (download_image sample_base never_refuses (sample_image "K1" "a.jpg")
                      sample_path (str "A") (initial_state ∅))) !! q
    = Some (File received).
Proof.
  assert (match download_image sample_base never_refuses (sample_image "K1" "a.jpg")
                  sample_path (str "A") (initial_state ∅) with
          | Returns true _ => true
          | _ => false
          end = true) as Htrue by (by vm_compute).
  destruct (download_image sample_base never_refuses (sample_image "K1" "a.jpg")
              sample_path (str "A") (initial_state ∅)) as [[|] st'|e st'] eqn:Heq;
    try discriminate Htrue.
  destruct (success_means_a_complete_file sample_base never_refuses
              (sample_image "K1" "a.jpg") sample_path (str "A") (initial_state ∅) st' Heq)
    as (_ & status_code & received & q & Hs & Hc & _ & Hq & _).
  exists status_code, received, q. split; [exact Hs|]. split; [exact Hc|exact Hq].
Defined.

Lemma keyless_images_are_all_planned_witness :
  (plan_album (str "A") [keyless_image "a.jpg"; keyless_image "a.jpg"] (initial_state ∅)).1.*1
  = [keyless_image "a.jpg"; keyless_image "a.jpg"].
Proof.
  apply (keyless_images_are_all_planned (str "A")
           [keyless_image "a.jpg"; keyless_image "a.jpg"] (initial_state ∅)).
  repeat constructor.
Defined.

Lemma test_script_takes_the_first_album_witness :
  first_album never_refuses (str "no") sample_base [bare_folder; sample_folder]
    (initial_state ∅)
  = Exits 0 (initial_state ∅).
Proof.
  etrans.
  - apply (test_script_takes_the_first_album never_refuses (str "no") sample_base
             [bare_folder] [] (Some (str "F")) sample_album [] None (initial_state ∅)).
    repeat constructor.
  - case_decide as Hyes; [|reflexivity]. exfalso. revert Hyes. by_compute.
Defined.
